(** * cleanup_html.py: tolerant tree builder, rewrite passes, serializer

    A shallow embedding of [scripts/cleanup_html.py].  The Python program
    builds a mutable tree of [Node] objects that point at each other
    (children lists and parent back-references) and rewrites it in place.
    The embedding keeps that shape: nodes live in an arena (a list indexed
    by reference), every attribute write is an update of the arena, and
    object identity ([is]) is equality of references.

    Python's [html.parser.HTMLParser] (the tokenizer) is library code; it
    is represented by the sequence of handler calls it makes, the [event]
    list.  Recursive functions and [while] loops take a [fuel] argument;
    running out of it is the result [OutOfFuel], distinct from a raised
    Python exception ([Raise]). *)

From Stdlib Require Import String Ascii.
From stdpp Require Import base tactics option numbers list.

Set Default Proof Using "Type".
Local Open Scope N_scope.
Local Open Scope nat_scope.
Local Open Scope list_scope.

(** ** Python strings: sequences of Unicode code points *)

Abbreviation char := N (only parsing).
Abbreviation str := (list N) (only parsing).

(** [lit] turns a literal of the development into a Python string. *)
Definition lit (s : string) : str :=
  map N_of_ascii (list_ascii_of_string s).

Definition chr_tab : char := 9%N.
Definition chr_lf : char := 10%N.
Definition chr_cr : char := 13%N.
Definition chr_space : char := 32%N.
Definition chr_quot : char := 34%N.
Definition chr_copyright : char := 169%N.

(** [str.isspace] on one character: the code points Python treats as
    whitespace. *)
Definition isspace (c : char) : bool :=
  ((9 <=? c) && (c <=? 13) || (28 <=? c) && (c <=? 32)
   || (c =? 133) || (c =? 160) || (c =? 5760)
   || (8192 <=? c) && (c <=? 8202)
   || (c =? 8232) || (c =? 8233) || (c =? 8239) || (c =? 8287)
   || (c =? 12288))%N.

Fixpoint lstrip (s : str) : str :=
  match s with
  | c :: s' => if isspace c then lstrip s' else s
  | [] => []
  end.

Definition rstrip (s : str) : str := rev (lstrip (rev s)).

(** [s.strip()] *)
Definition strip (s : str) : str := lstrip (rstrip s).

(** [s.replace(c, "")] and [s.replace(c, d)] for single characters. *)
Definition remove_char (c : char) (s : str) : str :=
  filter (λ x, x ≠ c) s.
Definition replace_char (c d : char) (s : str) : str :=
  map (λ x, if decide (x = c) then d else x) s.

(** [x or ""] for an optional string. *)
Definition or_empty (t : option str) : str := default [] t.

(** Truthiness of an optional string: [None] and [""] are false. *)
Definition truthy (t : option str) : bool :=
  match t with
  | Some (_ :: _) => true
  | _ => false
  end.

Fixpoint is_prefix_by {A} (eqb : A → A → bool) (p s : list A) : bool :=
  match p, s with
  | [], _ => true
  | a :: p', b :: s' => eqb a b && is_prefix_by eqb p' s'
  | _ :: _, [] => false
  end.

(** Case-insensitive match of one subject character against a lower-case
    ASCII pattern character, as [re.IGNORECASE] does on [str] patterns: the
    subject is lower-cased, and the pattern letters [i] and [s] also accept
    dotless i (U+0131) and long s (U+017F); capital I with dot (U+0130)
    lower-cases to [i]. *)
Definition ci_eqb (p c : char) : bool :=
  ((c =? p)
   || (97 <=? p) && (p <=? 122) && (c =? p - 32)
   || (p =? 105) && ((c =? 304) || (c =? 305))
   || (p =? 115) && (c =? 383))%N.

(** [FOOTER_PATTERN.search(s)] for
    [re.compile(r"(©|creative commons)", re.IGNORECASE)]. *)
Fixpoint FOOTER_PATTERN_search (s : str) : bool :=
  match s with
  | [] => false
  | c :: s' =>
      (c =? chr_copyright)%N
      || is_prefix_by ci_eqb (lit "creative commons") s
      || FOOTER_PATTERN_search s'
  end.

Definition VOID_ELEMENTS : list str :=
  map lit ["area"; "base"; "br"; "col"; "embed"; "hr"; "img"; "input";
           "link"; "meta"; "param"; "source"; "track"; "wbr"]%string.

Definition PRESERVE_WHITESPACE_TAGS : list str :=
  map lit ["pre"; "code"; "textarea"; "script"; "style"]%string.

Definition FOOTER_CANDIDATE_TAGS : list str :=
  map lit ["p"; "div"; "section"; "span"; "small"; "footer"; "aside";
           "blockquote"; "ul"; "ol"; "li"]%string.

(** [x in names] for a set of strings. *)
Definition str_in (x : str) (names : list str) : bool :=
  bool_decide (x ∈ names).

(** [node.tag in names]: a tag of [None] is in no set of strings. *)
Definition tag_in (t : option str) (names : list str) : bool :=
  match t with
  | Some x => str_in x names
  | None => false
  end.

(** ** Results of running Python code *)

Inductive exn := IndexError | ValueError.

Inductive res (A : Type) :=
  | Ok (a : A)
  | Raise (e : exn)
  | OutOfFuel.
Arguments Ok {A} a.
Arguments Raise {A} e.
Arguments OutOfFuel {A}.

Definition res_bind {A B} (k : A → res B) (m : res A) : res B :=
  match m with
  | Ok a => k a
  | Raise e => Raise e
  | OutOfFuel => OutOfFuel
  end.

#[global] Instance res_mbind : MBind res := @res_bind.
#[global] Instance res_mret : MRet res := @Ok.
#[global] Instance res_fmap : FMap res :=
  λ A B f m, res_bind (λ a, Ok (f a)) m.

(** [for x in l: s = body(x, s)] *)
Fixpoint foldM {A S} (body : A → S → res S) (l : list A) (s : S) : res S :=
  match l with
  | [] => Ok s
  | x :: l' => s' ← body x s; foldM body l' s'
  end.

(** [[f(x) for x in l]] for a function that may fail. *)
Fixpoint traverse {A B} (f : A → res B) (l : list A) : res (list B) :=
  match l with
  | [] => Ok []
  | x :: l' => y ← f x; ys ← traverse f l'; Ok (y :: ys)
  end.

(** [[y for ys in l for y in ys]], and ["".join(l)] on strings. *)
Definition flatten {A} (l : list (list A)) : list A := concat l.

(** ** Nodes and the arena *)

Abbreviation ref := nat (only parsing).

(** [dict] with string keys and values: insertion-ordered, keys unique. *)
Abbreviation dict := (list (list N * list N)) (only parsing).

Fixpoint dict_get (k : str) (d : dict) : option str :=
  match d with
  | [] => None
  | (k', v) :: d' => if decide (k' = k) then Some v else dict_get k d'
  end.

(** [d[k] = v]: an existing key keeps its position. *)
Fixpoint dict_set (k v : str) (d : dict) : dict :=
  match d with
  | [] => [(k, v)]
  | (k', v') :: d' =>
      if decide (k' = k) then (k, v) :: d' else (k', v') :: dict_set k v d'
  end.

Record Node := mkNode {
  tag : option str;
  attrs : dict;
  children : list ref;
  text : option str;
  parent : option ref;
  is_doctype : bool;
  is_comment : bool;
}.

(** [Node(tag, attrs, text, is_doctype=.., is_comment=..)]: the constructor
    always starts with no children; no call site passes a parent. *)
Definition Node_init (tg : option str) (at_ : dict) (tx : option str)
    (doctype comment : bool) : Node :=
  {| tag := tg; attrs := at_; children := []; text := tx; parent := None;
     is_doctype := doctype; is_comment := comment |}.

Abbreviation heap := (list Node) (only parsing).

(** A reference always denotes a live object in Python.  References are
    handed out by [alloc] and are in range; the default is only there to
    make reading total. *)
Definition deref (h : heap) (n : ref) : Node :=
  default (Node_init None [] None false false) (h !! n).

Definition alloc (nd : Node) (h : heap) : ref * heap :=
  (length h, h ++ [nd]).

Definition with_tag (t : option str) (nd : Node) : Node :=
  {| tag := t; attrs := attrs nd; children := children nd; text := text nd;
     parent := parent nd; is_doctype := is_doctype nd;
     is_comment := is_comment nd |}.
Definition with_attrs (a : dict) (nd : Node) : Node :=
  {| tag := tag nd; attrs := a; children := children nd; text := text nd;
     parent := parent nd; is_doctype := is_doctype nd;
     is_comment := is_comment nd |}.
Definition with_children (cs : list ref) (nd : Node) : Node :=
  {| tag := tag nd; attrs := attrs nd; children := cs; text := text nd;
     parent := parent nd; is_doctype := is_doctype nd;
     is_comment := is_comment nd |}.
Definition with_text (t : option str) (nd : Node) : Node :=
  {| tag := tag nd; attrs := attrs nd; children := children nd; text := t;
     parent := parent nd; is_doctype := is_doctype nd;
     is_comment := is_comment nd |}.
Definition with_parent (p : option ref) (nd : Node) : Node :=
  {| tag := tag nd; attrs := attrs nd; children := children nd;
     text := text nd; parent := p; is_doctype := is_doctype nd;
     is_comment := is_comment nd |}.

(** Attribute writes [n.tag = t], [n.children = cs], ... *)
Definition set_tag (n : ref) (t : option str) (h : heap) : heap :=
  alter (with_tag t) n h.
Definition set_attrs (n : ref) (a : dict) (h : heap) : heap :=
  alter (with_attrs a) n h.
Definition set_children (n : ref) (cs : list ref) (h : heap) : heap :=
  alter (with_children cs) n h.
Definition set_text (n : ref) (t : option str) (h : heap) : heap :=
  alter (with_text t) n h.
Definition set_parent (n : ref) (p : option ref) (h : heap) : heap :=
  alter (with_parent p) n h.

(** [list.index(x)]: position of the first occurrence, if any. *)
Fixpoint index_of (x : ref) (l : list ref) : option nat :=
  match l with
  | [] => None
  | y :: l' => if decide (y = x) then Some 0 else S <$> index_of x l'
  end.

(** [Node.append(self, node)] *)
Definition Node_append (self node : ref) (h : heap) : heap :=
  let h := set_parent node (Some self) h in
  set_children self (children (deref h self) ++ [node]) h.

(** [Node.remove(self, node)]: deletes the first child that is [node] and
    clears its parent; does nothing when [node] is not a child. *)
Definition Node_remove (self node : ref) (h : heap) : heap :=
  match index_of node (children (deref h self)) with
  | Some index =>
      let h := set_children self (delete index (children (deref h self))) h in
      set_parent node None h
  | None => h
  end.

(** ** The tree builder ([DOMBuilder]) *)

(** The handler calls [HTMLParser.feed] and [close] make.  [Pi] and
    [UnknownDecl] are handlers [DOMBuilder] does not override. *)
Inductive event :=
  | StartTag (tg : str) (ats : list (str * option str))
  | StartEndTag (tg : str) (ats : list (str * option str))
  | EndTag (tg : str)
  | Data (data : str)
  | Comment (data : str)
  | Decl (decl : str)
  | Pi (data : str)
  | UnknownDecl (data : str).

(** [{name: value or "" for name, value in attrs}] *)
Definition attrs_dict (ats : list (str * option str)) : dict :=
  foldl (λ d nv, dict_set nv.1 (or_empty nv.2) d) [] ats.

Record DOMBuilder := mkBuilder {
  mem : heap;
  root : ref;
  stack : list ref;   (* bottom first: [stack[-1]] is the last element *)
}.

(** [DOMBuilder.__init__]: [self.root = Node("root")], [self.stack = [root]]. *)
Definition DOMBuilder_init : DOMBuilder :=
  let '(r, h) := alloc (Node_init (Some (lit "root")) [] None false false) [] in
  {| mem := h; root := r; stack := [r] |}.

(** [self.stack[-1]], which raises [IndexError] on an empty list. *)
Definition stack_top (st : list ref) : res ref :=
  match list.last st with
  | Some top => Ok top
  | None => Raise IndexError
  end.

(** [self.stack[-1].append(node)] for a node just constructed. *)
Definition append_to_top (nd : Node) (b : DOMBuilder) : res (ref * DOMBuilder) :=
  let '(node, h) := alloc nd (mem b) in
  top ← stack_top (stack b);
  Ok (node, {| mem := Node_append top node h; root := root b;
               stack := stack b |}).

Definition handle_starttag (tg : str) (ats : list (str * option str))
    (b : DOMBuilder) : res DOMBuilder :=
  '(node, b) ← append_to_top (Node_init (Some tg) (attrs_dict ats) None false false) b;
  if str_in tg VOID_ELEMENTS then Ok b
  else Ok {| mem := mem b; root := root b; stack := stack b ++ [node] |}.

Definition handle_startendtag (tg : str) (ats : list (str * option str))
    (b : DOMBuilder) : res DOMBuilder :=
  '(_, b) ← append_to_top (Node_init (Some tg) (attrs_dict ats) None false false) b;
  Ok b.

(** The loop of [handle_endtag]: [index] runs from [len(stack) - 1] down
    to [1]; the argument counts the indices still to visit, so the index
    visited is the argument itself. *)
Fixpoint endtag_scan (h : heap) (tg : str) (st : list ref) (index : nat)
    : list ref :=
  match index with
  | O => st
  | S i =>
      if decide (tag (deref h (default 0 (st !! index))) = Some tg)
      then take index st
      else endtag_scan h tg st i
  end.

Definition handle_endtag (tg : str) (b : DOMBuilder) : DOMBuilder :=
  {| mem := mem b; root := root b;
     stack := endtag_scan (mem b) tg (stack b) (length (stack b) - 1) |}.

Definition handle_data (data : str) (b : DOMBuilder) : res DOMBuilder :=
  match data with
  | [] => Ok b
  | _ => '(_, b) ← append_to_top (Node_init None [] (Some data) false false) b;
         Ok b
  end.

Definition handle_comment (data : str) (b : DOMBuilder) : res DOMBuilder :=
  '(_, b) ← append_to_top (Node_init None [] (Some data) false true) b;
  Ok b.

Definition handle_decl (decl : str) (b : DOMBuilder) : res DOMBuilder :=
  '(_, b) ← append_to_top (Node_init None [] (Some decl) true false) b;
  Ok b.

Definition handle (e : event) (b : DOMBuilder) : res DOMBuilder :=
  match e with
  | StartTag tg ats => handle_starttag tg ats b
  | StartEndTag tg ats => handle_startendtag tg ats b
  | EndTag tg => Ok (handle_endtag tg b)
  | Data d => handle_data d b
  | Comment d => handle_comment d b
  | Decl d => handle_decl d b
  | Pi _ | UnknownDecl _ => Ok b
  end.

(** [parse_html]: [feed] and [close] drive the handlers over the events of
    the document; the result is [parser.root] with the arena it lives in.
    [evs] are the handler calls the tokenizer of the standard library makes;
    how it cuts the text into them, and an error it raises on the way, are
    outside this model. *)
Definition parse_html (evs : list event) : res (ref * heap) :=
  b ← foldM handle evs DOMBuilder_init;
  Ok (root b, mem b).

(** ** Tree queries *)

(** [iter_tags(node, *names)]: the elements below [node] in document order.
    The generator only reads [children] and [tag]; wherever the program
    consumes it while writing to the tree, the writes are to other fields,
    so the sequence it yields is the one computed on entry. *)
Fixpoint iter_tags (fuel : nat) (h : heap) (names : list str) (node : ref)
    : res (list ref) :=
  match fuel with
  | O => OutOfFuel
  | S fuel =>
      let name_filter := filter (λ name, name ≠ []) names in
      flatten <$> traverse (λ child,
        if truthy (tag (deref h child)) then
          below ← iter_tags fuel h names child;
          if bool_decide (name_filter = [])
             || tag_in (tag (deref h child)) name_filter
          then Ok (child :: below)
          else Ok below
        else Ok []) (children (deref h node))
  end.

(** [get_text(node)] *)
Fixpoint get_text (fuel : nat) (h : heap) (node : ref) : res str :=
  match fuel with
  | O => OutOfFuel
  | S fuel =>
      match tag (deref h node) with
      | None => Ok (or_empty (text (deref h node)))
      | Some _ =>
          if is_comment (deref h node) || is_doctype (deref h node) then Ok []
          else flatten <$> traverse (get_text fuel h) (children (deref h node))
      end
  end.

(** [is_whitespace_node(node)] *)
Definition is_whitespace_node (h : heap) (node : ref) : bool :=
  bool_decide (tag (deref h node) = None)
  && bool_decide (strip (or_empty (text (deref h node))) = []).

(** [unwrap(node)] *)
Definition unwrap (node : ref) (h : heap) : res heap :=
  match parent (deref h node) with
  | None => Ok h
  | Some p =>
      match index_of node (children (deref h p)) with
      | None => Raise ValueError
      | Some index =>
          let h := set_children p (delete index (children (deref h p))) h in
          let h := foldl (λ h child, set_parent child (Some p) h) h
                         (children (deref h node)) in
          let h := set_children p (take index (children (deref h p))
                                   ++ children (deref h node)
                                   ++ drop index (children (deref h p))) h in
          let h := set_children node [] h in
          Ok (set_parent node None h)
      end
  end.

(** [remove_node(node)] *)
Definition remove_node (node : ref) (h : heap) : heap :=
  match parent (deref h node) with
  | None => h
  | Some p => Node_remove p node h
  end.

(** [list.remove(x)]: deletes the first occurrence, [ValueError] if none. *)
Definition list_remove (x : ref) (l : list ref) : res (list ref) :=
  match index_of x l with
  | Some index => Ok (delete index l)
  | None => Raise ValueError
  end.

(** The two replacements [clean_whitespace] makes in the text of a child
    without a tag: carriage returns go, tabs become spaces. *)
Definition replace_cr_and_tab (child : ref) (h : heap) : heap :=
  let h :=
    if truthy (text (deref h child))
       && bool_decide (chr_cr ∈ or_empty (text (deref h child)))
    then set_text child
           (Some (remove_char chr_cr (or_empty (text (deref h child))))) h
    else h in
  if truthy (text (deref h child))
     && bool_decide (chr_tab ∈ or_empty (text (deref h child)))
  then set_text child
         (Some (replace_char chr_tab chr_space
                  (or_empty (text (deref h child))))) h
  else h.

(** [parent = child.parent; if parent: parent.children.remove(child)] *)
Definition remove_from_parent (child : ref) (h : heap) : res heap :=
  match parent (deref h child) with
  | Some p =>
      cs ← list_remove child (children (deref h p));
      Ok (set_children p cs h)
  | None => Ok h
  end.

(** [clean_whitespace(node, preserve)].  Text, comment and doctype nodes all
    have [tag] [None] and take the first branch. *)
Fixpoint clean_whitespace (fuel : nat) (node : ref) (preserve : bool)
    (h : heap) : res heap :=
  match fuel with
  | O => OutOfFuel
  | S fuel =>
      let preserve :=
        preserve || (if truthy (tag (deref h node))
                     then tag_in (tag (deref h node)) PRESERVE_WHITESPACE_TAGS
                     else false) in
      foldM (λ child h,
        match tag (deref h child) with
        | None =>
            if preserve then Ok h
            else
              let h := replace_cr_and_tab child h in
              if bool_decide (strip (or_empty (text (deref h child))) = [])
              then remove_from_parent child h
              else clean_whitespace fuel child preserve h
        | Some _ => clean_whitespace fuel child preserve h
        end) (children (deref h node)) h
  end.

(** [meaningful_children(node)] *)
Definition meaningful_children (h : heap) (node : ref) : list ref :=
  filter (λ child,
    ¬ (is_comment (deref h child) || is_doctype (deref h child))
    ∧ ¬ (tag (deref h child) = None
         ∧ strip (or_empty (text (deref h child))) = []))
    (children (deref h node)).

(** [find_ancestor(node, names)]; [fuel] bounds the walk up the parents. *)
Fixpoint find_ancestor_from (fuel : nat) (h : heap) (current : option ref)
    (names : list str) : res (option ref) :=
  match current with
  | None => Ok None
  | Some c =>
      match fuel with
      | O => OutOfFuel
      | S fuel =>
          if tag_in (tag (deref h c)) names then Ok (Some c)
          else find_ancestor_from fuel h (parent (deref h c)) names
      end
  end.

Definition find_ancestor (fuel : nat) (h : heap) (node : ref)
    (names : list str) : res (option ref) :=
  find_ancestor_from fuel h (parent (deref h node)) names.

(** [is_descendant(node, potential_ancestor)] *)
Fixpoint is_descendant_from (fuel : nat) (h : heap) (current : option ref)
    (potential_ancestor : ref) : res bool :=
  match current with
  | None => Ok false
  | Some c =>
      match fuel with
      | O => OutOfFuel
      | S fuel =>
          if decide (c = potential_ancestor) then Ok true
          else is_descendant_from fuel h (parent (deref h c)) potential_ancestor
      end
  end.

Definition is_descendant (fuel : nat) (h : heap) (node potential_ancestor : ref)
    : res bool :=
  is_descendant_from fuel h (parent (deref h node)) potential_ancestor.

(** ** The rewrite passes *)

(** [stats]: a [defaultdict(int)] that only ever holds these counters. *)
Record Stats := mkStats {
  div_unwrapped : nat;
  empty_headings_removed : nat;
  empty_italics_removed : nat;
  alt_added : nat;
  headings_adjusted : nat;
  footer_elements_moved : nat;
}.

Definition no_stats : Stats := mkStats 0 0 0 0 0 0.

Definition count_div_unwrapped (s : Stats) : Stats :=
  mkStats (S (div_unwrapped s)) (empty_headings_removed s)
    (empty_italics_removed s) (alt_added s) (headings_adjusted s)
    (footer_elements_moved s).
Definition count_empty_headings_removed (s : Stats) : Stats :=
  mkStats (div_unwrapped s) (S (empty_headings_removed s))
    (empty_italics_removed s) (alt_added s) (headings_adjusted s)
    (footer_elements_moved s).
Definition count_empty_italics_removed (s : Stats) : Stats :=
  mkStats (div_unwrapped s) (empty_headings_removed s)
    (S (empty_italics_removed s)) (alt_added s) (headings_adjusted s)
    (footer_elements_moved s).
Definition count_alt_added (s : Stats) : Stats :=
  mkStats (div_unwrapped s) (empty_headings_removed s)
    (empty_italics_removed s) (S (alt_added s)) (headings_adjusted s)
    (footer_elements_moved s).
Definition count_headings_adjusted (s : Stats) : Stats :=
  mkStats (div_unwrapped s) (empty_headings_removed s)
    (empty_italics_removed s) (alt_added s) (S (headings_adjusted s))
    (footer_elements_moved s).
Definition count_footer_elements_moved (s : Stats) : Stats :=
  mkStats (div_unwrapped s) (empty_headings_removed s)
    (empty_italics_removed s) (alt_added s) (headings_adjusted s)
    (S (footer_elements_moved s)).

(** What a pass works on: the arena and the counters. *)
Definition state : Type := heap * Stats.

(** The test the [for] loop of [remove_redundant_wrappers] makes on one
    [div]: true when the loop unwraps it (and breaks). *)
Definition redundant_wrapper (h : heap) (div : ref) : bool :=
  match attrs (deref h div) with
  | _ :: _ => false
  | [] =>
      match meaningful_children h div with
      | [child] =>
          tag_in (tag (deref h child)) [lit "section"; lit "main"]
          && negb (existsb (λ c,
                     bool_decide (tag (deref h c) = None)
                     && truthy (Some (strip (or_empty (text (deref h c))))))
                   (children (deref h div)))
          || bool_decide (tag (deref h child) = Some (lit "div"))
             && bool_decide (attrs (deref h child) = [])
      | _ => false
      end
  end.

(** One round of the [while] loop is one call with [rounds] one smaller;
    [fuel] is for the traversals inside. *)
Fixpoint remove_redundant_wrappers_loop (rounds fuel : nat) (root : ref)
    (st : state) : res state :=
  match rounds with
  | O => OutOfFuel
  | S rounds =>
      divs ← iter_tags fuel st.1 [lit "div"] root;
      match List.find (redundant_wrapper st.1) divs with
      | Some div =>
          h ← unwrap div st.1;
          remove_redundant_wrappers_loop rounds fuel root
            (h, count_div_unwrapped st.2)
      | None => Ok st
      end
  end.

Definition remove_redundant_wrappers (fuel : nat) (root : ref) (st : state)
    : res state :=
  remove_redundant_wrappers_loop fuel fuel root st.

Definition remove_empty_headings (fuel : nat) (root : ref) (st : state)
    : res state :=
  headings ← iter_tags fuel st.1 [lit "h1"; lit "h2"] root;
  foldM (λ heading st,
    t ← get_text fuel st.1 heading;
    if bool_decide (strip t = [])
    then Ok (remove_node heading st.1, count_empty_headings_removed st.2)
    else Ok st) headings st.

Definition remove_empty_italics (fuel : nat) (root : ref) (st : state)
    : res state :=
  italics ← iter_tags fuel st.1 [lit "i"] root;
  foldM (λ italic st,
    match attrs (deref st.1 italic) with
    | _ :: _ => Ok st
    | [] =>
        t ← get_text fuel st.1 italic;
        if truthy (Some (strip t)) then Ok st
        else if existsb (λ child, truthy (tag (deref st.1 child)))
                        (children (deref st.1 italic)) then Ok st
        else Ok (remove_node italic st.1, count_empty_italics_removed st.2)
    end) italics st.

Definition add_alt_text (fuel : nat) (root : ref) (st : state) : res state :=
  images ← iter_tags fuel st.1 [lit "img"] root;
  foldM (λ image st,
    let alt := dict_get (lit "alt") (attrs (deref st.1 image)) in
    if negb (truthy alt) || bool_decide (strip (or_empty alt) = [])
    then Ok (set_attrs image
               (dict_set (lit "alt") (lit "Image description")
                  (attrs (deref st.1 image))) st.1,
             count_alt_added st.2)
    else Ok st) images st.

Definition HEADING_TAGS : list str :=
  map lit ["h1"; "h2"; "h3"; "h4"; "h5"; "h6"]%string.

(** The body of the loop over [headings[1:]]. *)
Definition adjust_heading (heading : ref) (st : state) : state :=
  let original := tag (deref st.1 heading) in
  let h :=
    if bool_decide (original = Some (lit "h1"))
    then set_tag heading (Some (lit "h2")) st.1
    else if tag_in original [lit "h4"; lit "h5"; lit "h6"]
    then set_tag heading (Some (lit "h3")) st.1
    else st.1 in
  if bool_decide (tag (deref h heading) ≠ original)
  then (h, count_headings_adjusted st.2)
  else (h, st.2).

(** The headings with non-empty text, in document order. *)
Definition text_headings (fuel : nat) (h : heap) (root : ref)
    : res (list ref) :=
  all ← iter_tags fuel h HEADING_TAGS root;
  texts ← traverse (get_text fuel h) all;
  Ok (map fst (filter (λ nt, truthy (Some (strip nt.2))) (zip all texts))).

Definition normalize_headings (fuel : nat) (root : ref) (st : state)
    : res state :=
  headings ← text_headings fuel st.1 root;
  match headings with
  | [] => Ok st
  | first :: rest =>
      let st :=
        if bool_decide (tag (deref st.1 first) ≠ Some (lit "h1"))
        then (set_tag first (Some (lit "h1")) st.1, count_headings_adjusted st.2)
        else st in
      Ok (foldl (λ st heading, adjust_heading heading st) st rest)
  end.

(** [[x for x in l if keep(x)]] for a test that may fail. *)
Fixpoint filterM {A} (keep : A → res bool) (l : list A) : res (list A) :=
  match l with
  | [] => Ok []
  | x :: l' =>
      b ← keep x;
      xs ← filterM keep l';
      Ok (if b : bool then x :: xs else xs)
  end.

(** The test [move_footer_elements] makes on each element of the tree:
    true when the element is appended to [candidates]. *)
Definition footer_candidate (fuel : nat) (h : heap) (node : ref) : res bool :=
  if tag_in (tag (deref h node)) [lit "script"; lit "style"; lit "noscript"]
  then Ok false
  else if negb (tag_in (tag (deref h node)) FOOTER_CANDIDATE_TAGS)
  then Ok false
  else
    t ← get_text fuel h node;
    if FOOTER_PATTERN_search t then
      anc ← find_ancestor fuel h node [lit "footer"];
      match anc with
      | Some _ => Ok false
      | None => Ok (negb (400 <? length (strip t)))
      end
    else Ok false.

(** [any(is_descendant(node, other) for other in candidates
         if other is not node)] *)
Fixpoint inside_another (fuel : nat) (h : heap) (node : ref)
    (candidates : list ref) : res bool :=
  match candidates with
  | [] => Ok false
  | other :: rest =>
      if decide (other = node) then inside_another fuel h node rest
      else
        d ← is_descendant fuel h node other;
        if d : bool then Ok true else inside_another fuel h node rest
  end.

(** The candidates that survive the filter for outermost elements. *)
Definition footer_candidates (fuel : nat) (h : heap) (root : ref)
    : res (list ref) :=
  all ← iter_tags fuel h [] root;
  candidates ← filterM (footer_candidate fuel h) all;
  filterM (λ node, negb <$> inside_another fuel h node candidates) candidates.

(** [main = Node("main")], the re-parenting of the children of [body], and
    [body.append(main)]. *)
Definition wrap_body_in_main (body : ref) (h : heap) : ref * heap :=
  let '(main, h) := alloc (Node_init (Some (lit "main")) [] None false false) h in
  let h := foldl (λ h child, Node_append main child (Node_remove body child h))
                 h (children (deref h body)) in
  (main, Node_append body main h).

(** The first [main] of the tree; failing that, a new [main] around the
    children of the first [body]; failing that, nothing. *)
Definition main_for_footer (fuel : nat) (root : ref) (h : heap)
    : res (option (ref * heap)) :=
  mains ← iter_tags fuel h [lit "main"] root;
  match mains with
  | main :: _ => Ok (Some (main, h))
  | [] =>
      bodies ← iter_tags fuel h [lit "body"] root;
      match bodies with
      | [] => Ok None
      | body :: _ => Ok (Some (wrap_body_in_main body h))
      end
  end.

(** The footer child of [main], created when there is none. *)
Definition footer_of_main (main : ref) (h : heap) : ref * heap :=
  match List.find (λ node, bool_decide (tag (deref h node) = Some (lit "footer")))
                  (children (deref h main)) with
  | Some footer => (footer, h)
  | None =>
      let '(footer, h) :=
        alloc (Node_init (Some (lit "footer")) [] None false false) h in
      (footer, Node_append main footer h)
  end.

(** The body of the last loop of [move_footer_elements]. *)
Definition move_to_footer (footer node : ref) (st : state) : state :=
  match parent (deref st.1 node) with
  | None => st
  | Some p =>
      (Node_append footer node (Node_remove p node st.1),
       count_footer_elements_moved st.2)
  end.

Definition move_footer_elements (fuel : nat) (root : ref) (st : state)
    : res state :=
  all ← iter_tags fuel st.1 [] root;
  candidates ← filterM (footer_candidate fuel st.1) all;
  match candidates with
  | [] => Ok st
  | _ :: _ =>
      candidates ← filterM (λ node,
                      negb <$> inside_another fuel st.1 node candidates)
                    candidates;
      target ← main_for_footer fuel root st.1;
      match target with
      | None => Ok st
      | Some (main, h) =>
          let '(footer, h) := footer_of_main main h in
          Ok (foldl (λ st node, move_to_footer footer node st)
                    (h, st.2) candidates)
      end
  end.

(** [ensure_matching_sections(root)] *)
Definition ensure_matching_sections (fuel : nat) (root : ref) (h : heap)
    : res heap :=
  clean_whitespace fuel root false h.

(** The passes of [process_file], in the order of its statements. *)
Definition normalize (fuel : nat) (root : ref) (st : state) : res state :=
  st ← remove_redundant_wrappers fuel root st;
  st ← remove_empty_headings fuel root st;
  st ← remove_empty_italics fuel root st;
  st ← add_alt_text fuel root st;
  st ← normalize_headings fuel root st;
  st ← move_footer_elements fuel root st;
  h ← ensure_matching_sections fuel root st.1;
  Ok (h, st.2).

(** ** The serializer *)

(** [sep.join(parts)] *)
Fixpoint join (sep : str) (parts : list str) : str :=
  match parts with
  | [] => []
  | [p] => p
  | p :: ps => p ++ sep ++ join sep ps
  end.

(** [html.escape(value, quote=True)] *)
Definition html_escape (value : str) : str :=
  flatten (map (λ c : char,
    if decide (c = 38%N) then lit "&amp;"
    else if decide (c = 60%N) then lit "&lt;"
    else if decide (c = 62%N) then lit "&gt;"
    else if decide (c = 34%N) then lit "&quot;"
    else if decide (c = 39%N) then lit "&#x27;"
    else [c]) value).

(** [render_attributes(attrs)].  The values of [attrs] are strings (the
    builder stores [value or ""]), so the branch for [None] is never taken. *)
Definition render_attributes (a : dict) : str :=
  flatten (map (λ kv : str * str,
    lit " " ++ kv.1 ++ lit "=" ++ [chr_quot] ++ html_escape kv.2 ++ [chr_quot]) a).

(** ["  " * indent] *)
Definition indent_str (indent : nat) : str :=
  flatten (replicate indent (lit "  ")).

(** [f"{text}"] for an optional string. *)
Definition fmt (t : option str) : str :=
  match t with
  | Some s => s
  | None => lit "None"
  end.

Fixpoint render_node (fuel : nat) (h : heap) (node : ref) (indent : nat)
    (preserve : bool) : res str :=
  match fuel with
  | O => OutOfFuel
  | S fuel =>
      let nd := deref h node in
      if is_doctype nd then Ok (lit "<!" ++ fmt (text nd) ++ lit ">")
      else if is_comment nd
      then Ok (indent_str indent ++ lit "<!--" ++ or_empty (text nd) ++ lit "-->")
      else
        match tag nd with
        | None =>
            let t := or_empty (text nd) in
            if preserve || negb (truthy (Some (strip t))) then Ok t
            else Ok (indent_str indent ++ strip t)
        | Some tg =>
            let a := render_attributes (attrs nd) in
            if str_in tg VOID_ELEMENTS
            then Ok (indent_str indent ++ lit "<" ++ tg ++ a ++ lit ">")
            else
              let preserve_children :=
                preserve || str_in tg PRESERVE_WHITESPACE_TAGS in
              rendered ← traverse (λ child,
                  render_node fuel h child (S indent) preserve_children)
                (children nd);
              let child_strings := filter (λ r : str, r ≠ []) rendered in
              match child_strings with
              | [] => Ok (indent_str indent ++ lit "<" ++ tg ++ a ++ lit "></"
                          ++ tg ++ lit ">")
              | _ :: _ =>
                  if preserve_children
                  then Ok (indent_str indent ++ lit "<" ++ tg ++ a ++ lit ">"
                           ++ flatten child_strings ++ lit "</" ++ tg ++ lit ">")
                  else Ok (indent_str indent ++ lit "<" ++ tg ++ a ++ lit ">"
                           ++ [chr_lf] ++ join [chr_lf] child_strings
                           ++ [chr_lf] ++ indent_str indent ++ lit "</" ++ tg
                           ++ lit ">")
              end
        end
  end.

(** The line boundaries of [str.splitlines]. *)
Definition is_linebreak (c : char) : bool :=
  ((10 <=? c) && (c <=? 13) || (28 <=? c) && (c <=? 30)
   || (c =? 133) || (c =? 8232) || (c =? 8233))%N.

(** [text.splitlines()]; [cur] is the line being read, last character
    first.  A carriage return followed by a line feed is one boundary. *)
Fixpoint splitlines_from (cur : str) (s : str) : list str :=
  match s with
  | [] => match cur with [] => [] | _ => [rev cur] end
  | c :: s' =>
      if is_linebreak c then
        rev cur ::
        match s' with
        | d :: s'' =>
            if (c =? chr_cr)%N && (d =? chr_lf)%N then splitlines_from [] s''
            else splitlines_from [] s'
        | [] => splitlines_from [] s'
        end
      else splitlines_from (c :: cur) s'
  end.

Definition splitlines (s : str) : list str := splitlines_from [] s.

(** [indent_block(text, level)] *)
Definition indent_block (t : str) (level : nat) : str :=
  join [chr_lf]
    (map (λ line, match line with
                  | [] => []
                  | _ => indent_str level ++ line
                  end) (splitlines t)).

Definition render_document (fuel : nat) (h : heap) (root : ref) : res str :=
  let doctype := List.find (λ c, is_doctype (deref h c)) (children (deref h root)) in
  let html_node :=
    List.find (λ c, bool_decide (tag (deref h c) = Some (lit "html")))
              (children (deref h root)) in
  first ← match doctype with
          | Some d => render_node fuel h d 0 false
          | None => Ok (lit "<!DOCTYPE html>")
          end;
  rest ← match html_node with
         | Some n => r ← render_node fuel h n 0 false; Ok [r]
         | None =>
             rendered ← traverse (λ c, render_node fuel h c 0 false)
               (filter (λ c, Some c ≠ doctype) (children (deref h root)));
             match filter (λ r : str, r ≠ []) rendered with
             | [] => Ok []
             | content_parts =>
                 Ok [lit "<html>"; lit "  <body>";
                     indent_block (join [chr_lf] content_parts) 2;
                     lit "  </body>"; lit "</html>"]
             end
         end;
  Ok (join [chr_lf] (first :: rest) ++ [chr_lf]).

(** [process_file] between reading the file and comparing the output with
    it: parse, rewrite, serialize.  [evs] are the events of the text read;
    the result is the text to write and the counters.  The comparison, the
    re-parse of the output by [validate_html] and the write that follow are
    not part of it. *)
Definition process_file (fuel : nat) (evs : list event) : res (str * Stats) :=
  '(root, h) ← parse_html evs;
  st ← normalize fuel root (h, no_stats);
  output ← render_document fuel st.1 root;
  Ok (output, st.2).

(** * Properties *)

(** ** Reading the arena after a write *)

Lemma deref_alter (f : Node → Node) (n m : ref) (h : heap) :
  deref (alter f n h) m
  = if decide (m = n ∧ n < length h) then f (deref h n) else deref h m.
Proof.
  unfold deref. case_decide as Hc.
  - destruct Hc as [-> Hlt].
    destruct (lookup_lt_is_Some_2 h n Hlt) as [nd Hnd].
    by rewrite list_lookup_alter_eq, Hnd.
  - destruct (decide (m = n)) as [->|Hne].
    + rewrite list_lookup_alter_eq.
      assert (h !! n = None) as -> by (apply lookup_ge_None_2; lia). done.
    + by rewrite list_lookup_alter_ne.
Qed.

Lemma deref_alter_ne (f : Node → Node) (n m : ref) (h : heap) :
  m ≠ n → deref (alter f n h) m = deref h m.
Proof. intros. rewrite deref_alter. case_decide; naive_solver. Qed.

Lemma deref_alter_frame {X} (proj : Node → X) (f : Node → Node) n m h :
  (∀ nd, proj (f nd) = proj nd) →
  proj (deref (alter f n h) m) = proj (deref h m).
Proof.
  intros Hf. rewrite deref_alter. case_decide as Hc; [|done].
  destruct Hc as [-> _]. apply Hf.
Qed.

Lemma deref_alloc_old (nd : Node) (h : heap) (n : ref) :
  n < length h → deref (alloc nd h).2 n = deref h n.
Proof. intros. unfold deref, alloc. simpl. by rewrite lookup_app_l. Qed.

Lemma deref_alloc_new (nd : Node) (h : heap) :
  deref (alloc nd h).2 (alloc nd h).1 = nd.
Proof.
  unfold deref, alloc. simpl.
  rewrite lookup_app_r by lia. by rewrite Nat.sub_diag.
Qed.

(** ** Monadic loops *)

Lemma bind_Ok {A B} (m : res A) (k : A → res B) (b : B) :
  m ≫= k = Ok b → ∃ a, m = Ok a ∧ k a = Ok b.
Proof. destruct m; simpl; [eauto | done | done]. Qed.

Lemma fmap_Ok {A B} (f : A → B) (m : res A) (b : B) :
  f <$> m = Ok b → ∃ a, m = Ok a ∧ b = f a.
Proof. destruct m; simpl; [|done|done]. intros [= <-]. eauto. Qed.

Lemma foldM_inv {A S} (P : S → Prop) (body : A → S → res S) l s s' :
  (∀ x t t', x ∈ l → P t → body x t = Ok t' → P t') →
  P s → foldM body l s = Ok s' → P s'.
Proof.
  revert s. induction l as [|x l IH]; intros s Hbody Hs; simpl.
  - by intros [= <-].
  - intros (t & Ht & Hrest)%bind_Ok.
    apply (IH t); [|by eapply Hbody; [left|..]|done].
    intros y u u' Hy. apply Hbody. by right.
Qed.

Ltac inv_res :=
  repeat match goal with
  | H : _ ≫= _ = Ok _ |- _ =>
      let a := fresh "r" in let Ha := fresh "Hr" in
      apply bind_Ok in H as (a & Ha & H)
  | H : _ <$> _ = Ok _ |- _ =>
      let a := fresh "r" in let Ha := fresh "Hr" in
      apply fmap_Ok in H as (a & Ha & H)
  | H : Ok _ = Ok _ |- _ => injection H as H
  | H : Raise _ = Ok _ |- _ => discriminate H
  | H : OutOfFuel = Ok _ |- _ => discriminate H
  end.

(** ** End tags (C5) *)

Section endtag.
Variables (h : heap) (tg : str) (st : list ref).

(** The element at position [j] of the stack has tag [tg]. *)
Definition matches_at (j : nat) : Prop :=
  ∃ n, st !! j = Some n ∧ tag (deref h n) = Some tg.

Lemma matches_at_default j :
  j < length st →
  tag (deref h (default 0 (st !! j))) = Some tg ↔ matches_at j.
Proof.
  intros Hj. destruct (lookup_lt_is_Some_2 st j Hj) as [n Hn].
  unfold matches_at. rewrite Hn. simpl. naive_solver.
Qed.

Lemma endtag_scan_none k :
  k < length st →
  (∀ j, 1 ≤ j ≤ k → ¬ matches_at j) →
  endtag_scan h tg st k = st.
Proof.
  induction k as [|k IH]; intros Hk Hno; [done|]. simpl.
  case_decide as Hm.
  - apply matches_at_default in Hm; [|done]. destruct (Hno (S k)); [lia|done].
  - apply IH; [lia|]. intros j Hj. apply Hno. lia.
Qed.

Lemma endtag_scan_nearest k index :
  k < length st →
  1 ≤ index ≤ k →
  matches_at index →
  (∀ j, index < j ≤ k → ¬ matches_at j) →
  endtag_scan h tg st k = take index st.
Proof.
  induction k as [|k IH]; intros Hk Hi Hm Hno; [lia|]. simpl.
  case_decide as Hd.
  - apply matches_at_default in Hd; [|done].
    destruct (decide (index = S k)) as [->|Hne]; [done|].
    destruct (Hno (S k)); [lia|done].
  - destruct (decide (index = S k)) as [->|Hne].
    + destruct Hd. by apply matches_at_default.
    + apply IH; [lia|lia|done|]. intros j Hj. apply Hno. lia.
Qed.

(** Among the positions up to [k] that match there is a greatest. *)
Lemma nearest_match k :
  (∃ j, 1 ≤ j ≤ k ∧ matches_at j) →
  ∃ index, 1 ≤ index ≤ k ∧ matches_at index
           ∧ ∀ j, index < j ≤ k → ¬ matches_at j.
Proof.
  induction k as [|k IH]; intros (j & Hj & Hm); [lia|].
  assert (Decision (matches_at (S k))) as [Hd|Hd].
  { unfold matches_at. destruct (st !! S k) as [n|] eqn:Hn.
    - destruct (decide (tag (deref h n) = Some tg)); [left|right]; naive_solver.
    - right. naive_solver. }
  - exists (S k). split_and!; [lia|lia|done|]. intros; lia.
  - destruct IH as (index & Hi & Him & Hno).
    { exists j. split; [|done]. destruct (decide (j = S k)) as [->|]; [done|lia]. }
    exists index. split_and!; [lia|lia|done|].
    intros j' Hj'. destruct (decide (j' = S k)) as [->|]; [done|].
    apply Hno. lia.
Qed.
End endtag.

(** C5. On an end tag: when some element of the open-element stack above
    the root (position 1 or higher) has the tag, the stack is cut just
    below the nearest such element (the one closest to the top), dropping
    it and everything above it; when none has, the stack is unchanged.  The
    tree itself is never touched. *)
Theorem handle_endtag_pops_to_nearest_match (tg : str) (b : DOMBuilder) :
  mem (handle_endtag tg b) = mem b
  ∧ root (handle_endtag tg b) = root b
  ∧ ((∃ j, 1 ≤ j < length (stack b) ∧ matches_at (mem b) tg (stack b) j) →
     ∃ index, 1 ≤ index < length (stack b)
       ∧ matches_at (mem b) tg (stack b) index
       ∧ (∀ j, index < j < length (stack b)
               → ¬ matches_at (mem b) tg (stack b) j)
       ∧ stack (handle_endtag tg b) = take index (stack b))
  ∧ ((∀ j, 1 ≤ j < length (stack b) → ¬ matches_at (mem b) tg (stack b) j) →
     stack (handle_endtag tg b) = stack b).
Proof.
  split_and!; [done|done|..]; simpl.
  - intros (j & Hj & Hm).
    destruct (nearest_match (mem b) tg (stack b) (length (stack b) - 1))
      as (index & Hi & Him & Hno).
    { exists j. split; [lia|done]. }
    exists index. split_and!; [lia|lia|done|..].
    + intros j' Hj'. apply Hno. lia.
    + apply endtag_scan_nearest; [lia|lia|done|done].
  - intros Hno. destruct (stack b) as [|r st] eqn:Hst; [done|].
    apply endtag_scan_none; [simpl; lia|].
    intros j Hj. apply Hno. simpl in *. lia.
Qed.

(** An end tag that closes the outer of two open elements closes both; a
    stray end tag changes nothing. *)
Lemma handle_endtag_pops_to_nearest_match_witness :
  let evs := [StartTag (lit "b") []; StartTag (lit "i") []; Data (lit "text")] in
  ∃ b, foldM handle evs DOMBuilder_init = Ok b
       ∧ stack b = [0; 1; 2]
       ∧ stack (handle_endtag (lit "b") b) = [0]
       ∧ stack (handle_endtag (lit "p") b) = [0; 1; 2].
Proof.
  eexists. split; [vm_compute; reflexivity|].
  split; [reflexivity|]. split.
  - match goal with |- stack (handle_endtag ?t ?b) = _ =>
      destruct (handle_endtag_pops_to_nearest_match t b) as (_ & _ & H & _) end.
    destruct H as (index & Hi & Hm & _ & ->).
    + exists 1. split; [simpl; lia|]. exists 1. split; reflexivity.
    + destruct Hm as (n & Hn & Ht). simpl in Hi.
      destruct index as [|[|[|?]]]; [lia|reflexivity| |lia].
      injection Hn as <-. vm_compute in Ht. discriminate Ht.
  - match goal with |- stack (handle_endtag ?t ?b) = _ =>
      destruct (handle_endtag_pops_to_nearest_match t b) as (_ & _ & _ & H) end.
    rewrite H; [reflexivity|].
    intros j Hj (n & Hn & Ht). simpl in Hj.
    destruct j as [|[|[|?]]]; [lia| | |lia];
      injection Hn as <-; vm_compute in Ht; discriminate Ht.
Defined.

(** ** Text content (C1) *)

(** [get_text] tests [node.tag is None] first.  Comment and doctype nodes
    are built without a tag, so for them that test answers before the test
    on [is_comment] and [is_doctype] is reached. *)
Lemma get_text_untagged (fuel : nat) (h : heap) (node : ref) :
  tag (deref h node) = None →
  get_text (S fuel) h node = Ok (or_empty (text (deref h node))).
Proof. intros Ht. simpl. by rewrite Ht. Qed.

(** C1, at [<p><!--x--></p>] and [<!DOCTYPE html>]: the text content of the
    comment node is its body [x], not the empty string, and the body is
    part of the text content of the enclosing element and of the root; the
    text content of the doctype node is the declaration. *)
Theorem get_text_includes_comments_and_doctypes :
  let evs := [Decl (lit "DOCTYPE html"); StartTag (lit "p") [];
              Comment (lit "x"); EndTag (lit "p")] in
  ∃ h, parse_html evs = Ok (0, h)
       ∧ is_doctype (deref h 1) = true
       ∧ get_text 3 h 1 = Ok (lit "DOCTYPE html")
       ∧ is_comment (deref h 3) = true
       ∧ get_text 3 h 3 = Ok (lit "x")
       ∧ get_text 3 h 2 = Ok (lit "x")
       ∧ get_text 3 h 0 = Ok (lit "DOCTYPE htmlx").
Proof. eexists. split; [vm_compute; reflexivity|]. by vm_compute. Qed.

(** ** Footer relocation without [main] and [body] (C10) *)

Lemma filterM_not_Raise {A} (keep : A → res bool) (l : list A) e :
  (∀ x, keep x ≠ Raise e) → filterM keep l ≠ Raise e.
Proof.
  intros Hk. induction l as [|x l IH]; simpl; [done|].
  specialize (Hk x). destruct (keep x); simpl; [|by intros [= ->]|done].
  destruct (filterM keep l); simpl; done.
Qed.

Lemma traverse_not_Raise {A B} (f : A → res B) (l : list A) e :
  (∀ x, f x ≠ Raise e) → traverse f l ≠ Raise e.
Proof.
  intros Hf. induction l as [|x l IH]; simpl; [done|].
  specialize (Hf x). destruct (f x); simpl; [|by intros [= ->]|done].
  destruct (traverse f l); simpl; done.
Qed.

Lemma iter_tags_not_Raise fuel h names node e :
  iter_tags fuel h names node ≠ Raise e.
Proof.
  revert node. induction fuel as [|fuel IH]; intros node; simpl; [done|].
  match goal with |- _ <$> traverse ?f ?l ≠ _ =>
    assert (traverse f l ≠ Raise e) as Ht;
    [|destruct (traverse f l); simpl; [done|by intros [= ->]|done]] end.
  apply traverse_not_Raise. intros x.
  destruct (truthy _); [|done].
  specialize (IH x). destruct (iter_tags fuel h names x); simpl;
    [|by intros [= ->]|done].
  by destruct (_ || _).
Qed.

Lemma get_text_not_Raise fuel h node e : get_text fuel h node ≠ Raise e.
Proof.
  revert node. induction fuel as [|fuel IH]; intros node; simpl; [done|].
  destruct (tag _); [|done]. destruct (_ || _); [done|].
  pose proof (traverse_not_Raise (get_text fuel h)
                (children (deref h node)) e IH) as Ht.
  destruct (traverse _ _); simpl; [done|by intros [= ->]|done].
Qed.

Lemma find_ancestor_from_not_Raise fuel h cur names e :
  find_ancestor_from fuel h cur names ≠ Raise e.
Proof.
  revert cur. induction fuel as [|fuel IH]; intros [c|]; simpl; try done.
  by destruct (tag_in _ _).
Qed.

Lemma is_descendant_from_not_Raise fuel h cur anc e :
  is_descendant_from fuel h cur anc ≠ Raise e.
Proof.
  revert cur. induction fuel as [|fuel IH]; intros [c|]; simpl; try done.
  by case_decide.
Qed.

Lemma footer_candidate_not_Raise fuel h node e :
  footer_candidate fuel h node ≠ Raise e.
Proof.
  unfold footer_candidate. destruct (tag_in _ _); [done|].
  destruct (negb _); [done|].
  pose proof (get_text_not_Raise fuel h node e).
  destruct (get_text _ _ _) as [t| |]; simpl; [|by intros [= ->]|done].
  destruct (FOOTER_PATTERN_search t); [|done].
  pose proof (find_ancestor_from_not_Raise fuel h (parent (deref h node))
                [lit "footer"] e) as Ha.
  unfold find_ancestor.
  destruct (find_ancestor_from _ _ _ _) as [[?|]| |]; simpl;
    [done|done|by intros [= ->]|done].
Qed.

Lemma inside_another_not_Raise fuel h node cands e :
  inside_another fuel h node cands ≠ Raise e.
Proof.
  induction cands as [|other rest IH]; simpl; [done|].
  case_decide; [done|].
  pose proof (is_descendant_from_not_Raise fuel h (parent (deref h node)) other e).
  unfold is_descendant.
  destruct (is_descendant_from _ _ _ _) as [[|]| |]; simpl;
    [done|done|by intros [= ->]|done].
Qed.

(** C10. On a tree with no [main] element and no [body] element the
    footer pass writes nothing: it returns the arena and the counters it
    was given.  (It raises nothing either; the only other outcome is that
    the traversals were given too little fuel.) *)
Theorem move_footer_elements_without_main_and_body
    (fuel : nat) (root : ref) (st : state) :
  iter_tags fuel st.1 [lit "main"] root = Ok [] →
  iter_tags fuel st.1 [lit "body"] root = Ok [] →
  move_footer_elements fuel root st = Ok st
  ∨ move_footer_elements fuel root st = OutOfFuel.
Proof.
  intros Hmain Hbody. unfold move_footer_elements.
  pose proof (iter_tags_not_Raise fuel st.1 [] root) as Hall.
  destruct (iter_tags fuel st.1 [] root) as [all|e|]; simpl;
    [|by destruct (Hall e)|by right].
  pose proof (λ e, filterM_not_Raise (footer_candidate fuel st.1) all e
                (λ x, footer_candidate_not_Raise fuel st.1 x e)) as Hc.
  destruct (filterM (footer_candidate fuel st.1) all) as [cands|e|]; simpl;
    [|by destruct (Hc e)|by right].
  destruct cands as [|c cands]; [by left|].
  match goal with |- context [filterM ?k ?l] =>
    assert (∀ e, filterM k l ≠ Raise e) as Hf;
    [|destruct (filterM k l) as [filtered|e|]; simpl;
      [|by destruct (Hf e)|by right]] end.
  { intros e. apply filterM_not_Raise. intros x.
    pose proof (inside_another_not_Raise fuel st.1 x (c :: cands) e).
    destruct (inside_another _ _ _ _); simpl; [done|by intros [= ->]|done]. }
  unfold main_for_footer. rewrite Hmain. simpl. rewrite Hbody. simpl. by left.
Qed.

(** A tree with a copyright paragraph and neither [main] nor [body]:
    the paragraph is a candidate and stays where it is. *)
Lemma move_footer_elements_without_main_and_body_witness :
  let evs := [StartTag (lit "div") []; StartTag (lit "p") [];
              Data (chr_copyright :: lit " 2024 Acme")] in
  ∃ h, parse_html evs = Ok (0, h)
       ∧ footer_candidates 5 h 0 = Ok [1]
       ∧ move_footer_elements 5 0 (h, no_stats) = Ok (h, no_stats).
Proof.
  eexists. split; [vm_compute; reflexivity|].
  split; [vm_compute; reflexivity|].
  match goal with |- move_footer_elements ?f ?r ?st = _ =>
    destruct (move_footer_elements_without_main_and_body f r st) as [H|H] end.
  - vm_compute. reflexivity.
  - vm_compute. reflexivity.
  - exact H.
  - vm_compute in H. discriminate H.
Defined.

(** ** Redundant wrappers *)

Lemma remove_redundant_wrappers_loop_exit rounds fuel root st st' :
  remove_redundant_wrappers_loop rounds fuel root st = Ok st' →
  ∃ divs, iter_tags fuel st'.1 [lit "div"] root = Ok divs
          ∧ List.find (redundant_wrapper st'.1) divs = None.
Proof.
  revert st. induction rounds as [|rounds IH]; intros st; simpl; [done|].
  intros H. inv_res.
  destruct (List.find _ r) as [div|] eqn:Hfind.
  - inv_res. by eapply IH.
  - inv_res. subst st'. eauto.
Qed.

(** ** The order of the passes (C2) *)

(** The whitespace pass as a step of the pipeline. *)
Definition whitespace_pass (fuel : nat) (root : ref) (st : state) : res state :=
  h ← ensure_matching_sections fuel root st.1;
  Ok (h, st.2).

(** Run a list of passes from left to right. *)
Definition run_passes (passes : list (nat → ref → state → res state))
    (fuel : nat) (root : ref) (st : state) : res state :=
  foldM (λ pass st, pass fuel root st) passes st.

(** The order in which the specification lists the passes: whitespace
    normalization first, footer relocation last. *)
Definition normalize_in_spec_order (fuel : nat) (root : ref) (st : state)
    : res state :=
  run_passes [whitespace_pass; remove_redundant_wrappers;
              remove_empty_headings; remove_empty_italics; add_alt_text;
              normalize_headings; move_footer_elements] fuel root st.

(** C2 as stated fails.  In [<body><pre><p>©(tab)</p></pre></body>] the
    paragraph sits in a [pre]: whitespace normalization run first leaves
    its text alone; run last, as the program does, it meets the paragraph
    after the footer pass has moved it out of the [pre] and turns the tab
    into a space. *)
Lemma normalize_not_in_spec_order :
  ¬ ∀ evs fuel root h,
      parse_html evs = Ok (root, h) →
      normalize fuel root (h, no_stats)
      = normalize_in_spec_order fuel root (h, no_stats).
Proof.
  intros Heq.
  pose (evs := [StartTag (lit "body") []; StartTag (lit "pre") [];
                StartTag (lit "p") []; Data [chr_copyright; chr_tab];
                EndTag (lit "p"); EndTag (lit "pre"); EndTag (lit "body")]).
  destruct (parse_html evs) as [[root h]| |] eqn:Hparse;
    [|vm_compute in Hparse; discriminate Hparse..].
  specialize (Heq evs 6 root h Hparse).
  vm_compute in Hparse. injection Hparse as <- <-.
  vm_compute in Heq. discriminate Heq.
Qed.

(** C2, amended. [process_file] applies the passes in this order:
    redundant-wrapper unwrapping, empty-heading removal, empty-italic
    removal, alt-text injection, heading normalization, footer relocation,
    and whitespace normalization last. *)
Theorem normalize_order (fuel : nat) (root : ref) (st : state) :
  normalize fuel root st
  = run_passes [remove_redundant_wrappers; remove_empty_headings;
                remove_empty_italics; add_alt_text; normalize_headings;
                move_footer_elements; whitespace_pass] fuel root st.
Proof.
  unfold normalize, run_passes, whitespace_pass. simpl.
  destruct (remove_redundant_wrappers fuel root st) as [s1| |]; simpl; [|done..].
  destruct (remove_empty_headings fuel root s1) as [s2| |]; simpl; [|done..].
  destruct (remove_empty_italics fuel root s2) as [s3| |]; simpl; [|done..].
  destruct (add_alt_text fuel root s3) as [s4| |]; simpl; [|done..].
  destruct (normalize_headings fuel root s4) as [s5| |]; simpl; [|done..].
  destruct (move_footer_elements fuel root s5) as [s6| |]; simpl; [|done..].
  by destruct (ensure_matching_sections fuel root s6.1).
Qed.

(** ** Re-applying the pipeline (C4) *)

(** The markup an event stands for, for lower-case tag names without
    attributes and character data free of [&] and [<]: the text whose
    tokenization is the event. *)
Definition event_markup (e : event) : str :=
  match e with
  | StartTag tg _ => lit "<" ++ tg ++ lit ">"
  | StartEndTag tg _ => lit "<" ++ tg ++ lit "/>"
  | EndTag tg => lit "</" ++ tg ++ lit ">"
  | Data d => d
  | Comment d => lit "<!--" ++ d ++ lit "-->"
  | Decl d => lit "<!" ++ d ++ lit ">"
  | Pi d => lit "<?" ++ d ++ lit ">"
  | UnknownDecl d => lit "<![" ++ d ++ lit "]>"
  end.

Definition markup (evs : list event) : str := flatten (map event_markup evs).

(** [lines ls] is the text with the given lines, each ended by a line feed. *)
Definition lines (ls : list str) : str := flatten (map (λ l, l ++ [chr_lf]) ls).

(** C4, at [<html><body><p>© 2024</p></body></html>].  The first run
    moves the paragraph into a new [footer] in a new [main].  In the second
    run, on the tokens of that output, the [footer] element is itself a
    candidate and is also the footer of [main]: it is removed from [main]
    and appended to itself, and the paragraph is gone from the output. *)
Theorem process_file_twice_loses_footer :
  let evs := [StartTag (lit "html") []; StartTag (lit "body") [];
              StartTag (lit "p") []; Data (chr_copyright :: lit " 2024");
              EndTag (lit "p"); EndTag (lit "body"); EndTag (lit "html")] in
  let once := lines [lit "<!DOCTYPE html>"; lit "<html>"; lit "  <body>";
                     lit "    <main>"; lit "      <footer>";
                     lit "        <p>";
                     lit "          " ++ chr_copyright :: lit " 2024";
                     lit "        </p>"; lit "      </footer>";
                     lit "    </main>"; lit "  </body>"; lit "</html>"] in
  let twice := lines [lit "<!DOCTYPE html>"; lit "<html>"; lit "  <body>";
                      lit "    <main></main>"; lit "  </body>";
                      lit "</html>"] in
  let nl := [chr_lf] in
  let evs' := [Decl (lit "DOCTYPE html"); Data nl;
               StartTag (lit "html") []; Data (nl ++ lit "  ");
               StartTag (lit "body") []; Data (nl ++ lit "    ");
               StartTag (lit "main") []; Data (nl ++ lit "      ");
               StartTag (lit "footer") []; Data (nl ++ lit "        ");
               StartTag (lit "p") [];
               Data (nl ++ lit "          " ++ chr_copyright :: lit " 2024"
                     ++ nl ++ lit "        ");
               EndTag (lit "p"); Data (nl ++ lit "      ");
               EndTag (lit "footer"); Data (nl ++ lit "    ");
               EndTag (lit "main"); Data (nl ++ lit "  ");
               EndTag (lit "body"); Data nl; EndTag (lit "html"); Data nl] in
  (∃ stats, process_file 12 evs = Ok (once, stats))
  ∧ markup evs' = once
  ∧ (∃ stats, process_file 12 evs' = Ok (twice, stats))
  ∧ twice ≠ once.
Proof.
  split_and!.
  - eexists. vm_compute. reflexivity.
  - vm_compute. reflexivity.
  - eexists. vm_compute. reflexivity.
  - vm_compute. discriminate.
Qed.

(** ** What each write changes *)

Lemma deref_app_one (h : heap) (nd : Node) (n : ref) :
  deref (h ++ [nd]) n = if decide (n = length h) then nd else deref h n.
Proof.
  unfold deref. case_decide as Hn.
  - subst n. rewrite lookup_app_r by lia. by rewrite Nat.sub_diag.
  - destruct (decide (n < length h)).
    + by rewrite lookup_app_l.
    + rewrite !(lookup_ge_None_2 _ n); [done|lia|].
      rewrite length_app. simpl. lia.
Qed.

Lemma deref_out_of_range (h : heap) (n : ref) :
  length h ≤ n → deref h n = Node_init None [] None false false.
Proof. intros. unfold deref. by rewrite lookup_ge_None_2. Qed.

(** A write to one field leaves the other fields of every node alone. *)
Ltac frame :=
  unfold set_tag, set_attrs, set_children, set_text, set_parent;
  repeat first
    [ rewrite (deref_alter_frame tag) by done
    | rewrite (deref_alter_frame attrs) by done
    | rewrite (deref_alter_frame children) by done
    | rewrite (deref_alter_frame text) by done
    | rewrite (deref_alter_frame parent) by done
    | rewrite (deref_alter_frame is_doctype) by done
    | rewrite (deref_alter_frame is_comment) by done ].

Lemma children_set_children n cs h m :
  children (deref (set_children n cs h) m)
  = if decide (m = n ∧ n < length h) then cs else children (deref h m).
Proof. unfold set_children. rewrite deref_alter. by case_decide. Qed.

Lemma parent_set_parent n p h m :
  parent (deref (set_parent n p h) m)
  = if decide (m = n ∧ n < length h) then p else parent (deref h m).
Proof. unfold set_parent. rewrite deref_alter. by case_decide. Qed.

Lemma tag_set_tag n t h m :
  tag (deref (set_tag n t h) m)
  = if decide (m = n ∧ n < length h) then t else tag (deref h m).
Proof. unfold set_tag. rewrite deref_alter. by case_decide. Qed.

Lemma length_set_tag n t h : length (set_tag n t h) = length h.
Proof. apply length_alter. Qed.
Lemma length_set_attrs n a h : length (set_attrs n a h) = length h.
Proof. apply length_alter. Qed.
Lemma length_set_children n cs h : length (set_children n cs h) = length h.
Proof. apply length_alter. Qed.
Lemma length_set_text n t h : length (set_text n t h) = length h.
Proof. apply length_alter. Qed.
Lemma length_set_parent n p h : length (set_parent n p h) = length h.
Proof. apply length_alter. Qed.

(** [l] without the first occurrence of [x]. *)
Definition remove_first (x : ref) (l : list ref) : list ref :=
  match index_of x l with
  | Some index => delete index l
  | None => l
  end.

Lemma index_of_Some x l i :
  index_of x l = Some i → l !! i = Some x ∧ ∀ j, j < i → l !! j ≠ Some x.
Proof.
  revert i. induction l as [|y l IH]; intros i; simpl; [done|].
  case_decide as Hy.
  - intros [= <-]. subst y. split; [done|]. intros; lia.
  - destruct (index_of x l) as [i'|]; simpl; [|done].
    intros [= <-]. destruct (IH i' eq_refl) as [Hi Hlt].
    split; [done|]. intros [|j] Hj; simpl; [congruence|]. apply Hlt. lia.
Qed.

Lemma index_of_None x l : index_of x l = None ↔ x ∉ l.
Proof.
  induction l as [|y l IH]; simpl.
  - split; [intros _; apply not_elem_of_nil|done].
  - case_decide as Hy.
    + subst y. split; [done|]. intros Hn. destruct Hn. left.
    + rewrite not_elem_of_cons, <-IH.
      destruct (index_of x l); simpl; naive_solver.
Qed.

Lemma index_of_elem x l : x ∈ l → ∃ i, index_of x l = Some i.
Proof.
  intros Hx. destruct (index_of x l) as [i|] eqn:Hi; [eauto|].
  by apply index_of_None in Hi.
Qed.

Lemma length_Node_append self node h :
  length (Node_append self node h) = length h.
Proof. unfold Node_append. by rewrite length_set_children, length_set_parent. Qed.

Lemma length_Node_remove self node h :
  length (Node_remove self node h) = length h.
Proof.
  unfold Node_remove. destruct (index_of _ _); [|done].
  by rewrite length_set_parent, length_set_children.
Qed.

Lemma tag_Node_append self node h m :
  tag (deref (Node_append self node h) m) = tag (deref h m).
Proof. unfold Node_append. by frame. Qed.

Lemma tag_Node_remove self node h m :
  tag (deref (Node_remove self node h) m) = tag (deref h m).
Proof. unfold Node_remove. destruct (index_of _ _); [|done]. by frame. Qed.

Lemma children_Node_append self node h m :
  children (deref (Node_append self node h) m)
  = if decide (m = self ∧ self < length h)
    then children (deref h self) ++ [node]
    else children (deref h m).
Proof.
  unfold Node_append. rewrite children_set_children, length_set_parent.
  by frame.
Qed.

Lemma parent_Node_append self node h m :
  parent (deref (Node_append self node h) m)
  = if decide (m = node ∧ node < length h) then Some self
    else parent (deref h m).
Proof. unfold Node_append. frame. apply parent_set_parent. Qed.

Lemma children_Node_remove self node h m :
  children (deref (Node_remove self node h) m)
  = if decide (m = self ∧ self < length h)
    then remove_first node (children (deref h self))
    else children (deref h m).
Proof.
  unfold Node_remove, remove_first.
  destruct (index_of _ _) as [i|]; [|by case_decide as Hc; [destruct Hc as [-> _]|]].
  frame. apply children_set_children.
Qed.

Lemma parent_Node_remove self node h m :
  parent (deref (Node_remove self node h) m)
  = if decide (m = node ∧ node < length h ∧ node ∈ children (deref h self))
    then None else parent (deref h m).
Proof.
  unfold Node_remove.
  destruct (index_of _ _) as [i|] eqn:Hi.
  - rewrite parent_set_parent, length_set_children. frame.
    apply index_of_Some in Hi as [Hi%list_elem_of_lookup_2 _].
    repeat case_decide; naive_solver.
  - apply index_of_None in Hi. case_decide; naive_solver.
Qed.

(** ** Void elements (C8) *)

Definition is_void (nd : Node) : bool := tag_in (tag nd) VOID_ELEMENTS.

(** No node with a void tag has children. *)
Definition void_inv (h : heap) : Prop :=
  ∀ n, is_void (deref h n) = true → children (deref h n) = [].

Lemma void_inv_frame (h h' : heap) :
  (∀ m, tag (deref h' m) = tag (deref h m)) →
  (∀ m, children (deref h' m) = children (deref h m)) →
  void_inv h → void_inv h'.
Proof.
  intros Ht Hc Hinv n. unfold is_void. rewrite Ht, Hc. apply Hinv.
Qed.

Lemma void_inv_set_parent n p h : void_inv h → void_inv (set_parent n p h).
Proof. apply void_inv_frame; intros; by frame. Qed.

Lemma void_inv_set_text n t h : void_inv h → void_inv (set_text n t h).
Proof. apply void_inv_frame; intros; by frame. Qed.

Lemma void_inv_set_attrs n a h : void_inv h → void_inv (set_attrs n a h).
Proof. apply void_inv_frame; intros; by frame. Qed.

Lemma void_inv_set_tag n t h :
  tag_in t VOID_ELEMENTS = false → void_inv h → void_inv (set_tag n t h).
Proof.
  intros Ht Hinv m. unfold is_void. rewrite tag_set_tag.
  unfold set_tag. frame. case_decide; [congruence|apply Hinv].
Qed.

Lemma void_inv_set_children n cs h :
  cs = [] ∨ is_void (deref h n) = false →
  void_inv h → void_inv (set_children n cs h).
Proof.
  intros Hcs Hinv m. unfold is_void. rewrite children_set_children.
  unfold set_children. frame. case_decide as Hm; [|apply Hinv].
  destruct Hm as [-> _]. unfold is_void in Hcs. naive_solver congruence.
Qed.

Lemma void_inv_alloc nd h :
  children nd = [] → void_inv h → void_inv (alloc nd h).2.
Proof.
  intros Hnd Hinv m. unfold alloc. simpl. rewrite deref_app_one.
  case_decide; [done|apply Hinv].
Qed.

Lemma void_inv_Node_append self node h :
  is_void (deref h self) = false →
  void_inv h → void_inv (Node_append self node h).
Proof.
  intros Hself Hinv m. unfold is_void.
  rewrite tag_Node_append, children_Node_append.
  case_decide as Hm; [|apply Hinv].
  destruct Hm as [-> _]. unfold is_void in Hself. congruence.
Qed.

Lemma remove_first_nil x : remove_first x [] = [].
Proof. done. Qed.

Lemma void_inv_Node_remove self node h :
  void_inv h → void_inv (Node_remove self node h).
Proof.
  intros Hinv m. unfold is_void.
  rewrite tag_Node_remove, children_Node_remove.
  case_decide as Hm; [|apply Hinv].
  destruct Hm as [-> _]. intros Hv. by rewrite (Hinv self Hv).
Qed.

Lemma foldl_set_parent_frame {X} (proj : Node → X) p l h m :
  (∀ q nd, proj (with_parent q nd) = proj nd) →
  proj (deref (foldl (λ h child, set_parent child p h) h l) m)
  = proj (deref h m).
Proof.
  intros Hproj. revert h. induction l as [|c l IH]; intros h; simpl; [done|].
  rewrite IH. unfold set_parent. by rewrite (deref_alter_frame proj).
Qed.

Lemma length_foldl_set_parent p l h :
  length (foldl (λ h child, set_parent child p h) h l) = length h.
Proof.
  revert h. induction l as [|c l IH]; intros h; simpl; [done|].
  by rewrite IH, length_set_parent.
Qed.

Lemma void_inv_foldl_set_parent p l h :
  void_inv h → void_inv (foldl (λ h child, set_parent child p h) h l).
Proof.
  apply void_inv_frame; intros; by apply foldl_set_parent_frame.
Qed.

Lemma void_inv_unwrap node h h' :
  unwrap node h = Ok h' → void_inv h → void_inv h'.
Proof.
  unfold unwrap. intros Hun Hinv.
  destruct (parent (deref h node)) as [p|]; [|by inv_res; subst].
  destruct (index_of node (children (deref h p))) as [i|] eqn:Hi; [|done].
  inv_res. subst h'.
  assert (is_void (deref h p) = false) as Hp.
  { destruct (is_void (deref h p)) eqn:Hv; [|done].
    rewrite (Hinv p Hv) in Hi. done. }
  apply void_inv_set_parent, void_inv_set_children; [by left|].
  apply void_inv_set_children.
  { right. unfold is_void. rewrite foldl_set_parent_frame by done. by frame. }
  apply void_inv_foldl_set_parent, void_inv_set_children; [by right|done].
Qed.

Lemma void_inv_remove_node node h : void_inv h → void_inv (remove_node node h).
Proof.
  unfold remove_node. destruct (parent _); [|done]. apply void_inv_Node_remove.
Qed.

Lemma replace_cr_and_tab_frame {X} (proj : Node → X) child h m :
  (∀ t nd, proj (with_text t nd) = proj nd) →
  proj (deref (replace_cr_and_tab child h) m) = proj (deref h m).
Proof.
  intros Hproj. unfold replace_cr_and_tab, set_text.
  repeat case_match; rewrite ?(deref_alter_frame proj); done.
Qed.

Lemma length_replace_cr_and_tab child h :
  length (replace_cr_and_tab child h) = length h.
Proof.
  unfold replace_cr_and_tab. repeat case_match; by rewrite ?length_set_text.
Qed.

Lemma void_inv_replace_cr_and_tab child h :
  void_inv h → void_inv (replace_cr_and_tab child h).
Proof. apply void_inv_frame; intros; by apply replace_cr_and_tab_frame. Qed.

Lemma void_inv_remove_from_parent child h h' :
  remove_from_parent child h = Ok h' → void_inv h → void_inv h'.
Proof.
  unfold remove_from_parent, list_remove. intros Hrun Hinv.
  destruct (parent (deref h child)) as [p|]; [|by inv_res; subst].
  destruct (index_of child (children (deref h p))) as [i|] eqn:Hi; [|done].
  inv_res. subst. apply void_inv_set_children; [|done].
  right. destruct (is_void (deref h p)) eqn:Hv; [|done].
  rewrite (Hinv p Hv) in Hi. done.
Qed.

Lemma void_inv_clean_whitespace fuel node preserve h h' :
  clean_whitespace fuel node preserve h = Ok h' → void_inv h → void_inv h'.
Proof.
  revert node preserve h h'.
  induction fuel as [|fuel IH]; intros node preserve h h'; simpl; [done|].
  intros Hrun Hinv. revert Hrun. apply foldM_inv; [|done].
  clear h' Hinv. intros child t t' _ Hinv.
  destruct (tag (deref t child)); [by eauto|].
  destruct (preserve || _); [by intros [= <-]|].
  case_bool_decide.
  - intros Hrm. eapply void_inv_remove_from_parent; [done|].
    by apply void_inv_replace_cr_and_tab.
  - intros Hrec. eapply IH; [done|]. by apply void_inv_replace_cr_and_tab.
Qed.

Lemma traverse_Ok {A B} (f : A → res B) (l : list A) (ys : list B) :
  traverse f l = Ok ys ↔ Forall2 (λ x y, f x = Ok y) l ys.
Proof.
  revert ys. induction l as [|x l IH]; intros ys; simpl.
  - split; [intros [= <-]; constructor|by inversion 1].
  - split.
    + intros H. inv_res. subst ys. constructor; [done|by apply IH].
    + inversion 1 as [|? y ? ys' Hx Hl]; subst. rewrite Hx. simpl.
      apply IH in Hl. by rewrite Hl.
Qed.

Lemma elem_of_flatten {A} (x : A) (ls : list (list A)) :
  x ∈ flatten ls ↔ ∃ l, l ∈ ls ∧ x ∈ l.
Proof.
  unfold flatten. induction ls as [|l ls IH]; simpl.
  - split; [by intros ?%elem_of_nil|by intros (? & ?%elem_of_nil & _)].
  - rewrite elem_of_app, IH. setoid_rewrite elem_of_cons. naive_solver.
Qed.

(** What [iter_tags] yields: elements (nodes with a non-empty tag) that
    pass the name filter and are somebody's child. *)
Lemma iter_tags_elem fuel h names node l n :
  iter_tags fuel h names node = Ok l → n ∈ l →
  truthy (tag (deref h n)) = true
  ∧ (filter (λ name, name ≠ []) names = []
     ∨ tag_in (tag (deref h n)) (filter (λ name, name ≠ []) names) = true)
  ∧ ∃ p, n ∈ children (deref h p).
Proof.
  revert node l. induction fuel as [|fuel IH]; intros node l; simpl; [done|].
  intros Hrun Hn. inv_res. subst l.
  apply elem_of_flatten in Hn as (ys & Hys & Hn).
  apply traverse_Ok in Hr.
  apply list_elem_of_lookup in Hys as [i Hi].
  destruct (Forall2_lookup_r _ _ _ _ _ Hr Hi) as (child & Hchild & Hf).
  destruct (truthy (tag (deref h child))) eqn:Htruthy;
    [|inv_res; subst ys; by apply elem_of_nil in Hn].
  inv_res.
  destruct (bool_decide _ || tag_in _ _) eqn:Hpass; inv_res; subst ys.
  - apply elem_of_cons in Hn as [->|Hn]; [|by eapply IH].
    split_and!; [done| |].
    + apply orb_true_iff in Hpass as [Hp%bool_decide_eq_true|Hp]; auto.
    + exists node. by eapply list_elem_of_lookup_2.
  - by eapply IH.
Qed.

Lemma tag_in_singleton (t : option (list N)) (x : list N) :
  tag_in t [x] = true → t = Some x.
Proof.
  destruct t as [y|]; simpl; [|done]. unfold str_in.
  intros Hy%bool_decide_eq_true. apply list_elem_of_singleton in Hy. by subst.
Qed.

Lemma iter_tags_single_name fuel h name node l n :
  name ≠ [] →
  iter_tags fuel h [name] node = Ok l → n ∈ l → tag (deref h n) = Some name.
Proof.
  intros Hname Hrun Hn.
  destruct (iter_tags_elem _ _ _ _ _ _ Hrun Hn) as (_ & Hfilter & _).
  assert (filter (λ name : list N, name ≠ []) [name] = [name]) as Heq.
  { rewrite filter_cons. by case_decide. }
  rewrite Heq in Hfilter. destruct Hfilter as [?|Hin]; [done|].
  by apply tag_in_singleton.
Qed.

Lemma void_inv_wrappers_loop rounds fuel root st st' :
  remove_redundant_wrappers_loop rounds fuel root st = Ok st' →
  void_inv st.1 → void_inv st'.1.
Proof.
  revert st. induction rounds as [|rounds IH]; intros st; simpl; [done|].
  intros Hrun Hinv. inv_res. destruct (List.find _ _); inv_res; [|by subst].
  eapply IH; [done|]. simpl. by eapply void_inv_unwrap.
Qed.

Lemma void_inv_remove_empty_headings fuel root st st' :
  remove_empty_headings fuel root st = Ok st' →
  void_inv st.1 → void_inv st'.1.
Proof.
  unfold remove_empty_headings. intros Hrun Hinv. inv_res.
  revert Hrun. apply (foldM_inv (λ s, void_inv s.1)); [|done].
  intros heading t t' _ Ht Hbody. inv_res.
  case_bool_decide; inv_res; subst t'; [|done].
  by apply void_inv_remove_node.
Qed.

Lemma void_inv_remove_empty_italics fuel root st st' :
  remove_empty_italics fuel root st = Ok st' →
  void_inv st.1 → void_inv st'.1.
Proof.
  unfold remove_empty_italics. intros Hrun Hinv. inv_res.
  revert Hrun. apply (foldM_inv (λ s, void_inv s.1)); [|done].
  intros italic t t' _ Ht Hbody.
  destruct (attrs _); [|by inv_res; subst]. inv_res.
  repeat case_match; inv_res; subst t'; try done.
  by apply void_inv_remove_node.
Qed.

Lemma void_inv_add_alt_text fuel root st st' :
  add_alt_text fuel root st = Ok st' → void_inv st.1 → void_inv st'.1.
Proof.
  unfold add_alt_text. intros Hrun Hinv. inv_res.
  revert Hrun. apply (foldM_inv (λ s, void_inv s.1)); [|done].
  intros image t t' _ Ht Hbody.
  case_match; inv_res; subst t'; [|done]. by apply void_inv_set_attrs.
Qed.

Lemma void_inv_adjust_heading heading st :
  void_inv st.1 → void_inv (adjust_heading heading st).1.
Proof.
  intros Hinv. unfold adjust_heading.
  repeat case_match; simpl; try done; by apply void_inv_set_tag.
Qed.

Lemma void_inv_normalize_headings fuel root st st' :
  normalize_headings fuel root st = Ok st' → void_inv st.1 → void_inv st'.1.
Proof.
  unfold normalize_headings. intros Hrun Hinv. inv_res.
  destruct r as [|first rest]; inv_res; subst st'; [done|].
  match goal with |- void_inv (foldl _ ?s _).1 =>
    assert (void_inv s.1) as Hs;
    [|generalize dependent s; intros s0 Hs0] end.
  { case_bool_decide; [|done]. by apply void_inv_set_tag. }
  clear Hinv Hr. revert s0 Hs0.
  induction rest as [|x rest IH]; intros s0 Hs0; simpl; [done|].
  by apply IH, void_inv_adjust_heading.
Qed.

Lemma tagged_in_range (h : heap) (n : ref) :
  tag (deref h n) ≠ None → n < length h.
Proof.
  intros Ht. destruct (decide (n < length h)) as [|Hge]; [done|].
  rewrite deref_out_of_range in Ht by lia. done.
Qed.

Lemma not_void_main : tag_in (Some (lit "main")) VOID_ELEMENTS = false.
Proof. by vm_compute. Qed.
Lemma not_void_body : tag_in (Some (lit "body")) VOID_ELEMENTS = false.
Proof. by vm_compute. Qed.
Lemma not_void_footer : tag_in (Some (lit "footer")) VOID_ELEMENTS = false.
Proof. by vm_compute. Qed.
Lemma not_void_root : tag_in (Some (lit "root")) VOID_ELEMENTS = false.
Proof. by vm_compute. Qed.

Lemma tag_foldl_reparent main body l h m :
  tag (deref (foldl (λ h child, Node_append main child
                                  (Node_remove body child h)) h l) m)
  = tag (deref h m).
Proof.
  revert h. induction l as [|c l IH]; intros h; simpl; [done|].
  by rewrite IH, tag_Node_append, tag_Node_remove.
Qed.

Lemma void_inv_foldl_reparent main body l h :
  is_void (deref h main) = false →
  void_inv h →
  void_inv (foldl (λ h child, Node_append main child
                                (Node_remove body child h)) h l).
Proof.
  revert h. induction l as [|c l IH]; intros h Hmain Hinv; simpl; [done|].
  apply IH.
  - unfold is_void. by rewrite tag_Node_append, tag_Node_remove.
  - apply void_inv_Node_append; [|by apply void_inv_Node_remove].
    unfold is_void. by rewrite tag_Node_remove.
Qed.

Lemma wrap_body_in_main_tag body h m :
  m < length h →
  tag (deref (wrap_body_in_main body h).2 m) = tag (deref h m).
Proof.
  intros Hm. unfold wrap_body_in_main. simpl.
  rewrite tag_Node_append, tag_foldl_reparent, deref_app_one.
  case_decide; [lia|done].
Qed.

Lemma wrap_body_in_main_main body h :
  tag (deref (wrap_body_in_main body h).2 (wrap_body_in_main body h).1)
  = Some (lit "main").
Proof.
  unfold wrap_body_in_main. simpl.
  rewrite tag_Node_append, tag_foldl_reparent, deref_app_one.
  by case_decide.
Qed.

Lemma void_inv_wrap_body_in_main body h :
  tag (deref h body) = Some (lit "body") →
  void_inv h → void_inv (wrap_body_in_main body h).2.
Proof.
  intros Hbody Hinv. unfold wrap_body_in_main. simpl.
  assert (body < length h) as Hlt by (apply tagged_in_range; congruence).
  apply void_inv_Node_append.
  - unfold is_void. rewrite tag_foldl_reparent, deref_app_one.
    case_decide; [lia|]. rewrite Hbody. apply not_void_body.
  - apply void_inv_foldl_reparent.
    + unfold is_void. rewrite deref_app_one. by case_decide.
    + by apply (void_inv_alloc (Node_init _ _ _ _ _)).
Qed.

Lemma footer_of_main_footer main h :
  tag (deref (footer_of_main main h).2 (footer_of_main main h).1)
  = Some (lit "footer").
Proof.
  unfold footer_of_main.
  destruct (List.find _ _) as [footer|] eqn:Hfind; simpl.
  - apply find_some in Hfind as [_ Ht]. by apply bool_decide_eq_true in Ht.
  - rewrite tag_Node_append, deref_app_one. by case_decide.
Qed.

Lemma void_inv_footer_of_main main h :
  is_void (deref h main) = false →
  void_inv h → void_inv (footer_of_main main h).2.
Proof.
  intros Hmain Hinv. unfold footer_of_main.
  destruct (List.find _ _) as [footer|]; simpl; [done|].
  apply void_inv_Node_append; [|by apply (void_inv_alloc (Node_init _ _ _ _ _))].
  rewrite deref_app_one. case_decide; [|done].
  subst main. by rewrite deref_out_of_range in * by lia.
Qed.

Lemma tag_move_to_footer footer node st m :
  tag (deref (move_to_footer footer node st).1 m) = tag (deref st.1 m).
Proof.
  unfold move_to_footer. destruct (parent _); simpl; [|done].
  by rewrite tag_Node_append, tag_Node_remove.
Qed.

Lemma void_inv_move_to_footer footer node st :
  is_void (deref st.1 footer) = false →
  void_inv st.1 → void_inv (move_to_footer footer node st).1.
Proof.
  intros Hfooter Hinv. unfold move_to_footer.
  destruct (parent _); simpl; [|done].
  apply void_inv_Node_append; [|by apply void_inv_Node_remove].
  unfold is_void. by rewrite tag_Node_remove.
Qed.

Lemma void_inv_foldl_move_to_footer footer l st :
  is_void (deref st.1 footer) = false →
  void_inv st.1 →
  void_inv (foldl (λ st node, move_to_footer footer node st) st l).1.
Proof.
  revert st. induction l as [|c l IH]; intros st Hfooter Hinv; simpl; [done|].
  apply IH; [|by apply void_inv_move_to_footer].
  unfold is_void. by rewrite tag_move_to_footer.
Qed.

Lemma main_for_footer_Some fuel root h main h' :
  main_for_footer fuel root h = Ok (Some (main, h')) →
  tag (deref h' main) = Some (lit "main")
  ∧ (void_inv h → void_inv h').
Proof.
  unfold main_for_footer. intros Hrun.
  apply bind_Ok in Hrun as (mains & Hmains & Hrun).
  destruct mains as [|m mains].
  - apply bind_Ok in Hrun as (bodies & Hbodies & Hrun).
    destruct bodies as [|body bodies]; [done|].
    assert (wrap_body_in_main body h = (main, h')) as Heq by congruence.
    clear Hrun.
    assert (tag (deref h body) = Some (lit "body")) as Hbody.
    { eapply iter_tags_single_name; [|done|left]. done. }
    pose proof (wrap_body_in_main_main body h) as Hm.
    pose proof (void_inv_wrap_body_in_main body h Hbody) as Hv.
    rewrite Heq in Hm, Hv. done.
  - injection Hrun as <- <-. split; [|done].
    eapply iter_tags_single_name; [|done|left]. done.
Qed.

Lemma void_inv_move_footer_elements fuel root st st' :
  move_footer_elements fuel root st = Ok st' →
  void_inv st.1 → void_inv st'.1.
Proof.
  unfold move_footer_elements. intros Hrun Hinv.
  apply bind_Ok in Hrun as (all & Hall & Hrun).
  apply bind_Ok in Hrun as (cands & Hcands & Hrun).
  destruct cands as [|c cands]; [by inv_res; subst|].
  apply bind_Ok in Hrun as (outer & Houter & Hrun).
  apply bind_Ok in Hrun as (target & Htarget & Hrun).
  destruct target as [[main h]|]; [|by inv_res; subst].
  apply main_for_footer_Some in Htarget as [Hmain Hh].
  pose proof (footer_of_main_footer main h) as Hfooter.
  pose proof (void_inv_footer_of_main main h) as Hvoid.
  destruct (footer_of_main main h) as [footer h'']. simpl in *.
  inv_res. subst st'.
  apply void_inv_foldl_move_to_footer; simpl.
  - unfold is_void. rewrite Hfooter. apply not_void_footer.
  - apply Hvoid; [|by apply Hh]. unfold is_void. rewrite Hmain.
    apply not_void_main.
Qed.

Lemma void_inv_normalize fuel root st st' :
  normalize fuel root st = Ok st' → void_inv st.1 → void_inv st'.1.
Proof.
  unfold normalize, remove_redundant_wrappers, ensure_matching_sections.
  intros Hrun Hinv. inv_res. subst st'. simpl.
  eapply void_inv_clean_whitespace; [done|].
  eapply void_inv_move_footer_elements; [done|].
  eapply void_inv_normalize_headings; [done|].
  eapply void_inv_add_alt_text; [done|].
  eapply void_inv_remove_empty_italics; [done|].
  eapply void_inv_remove_empty_headings; [done|].
  by eapply void_inv_wrappers_loop.
Qed.

(** The builder keeps void elements off the stack, so nothing is ever
    appended to one. *)
Definition builder_void_inv (b : DOMBuilder) : Prop :=
  void_inv (mem b)
  ∧ Forall (λ n, n < length (mem b) ∧ is_void (deref (mem b) n) = false)
           (stack b).

Lemma append_to_top_Ok nd b node b' :
  append_to_top nd b = Ok (node, b') →
  ∃ top, list.last (stack b) = Some top
    ∧ node = length (mem b)
    ∧ mem b' = Node_append top node (mem b ++ [nd])
    ∧ root b' = root b ∧ stack b' = stack b.
Proof.
  unfold append_to_top, stack_top. simpl.
  destruct (list.last (stack b)) as [top|]; simpl; [|done].
  intros [= <- <-]. by exists top.
Qed.

Lemma builder_void_inv_append nd b node b' :
  children nd = [] →
  append_to_top nd b = Ok (node, b') →
  builder_void_inv b →
  builder_void_inv b'
  ∧ node < length (mem b') ∧ tag (deref (mem b') node) = tag nd.
Proof.
  intros Hnd (top & Htop & -> & Hmem & _ & Hstack)%append_to_top_Ok [Hinv Hst].
  assert (top < length (mem b) ∧ is_void (deref (mem b) top) = false)
    as [Hlt Hvoid].
  { apply last_Some_elem_of in Htop.
    by apply (proj1 (Forall_forall _ _) Hst). }
  unfold builder_void_inv. rewrite Hmem, Hstack.
  rewrite length_Node_append, length_app. simpl. split_and!.
  - apply void_inv_Node_append; [|by apply (void_inv_alloc nd)].
    rewrite deref_app_one. case_decide; [lia|done].
  - eapply Forall_impl; [done|]. simpl. intros n [Hn Hv]. split; [lia|].
    unfold is_void. rewrite tag_Node_append, deref_app_one.
    case_decide; [lia|exact Hv].
  - lia.
  - rewrite tag_Node_append, deref_app_one. by case_decide.
Qed.

Lemma builder_void_inv_init : builder_void_inv DOMBuilder_init.
Proof.
  split.
  - intros [|n]; [done|]. unfold DOMBuilder_init. simpl.
    by rewrite deref_out_of_range by (simpl; lia).
  - repeat constructor.
Qed.

Lemma builder_void_inv_handle e b b' :
  handle e b = Ok b' → builder_void_inv b → builder_void_inv b'.
Proof.
  destruct e as [tg ats|tg ats|tg|d|d|d|d|d]; simpl.
  - unfold handle_starttag. intros Hrun Hinv.
    apply bind_Ok in Hrun as ([node b1] & Happ & Hrun).
    eapply builder_void_inv_append in Happ as ([Hv Hst] & Hlt & Htag);
      [|done|done].
    destruct (str_in tg VOID_ELEMENTS) eqn:Hvoid; inv_res; subst b'; [done|].
    split; [done|]. simpl. apply Forall_app. split; [done|].
    repeat constructor; [done|]. unfold is_void. by rewrite Htag.
  - unfold handle_startendtag. intros Hrun Hinv.
    apply bind_Ok in Hrun as ([node b1] & Happ & Hrun). inv_res. subst b'.
    by eapply builder_void_inv_append in Happ as [? _].
  - intros [= <-] [Hv Hst]. split; [done|]. simpl.
    clear Hv. generalize (length (stack b) - 1). intros k.
    induction k as [|k IH]; simpl; [done|].
    case_decide; [by apply Forall_take|done].
  - unfold handle_data. destruct d; [by intros [= <-]|].
    intros Hrun Hinv.
    apply bind_Ok in Hrun as ([node b1] & Happ & Hrun). inv_res. subst b'.
    by eapply builder_void_inv_append in Happ as [? _].
  - unfold handle_comment. intros Hrun Hinv.
    apply bind_Ok in Hrun as ([node b1] & Happ & Hrun). inv_res. subst b'.
    by eapply builder_void_inv_append in Happ as [? _].
  - unfold handle_decl. intros Hrun Hinv.
    apply bind_Ok in Hrun as ([node b1] & Happ & Hrun). inv_res. subst b'.
    by eapply builder_void_inv_append in Happ as [? _].
  - by intros [= <-].
  - by intros [= <-].
Qed.

Lemma void_inv_parse_html evs root h :
  parse_html evs = Ok (root, h) → void_inv h.
Proof.
  unfold parse_html. intros Hrun.
  apply bind_Ok in Hrun as (b & Hb & [= _ <-]).
  enough (builder_void_inv b) as [? _] by done.
  revert Hb. apply foldM_inv; [|apply builder_void_inv_init].
  intros e t t' _ Ht He. by eapply builder_void_inv_handle.
Qed.

(** C8. No element with a void tag has children: in every tree the
    builder returns, after each rewrite pass run on a tree where it holds,
    and so after normalization of every parsed document. *)
Theorem void_elements_have_no_children :
  (∀ evs root h, parse_html evs = Ok (root, h) → void_inv h)
  ∧ (∀ pass, pass ∈ [remove_redundant_wrappers; remove_empty_headings;
                     remove_empty_italics; add_alt_text; normalize_headings;
                     move_footer_elements; whitespace_pass] →
       ∀ fuel root st st',
         void_inv st.1 → pass fuel root st = Ok st' → void_inv st'.1)
  ∧ (∀ evs fuel root h st',
       parse_html evs = Ok (root, h) →
       normalize fuel root (h, no_stats) = Ok st' →
       void_inv st'.1).
Proof.
  split_and!.
  - apply void_inv_parse_html.
  - intros pass Hpass fuel root st st' Hinv Hrun.
    repeat (apply elem_of_cons in Hpass as [->|Hpass]).
    + by eapply void_inv_wrappers_loop.
    + by eapply void_inv_remove_empty_headings.
    + by eapply void_inv_remove_empty_italics.
    + by eapply void_inv_add_alt_text.
    + by eapply void_inv_normalize_headings.
    + by eapply void_inv_move_footer_elements.
    + unfold whitespace_pass, ensure_matching_sections in Hrun.
      inv_res. subst st'. by eapply void_inv_clean_whitespace.
    + by apply elem_of_nil in Hpass.
  - intros evs fuel root h st' Hparse Hrun.
    eapply void_inv_normalize; [done|]. by eapply void_inv_parse_html.
Qed.

(** [<body><p>a<br>b</p><img src=x><div><div><hr></div></div></body>]:
    the [br], [img] and [hr] nodes are void and childless after
    normalization. *)
Lemma void_elements_have_no_children_witness :
  let evs := [StartTag (lit "body") []; StartTag (lit "p") [];
              Data (lit "a"); StartTag (lit "br") []; Data (lit "b");
              EndTag (lit "p");
              StartTag (lit "img") [(lit "src", Some (lit "x"))];
              StartTag (lit "div") []; StartTag (lit "div") [];
              StartEndTag (lit "hr") []] in
  ∃ h st', parse_html evs = Ok (0, h)
    ∧ normalize 8 0 (h, no_stats) = Ok st'
    ∧ void_inv h ∧ void_inv st'.1
    ∧ is_void (deref st'.1 4) = true ∧ is_void (deref st'.1 6) = true
    ∧ is_void (deref st'.1 9) = true.
Proof.
  eexists _, _.
  match goal with |- ?A ∧ _ => assert A as Hparse by (vm_compute; reflexivity) end.
  split; [exact Hparse|].
  match goal with |- ?A ∧ _ => assert A as Hrun by (vm_compute; reflexivity) end.
  split; [exact Hrun|].
  destruct void_elements_have_no_children as (Hbuild & _ & Hnorm).
  split; [exact (Hbuild _ _ _ Hparse)|].
  split; [exact (Hnorm _ _ _ _ _ Hparse Hrun)|].
  clear. vm_compute. repeat split.
Defined.

(** ** Heading levels *)

(** What the loop over [headings[1:]] makes of a tag. *)
Definition demoted (t : option (list N)) : option (list N) :=
  if bool_decide (t = Some (lit "h1")) then Some (lit "h2")
  else if tag_in t [lit "h4"; lit "h5"; lit "h6"] then Some (lit "h3")
  else t.

(** [h'] is [h] with some headings given another heading level. *)
Definition retagged (h h' : heap) : Prop :=
  length h' = length h
  ∧ ∀ n, children (deref h' n) = children (deref h n)
       ∧ text (deref h' n) = text (deref h n)
       ∧ attrs (deref h' n) = attrs (deref h n)
       ∧ parent (deref h' n) = parent (deref h n)
       ∧ is_comment (deref h' n) = is_comment (deref h n)
       ∧ is_doctype (deref h' n) = is_doctype (deref h n)
       ∧ (tag (deref h' n) = tag (deref h n)
          ∨ tag_in (tag (deref h n)) HEADING_TAGS = true
            ∧ tag_in (tag (deref h' n)) HEADING_TAGS = true).

Lemma retagged_refl h : retagged h h.
Proof. split; [done|]. intros n. split_and!; auto. Qed.

Lemma retagged_trans h1 h2 h3 :
  retagged h1 h2 → retagged h2 h3 → retagged h1 h3.
Proof.
  intros [Hl1 H1] [Hl2 H2]. split; [congruence|]. intros n.
  destruct (H1 n) as (?&?&?&?&?&?&Ht1), (H2 n) as (?&?&?&?&?&?&Ht2).
  split_and!; try congruence.
  destruct Ht1 as [Ht1|[? ?]], Ht2 as [Ht2|[? ?]]; [left|right..];
    split_and?; congruence.
Qed.

Lemma retagged_set_tag n t h :
  tag_in (tag (deref h n)) HEADING_TAGS = true →
  tag_in t HEADING_TAGS = true →
  retagged h (set_tag n t h).
Proof.
  intros Hold Hnew. split; [apply length_set_tag|]. intros m.
  rewrite tag_set_tag. unfold set_tag. frame. split_and!; try done.
  case_decide as Hm; [|by left]. destruct Hm as [-> _]. by right.
Qed.

Lemma tag_in_heading_truthy t :
  tag_in t HEADING_TAGS = true → truthy t = true ∧ t ≠ None.
Proof.
  destruct t as [x|]; [|done]. simpl. unfold str_in.
  intros Hx%bool_decide_eq_true. split; [|done].
  unfold HEADING_TAGS in Hx. simpl in Hx.
  repeat (apply elem_of_cons in Hx as [->|Hx]; [done|]).
  by apply elem_of_nil in Hx.
Qed.

Lemma retagged_truthy h h' n :
  retagged h h' → truthy (tag (deref h' n)) = truthy (tag (deref h n)).
Proof.
  intros [_ Hr]. destruct (Hr n) as (_&_&_&_&_&_&[->|[H1 H2]]); [done|].
  apply tag_in_heading_truthy in H1 as [-> _].
  by apply tag_in_heading_truthy in H2 as [-> _].
Qed.

Lemma retagged_tag_None h h' n :
  retagged h h' → tag (deref h' n) = None ↔ tag (deref h n) = None.
Proof.
  intros [_ Hr]. destruct (Hr n) as (_&_&_&_&_&_&[->|[H1 H2]]); [done|].
  apply tag_in_heading_truthy in H1 as [_ ?].
  apply tag_in_heading_truthy in H2 as [_ ?]. naive_solver.
Qed.

Lemma retagged_heading h h' n :
  retagged h h' →
  tag_in (tag (deref h' n)) HEADING_TAGS
  = tag_in (tag (deref h n)) HEADING_TAGS.
Proof.
  intros [_ Hr]. destruct (Hr n) as (_&_&_&_&_&_&[->|[H1 H2]]); congruence.
Qed.

Lemma traverse_ext {A B} (f g : A → res B) (l : list A) :
  (∀ x, x ∈ l → f x = g x) → traverse f l = traverse g l.
Proof.
  induction l as [|x l IH]; intros Hfg; simpl; [done|].
  rewrite (Hfg x) by left. rewrite IH; [done|].
  intros y Hy. apply Hfg. by right.
Qed.

Lemma heading_filter :
  filter (λ name : list N, name ≠ []) HEADING_TAGS = HEADING_TAGS.
Proof. by vm_compute. Qed.

Lemma iter_tags_retagged fuel h h' node :
  retagged h h' →
  iter_tags fuel h' HEADING_TAGS node = iter_tags fuel h HEADING_TAGS node.
Proof.
  intros Hr. revert node.
  induction fuel as [|fuel IH]; intros node; simpl; [done|].
  destruct (Hr) as [_ Hf]. destruct (Hf node) as (-> & _).
  match goal with |- _ <$> traverse ?f ?l = _ <$> traverse ?g ?l =>
    rewrite (traverse_ext f g l); [done|] end.
  intros child _.
  rewrite (retagged_truthy h h') by done. destruct (truthy _); [|done].
  rewrite IH. rewrite heading_filter.
  by rewrite (retagged_heading h h').
Qed.

Lemma get_text_retagged fuel h h' node :
  retagged h h' → get_text fuel h' node = get_text fuel h node.
Proof.
  intros Hr. revert node.
  induction fuel as [|fuel IH]; intros node; simpl; [done|].
  pose proof (retagged_tag_None h h' node Hr) as Hnone.
  destruct Hr as [_ Hf].
  destruct (Hf node) as (-> & -> & _ & _ & -> & -> & _).
  destruct (tag (deref h' node)), (tag (deref h node)).
  - destruct (_ || _); [done|].
    by rewrite (traverse_ext (get_text fuel h') (get_text fuel h)).
  - discriminate (proj2 Hnone eq_refl).
  - discriminate (proj1 Hnone eq_refl).
  - done.
Qed.

Lemma text_headings_retagged fuel h h' root :
  retagged h h' → text_headings fuel h' root = text_headings fuel h root.
Proof.
  intros Hr. unfold text_headings. rewrite (iter_tags_retagged _ h h') by done.
  destruct (iter_tags fuel h HEADING_TAGS root) as [all| |]; simpl; [|done..].
  rewrite (traverse_ext (get_text fuel h') (get_text fuel h)); [done|].
  intros. by apply get_text_retagged.
Qed.

Lemma text_headings_elem fuel h root hs n :
  text_headings fuel h root = Ok hs → n ∈ hs →
  tag_in (tag (deref h n)) HEADING_TAGS = true.
Proof.
  unfold text_headings. intros Hrun Hn.
  apply bind_Ok in Hrun as (all & Hall & Hrun).
  apply bind_Ok in Hrun as (texts & Htexts & [= <-]).
  apply list_elem_of_fmap in Hn as ([n' t] & -> & Hin).
  apply list_elem_of_filter in Hin as [_ Hin]. apply elem_of_zip_l in Hin.
  destruct (iter_tags_elem _ _ _ _ _ _ Hall Hin) as (_ & Hfilter & _).
  rewrite heading_filter in Hfilter. by destruct Hfilter.
Qed.


Lemma adjust_heading_tag heading st n :
  heading < length st.1 →
  tag (deref (adjust_heading heading st).1 n)
  = if decide (n = heading) then demoted (tag (deref st.1 heading))
    else tag (deref st.1 n).
Proof.
  intros Hlt. unfold adjust_heading, demoted.
  destruct (bool_decide (tag (deref st.1 heading) = Some (lit "h1")));
    [|destruct (tag_in (tag (deref st.1 heading)) _)];
    case_bool_decide; simpl; rewrite ?tag_set_tag;
    repeat case_decide; naive_solver.
Qed.

Lemma adjust_heading_retagged heading st :
  tag_in (tag (deref st.1 heading)) HEADING_TAGS = true →
  retagged st.1 (adjust_heading heading st).1.
Proof.
  intros Hh. unfold adjust_heading.
  destruct (bool_decide (tag (deref st.1 heading) = Some (lit "h1")));
    [|destruct (tag_in (tag (deref st.1 heading))
                 [lit "h4"; lit "h5"; lit "h6"])];
    case_bool_decide; simpl;
    first [apply retagged_refl
          | apply retagged_set_tag; [exact Hh|by vm_compute]].
Qed.

Lemma foldl_adjust_heading l st :
  NoDup l →
  (∀ x, x ∈ l → tag_in (tag (deref st.1 x)) HEADING_TAGS = true) →
  retagged st.1 (foldl (λ st heading, adjust_heading heading st) st l).1
  ∧ ∀ n, tag (deref (foldl (λ st heading, adjust_heading heading st) st l).1 n)
         = if decide (n ∈ l) then demoted (tag (deref st.1 n))
           else tag (deref st.1 n).
Proof.
  revert st. induction l as [|x l IH]; intros st Hnodup Hl; cbn [foldl].
  - split; [apply retagged_refl|]. intros n.
    rewrite decide_False; [done|apply not_elem_of_nil].
  - apply NoDup_cons in Hnodup as [Hx Hnodup].
    assert (tag_in (tag (deref st.1 x)) HEADING_TAGS = true) as Hxh
      by (apply Hl; left).
    pose proof (adjust_heading_retagged x st Hxh) as Hr.
    assert (x < length st.1) as Hlt.
    { apply tagged_in_range. by apply tag_in_heading_truthy in Hxh as [_ ?]. }
    destruct (IH (adjust_heading x st) Hnodup) as [Hr' Htag].
    { intros y Hy. rewrite (retagged_heading st.1) by done. apply Hl. by right. }
    split; [by eapply retagged_trans|]. intros n.
    rewrite Htag, !adjust_heading_tag by done.
    repeat case_decide; subst; try done.
    + rename select (_ ∉ x :: l) into Hn. destruct Hn. by right.
    + rename select (x ∉ x :: l) into Hn. destruct Hn. by left.
    + rename select (_ ∈ x :: l) into Hn.
      apply elem_of_cons in Hn as [?|?]; done.
Qed.

Lemma filter_none {A} (P : A → Prop) `{!∀ x, Decision (P x)} (l : list A) :
  (∀ x, x ∈ l → ¬ P x) → filter P l = [].
Proof.
  induction l as [|x l IH]; intros Hl; [done|].
  rewrite filter_cons, decide_False by (apply Hl; left).
  apply IH. intros y Hy. apply Hl. by right.
Qed.



(** C6, at [<h1><!--c--></h1><h4>Real</h4>].  The [h1] holds a comment and
    nothing else, so its text content is empty; the one heading with text
    is the [h4].  By the claim the [h4] is the first heading with text and
    becomes the [h1].  [normalize_headings] counts the comment as text of
    the [h1]: it takes the [h1] for the first heading, leaves it, and makes
    the [h4] an [h3]; one adjustment is counted. *)
Theorem normalize_headings_counts_comments_as_text :
  let evs := [StartTag (lit "h1") []; Comment (lit "c"); EndTag (lit "h1");
              StartTag (lit "h4") []; Data (lit "Real");
              EndTag (lit "h4")] in
  ∃ h st', parse_html evs = Ok (0, h)
    ∧ tag (deref h 1) = Some (lit "h1")
    ∧ children (deref h 1) = [2]
    ∧ is_comment (deref h 2) = true
    ∧ tag (deref h 3) = Some (lit "h4")
    ∧ children (deref h 3) = [4]
    ∧ tag (deref h 4) = None
    ∧ is_comment (deref h 4) = false
    ∧ text (deref h 4) = Some (lit "Real")
    ∧ text_headings 3 h 0 = Ok [1; 3]
    ∧ normalize_headings 3 0 (h, no_stats) = Ok st'
    ∧ tag (deref st'.1 1) = Some (lit "h1")
    ∧ tag (deref st'.1 3) = Some (lit "h3")
    ∧ headings_adjusted st'.2 = 1.
Proof.
  eexists _, _. split; [vm_compute; reflexivity|].
  split_and!; vm_compute; reflexivity.
Qed.

(** ** Footer containment *)

(** Every child points back at its parent. *)
Definition parents_ok (h : heap) : Prop :=
  ∀ p c, c ∈ children (deref h p) → parent (deref h c) = Some p.


Lemma length_move_to_footer footer x st :
  length (move_to_footer footer x st).1 = length st.1.
Proof.
  unfold move_to_footer. destruct (parent _); simpl; [|done].
  by rewrite length_Node_append, length_Node_remove.
Qed.





Lemma length_foldl_reparent main body l h :
  length (foldl (λ h child, Node_append main child
                              (Node_remove body child h)) h l) = length h.
Proof.
  revert h. induction l as [|c l IH]; intros h; simpl; [done|].
  by rewrite IH, length_Node_append, length_Node_remove.
Qed.



Lemma filterM_elem {A} (keep : A → res bool) (l r : list A) (x : A) :
  filterM keep l = Ok r → x ∈ r → x ∈ l.
Proof.
  revert r. induction l as [|y l IH]; intros r; simpl.
  - by intros [= <-].
  - intros Hrun Hx.
    apply bind_Ok in Hrun as (b & _ & Hrun).
    apply bind_Ok in Hrun as (ys & Hys & [= <-]).
    destruct b; [apply elem_of_cons in Hx as [->|Hx]|];
      first [by left | right; by eapply IH].
Qed.

(** [main_for_footer] finds nothing exactly when the tree has neither a
    [main] nor a [body] element. *)
Lemma main_for_footer_None fuel root h :
  main_for_footer fuel root h = Ok None
  ↔ iter_tags fuel h [lit "main"] root = Ok []
    ∧ iter_tags fuel h [lit "body"] root = Ok [].
Proof.
  unfold main_for_footer. split.
  - intros Hrun. apply bind_Ok in Hrun as ([|m ms] & Hmains & Hrun); [|done].
    apply bind_Ok in Hrun as ([|b bs] & Hbodies & Hrun); done.
  - intros [-> ->]. done.
Qed.

(** ** Well-formed trees *)

(** What the builder makes and every pass keeps: children point back at
    their parent, no node is listed twice under a parent, children are
    live references, and the root is nobody's child.  Nodes cut loose from
    the tree may stay in the arena; they are constrained in the same way. *)
Record wf (root : ref) (h : heap) : Prop := mk_wf {
  wf_parents : parents_ok h;
  wf_nodup : ∀ p, NoDup (children (deref h p));
  wf_range : ∀ p c, c ∈ children (deref h p) → c < length h;
  wf_root : parent (deref h root) = None;
  wf_root_range : root < length h;
}.

(** [n] is in no list of children. *)
Definition detached (h : heap) (n : ref) : Prop :=
  ∀ p, n ∉ children (deref h p).

Lemma wf_root_detached root h : wf root h → detached h root.
Proof.
  intros Hwf p Hin. apply (wf_parents _ _ Hwf) in Hin.
  by rewrite (wf_root _ _ Hwf) in Hin.
Qed.

Lemma wf_frame root h h' :
  length h' = length h →
  (∀ m, children (deref h' m) = children (deref h m)) →
  (∀ m, parent (deref h' m) = parent (deref h m)) →
  wf root h → wf root h'.
Proof.
  intros Hlen Hc Hp [H1 H2 H3 H4 H5]. split.
  - intros p c. rewrite Hc, Hp. apply H1.
  - intros p. rewrite Hc. apply H2.
  - intros p c. rewrite Hc, Hlen. apply H3.
  - by rewrite Hp.
  - by rewrite Hlen.
Qed.

Lemma wf_set_tag root n t h : wf root h → wf root (set_tag n t h).
Proof. apply wf_frame; [apply length_set_tag|intros; by frame..]. Qed.

Lemma wf_set_attrs root n a h : wf root h → wf root (set_attrs n a h).
Proof. apply wf_frame; [apply length_set_attrs|intros; by frame..]. Qed.

Lemma wf_set_text root n t h : wf root h → wf root (set_text n t h).
Proof. apply wf_frame; [apply length_set_text|intros; by frame..]. Qed.

Lemma wf_replace_cr_and_tab root child h :
  wf root h → wf root (replace_cr_and_tab child h).
Proof.
  apply wf_frame; [apply length_replace_cr_and_tab|
                   intros; by apply replace_cr_and_tab_frame..].
Qed.

Lemma children_in_range h p :
  children (deref h p) ≠ [] → p < length h.
Proof.
  intros Hc. destruct (decide (p < length h)); [done|].
  by rewrite deref_out_of_range in Hc by lia.
Qed.

Lemma wf_alloc root nd h :
  children nd = [] →
  wf root h →
  wf root (alloc nd h).2 ∧ detached (alloc nd h).2 (alloc nd h).1.
Proof.
  intros Hnd [H1 H2 H3 H4 H5]. unfold alloc. simpl.
  assert (∀ p, children (deref (h ++ [nd]) p) = children (deref h p)) as Hc.
  { intros p. rewrite deref_app_one. case_decide; [|done]. subst.
    by rewrite Hnd, deref_out_of_range. }
  split; [split|].
  - intros p c. rewrite Hc. intros Hin. rewrite deref_app_one.
    case_decide; [|by apply H1]. apply H3 in Hin. lia.
  - intros p. rewrite Hc. apply H2.
  - intros p c. rewrite Hc, length_app. intros ?%H3. lia.
  - rewrite deref_app_one. case_decide; [lia|done].
  - rewrite length_app. lia.
  - intros p. rewrite Hc. intros ?%H3. lia.
Qed.

Lemma remove_first_cons x y l :
  remove_first x (y :: l)
  = if decide (y = x) then l else y :: remove_first x l.
Proof.
  unfold remove_first. simpl. case_decide; [done|].
  by destruct (index_of x l).
Qed.

Lemma elem_of_remove_first x y l :
  NoDup l → y ∈ remove_first x l ↔ y ∈ l ∧ y ≠ x.
Proof.
  induction l as [|z l IH]; intros Hnd.
  - rewrite remove_first_nil. split; [by intros ?%elem_of_nil|].
    by intros [?%elem_of_nil _].
  - apply NoDup_cons in Hnd as [Hz Hnd]. rewrite remove_first_cons.
    case_decide as Hzx.
    + subst z. rewrite elem_of_cons. naive_solver.
    + rewrite !elem_of_cons, IH by done. naive_solver.
Qed.

Lemma NoDup_remove_first x l : NoDup l → NoDup (remove_first x l).
Proof.
  induction l as [|z l IH]; intros Hnd; [done|].
  apply NoDup_cons in Hnd as [Hz Hnd]. rewrite remove_first_cons.
  case_decide; [done|]. apply NoDup_cons. split; [|by apply IH].
  rewrite elem_of_remove_first by done. naive_solver.
Qed.

Lemma wf_Node_remove root self node h :
  wf root h → wf root (Node_remove self node h).
Proof.
  intros [H1 H2 H3 H4 H5].
  assert (∀ p c, c ∈ children (deref (Node_remove self node h) p) →
            c ∈ children (deref h p)
            ∧ ¬ (p = self ∧ c = node)) as Hsub.
  { intros p c. rewrite children_Node_remove.
    destruct (decide (p = self ∧ self < length h)) as [Hp|Hp].
    - destruct Hp as [-> _]. rewrite elem_of_remove_first by done. naive_solver.
    - intros Hin. split; [done|]. intros [-> ->]. apply Hp. split; [done|].
      apply children_in_range. by destruct Hin. }
  split.
  - intros p c Hin. destruct (Hsub _ _ Hin) as [Hin' Hne].
    rewrite parent_Node_remove. case_decide as Hc; [|by apply H1].
    destruct Hc as (-> & _ & Hself). apply H1 in Hin', Hself. naive_solver.
  - intros p. rewrite children_Node_remove. case_decide; [|done].
    by apply NoDup_remove_first.
  - intros p c Hin. rewrite length_Node_remove.
    destruct (Hsub _ _ Hin) as [Hin' _]. by eapply H3.
  - rewrite parent_Node_remove. by case_decide.
  - by rewrite length_Node_remove.
Qed.

Lemma detached_Node_remove root p node h :
  wf root h → parent (deref h node) = Some p →
  detached (Node_remove p node h) node.
Proof.
  intros [H1 H2 H3 H4 H5] Hp q. rewrite children_Node_remove.
  case_decide as Hq.
  - destruct Hq as [-> _]. rewrite elem_of_remove_first by done. naive_solver.
  - intros Hin. pose proof (H1 _ _ Hin) as Hq'.
    assert (q = p) as -> by congruence.
    destruct Hq. split; [done|]. apply children_in_range. by destruct Hin.
Qed.

Lemma wf_Node_append root self node h :
  wf root h → detached h node → node < length h → node ≠ root →
  wf root (Node_append self node h).
Proof.
  intros [H1 H2 H3 H4 H5] Hdet Hlt Hne.
  assert (∀ p c, c ∈ children (deref (Node_append self node h) p) →
            c ∈ children (deref h p) ∨ (p = self ∧ c = node)) as Hsub.
  { intros p c. rewrite children_Node_append.
    destruct (decide (p = self ∧ self < length h)) as [Hp|Hp]; [|auto].
    destruct Hp as [-> _]. rewrite elem_of_app, list_elem_of_singleton.
    naive_solver. }
  split.
  - intros p c Hin. rewrite parent_Node_append.
    destruct (Hsub _ _ Hin) as [Hin'|[-> ->]].
    + rewrite decide_False; [by apply H1|]. intros [-> _]. by eapply Hdet.
    + by rewrite decide_True.
  - intros p. rewrite children_Node_append. case_decide; [|done].
    apply NoDup_app. split_and!; [done| |apply NoDup_singleton].
    intros x Hx ->%list_elem_of_singleton. by eapply Hdet.
  - intros p c Hin. rewrite length_Node_append.
    destruct (Hsub _ _ Hin) as [Hin'|[-> ->]]; [by eapply H3|done].
  - rewrite parent_Node_append. by rewrite decide_False by naive_solver.
  - by rewrite length_Node_append.
Qed.

(** ** The handlers of the builder never fail *)

(** The stack is never empty and holds live references; the arena is a
    well-formed tree. *)
Definition builder_wf (b : DOMBuilder) : Prop :=
  wf (root b) (mem b)
  ∧ stack b ≠ []
  ∧ Forall (λ n, n < length (mem b)) (stack b).

Lemma builder_wf_init : builder_wf DOMBuilder_init.
Proof.
  unfold DOMBuilder_init. simpl. split_and!; [split|done|];
    try (simpl; lia).
  - intros [|p] c; simpl; by intros ?%elem_of_nil.
  - intros [|p]; simpl; apply NoDup_nil_2.
  - intros [|p] c; simpl; by intros ?%elem_of_nil.
  - done.
  - repeat constructor.
Qed.

Lemma append_to_top_total nd b :
  children nd = [] →
  builder_wf b →
  ∃ node b', append_to_top nd b = Ok (node, b')
    ∧ builder_wf b' ∧ root b' = root b ∧ stack b' = stack b
    ∧ node = length (mem b) ∧ length (mem b') = S (length (mem b)).
Proof.
  intros Hnd (Hwf & Hne & Hst).
  unfold append_to_top, stack_top. simpl.
  destruct (list.last (stack b)) as [top|] eqn:Htop;
    [|by apply last_None in Htop].
  simpl. eexists _, _. split; [done|]. simpl.
  destruct (wf_alloc (root b) nd (mem b) Hnd Hwf) as [Hwf' Hdet].
  unfold alloc in Hwf', Hdet. simpl in Hwf', Hdet.
  rewrite length_Node_append, length_app. simpl.
  split_and!; try done; try lia.
  split_and!; [|done|].
  - apply wf_Node_append; [done|done|rewrite length_app; simpl; lia|].
    pose proof (wf_root_range _ _ Hwf). simpl. lia.
  - eapply Forall_impl; [done|]. simpl. intros n Hn.
    rewrite length_Node_append, length_app. simpl. lia.
Qed.

Lemma endtag_scan_stack h tg st k :
  st ≠ [] →
  endtag_scan h tg st k ≠ []
  ∧ ∃ i, endtag_scan h tg st k = take i st.
Proof.
  intros Hne. induction k as [|k IH]; simpl.
  - split; [done|]. exists (length st). by rewrite firstn_all.
  - case_decide; [|done]. split; [|by eexists].
    by destruct st.
Qed.

Lemma handle_total e b :
  builder_wf b →
  ∃ b', handle e b = Ok b' ∧ builder_wf b' ∧ root b' = root b
        ∧ length (mem b') ≤ S (length (mem b)).
Proof.
  intros Hb.
  assert (∀ nd, children nd = [] →
            ∃ b', ('(_, b) ← append_to_top nd b; Ok b) = Ok b'
                  ∧ builder_wf b' ∧ root b' = root b
                  ∧ length (mem b') ≤ S (length (mem b))) as Happ.
  { intros nd Hnd.
    destruct (append_to_top_total nd b Hnd Hb)
      as (node & b' & -> & Hb' & Hroot & _ & _ & Hlen).
    exists b'. simpl. split_and!; [done..|lia]. }
  destruct e as [tg ats|tg ats|tg|d|d|d|d|d]; simpl.
  - unfold handle_starttag.
    destruct (append_to_top_total
                (Node_init (Some tg) (attrs_dict ats) None false false) b)
      as (node & b' & -> & Hb' & Hroot & Hstack & Hnode & Hlen); [done..|].
    simpl. destruct (str_in tg VOID_ELEMENTS).
    + exists b'. split_and!; [done..|lia].
    + eexists. split; [done|]. simpl. split_and!; [|done|lia].
      destruct Hb' as (Hwf & Hne & Hst). split_and!; simpl; [done| |].
      * by destruct (stack b').
      * apply Forall_app. split; [done|]. repeat constructor. lia.
  - by apply Happ.
  - eexists. split; [done|]. simpl. split_and!; [|done|lia].
    destruct Hb as (Hwf & Hne & Hst). split_and!; simpl; [done|..].
    + by apply endtag_scan_stack.
    + destruct (endtag_scan_stack (mem b) tg (stack b)
                  (length (stack b) - 1) Hne) as [_ [i ->]].
      by apply Forall_take.
  - unfold handle_data. destruct d as [|c d]; [|by apply Happ].
    exists b. split_and!; [done..|lia].
  - by apply Happ.
  - by apply Happ.
  - exists b. split_and!; [done..|lia].
  - exists b. split_and!; [done..|lia].
Qed.

Lemma feed_total evs b :
  builder_wf b →
  ∃ b', foldM handle evs b = Ok b' ∧ builder_wf b' ∧ root b' = root b
        ∧ length (mem b') ≤ length evs + length (mem b).
Proof.
  revert b. induction evs as [|e evs IH]; intros b Hb; simpl.
  - exists b. split_and!; [done..|lia].
  - destruct (handle_total e b Hb) as (b1 & -> & Hb1 & Hroot1 & Hlen1).
    simpl. destruct (IH b1 Hb1) as (b' & -> & Hb' & Hroot' & Hlen').
    exists b'. split_and!; [done|done|congruence|lia].
Qed.

(** [parse_html] returns for every sequence of events: the root (the node
    allocated first) and a well-formed tree with at most one node per
    event besides the root. *)
Lemma parse_html_total evs :
  ∃ h, parse_html evs = Ok (0, h) ∧ wf 0 h ∧ length h ≤ S (length evs).
Proof.
  unfold parse_html.
  destruct (feed_total evs DOMBuilder_init builder_wf_init)
    as (b & -> & (Hwf & _) & Hroot & Hlen).
  simpl in *. exists (mem b). rewrite Hroot in *.
  split_and!; [done|done|lia].
Qed.

(** ** Depth of a well-formed tree *)

(** [within h a x]: [x] is [a] or below it. *)
Inductive within (h : heap) (a : ref) : ref → Prop :=
  | within_refl : within h a a
  | within_child x c :
      within h a x → c ∈ children (deref h x) → within h a c.

(** [pchain h n l]: [l] is [n], its parent, the parent of that, and so on
    up to a node without parent: the walk of [find_ancestor] and
    [is_descendant]. *)
Inductive pchain (h : heap) : ref → list ref → Prop :=
  | pchain_top n : parent (deref h n) = None → pchain h n [n]
  | pchain_step n p l :
      parent (deref h n) = Some p → pchain h p l → pchain h n (n :: l).

(** Every path of children from [n] has fewer than [j] nodes. *)
Fixpoint bounded (j : nat) (h : heap) (n : ref) : Prop :=
  match j with
  | O => False
  | S j => ∀ c, c ∈ children (deref h n) → bounded j h c
  end.

Lemma pchain_det h n l1 l2 : pchain h n l1 → pchain h n l2 → l1 = l2.
Proof.
  intros H1. revert l2. induction H1 as [n Hn|n p l Hp H1 IH]; intros l2 H2.
  - inversion H2; subst; [done|congruence].
  - inversion H2 as [|? p' l' Hp' H2']; subst; [congruence|].
    assert (p' = p) as -> by congruence. f_equal. by apply IH.
Qed.

Lemma pchain_suffix h n l x :
  pchain h n l → x ∈ l → ∃ l1 l2, l = l1 ++ l2 ∧ pchain h x l2.
Proof.
  induction 1 as [n Hn|n p l Hp H1 IH]; intros Hx.
  - apply list_elem_of_singleton in Hx as ->.
    exists [], [n]. split; [done|]. by constructor.
  - apply elem_of_cons in Hx as [->|Hx].
    + exists [], (n :: l). split; [done|]. by econstructor.
    + destruct (IH Hx) as (l1 & l2 & -> & Hl2).
      by exists (n :: l1), l2.
Qed.

Lemma pchain_NoDup h n l : pchain h n l → NoDup l.
Proof.
  induction 1 as [n Hn|n p l Hp H1 IH]; [apply NoDup_singleton|].
  apply NoDup_cons. split; [|done]. intros Hin.
  destruct (pchain_suffix _ _ _ _ H1 Hin) as (l1 & l2 & -> & Hl2).
  assert (l2 = n :: l1 ++ l2) as Heq.
  { eapply pchain_det; [done|]. by econstructor. }
  apply (f_equal length) in Heq.
  repeat (rewrite length_app in Heq || rewrite length_cons in Heq).
  simpl in Heq. lia.
Qed.

Lemma within_trans h a b c : within h a b → within h b c → within h a c.
Proof. intros Hab. induction 1; [done|by econstructor]. Qed.

(** Below a node with a chain, the chains run through that node. *)
Lemma within_pchain h a la x :
  parents_ok h → pchain h a la → within h a x →
  ∃ mid, pchain h x (mid ++ la).
Proof.
  intros Hpar Ha. induction 1 as [|x c Hx [mid IH] Hc].
  - by exists [].
  - exists (c :: mid). simpl. econstructor; [|done]. by apply Hpar.
Qed.

Lemma within_range root h x : wf root h → within h root x → x < length h.
Proof.
  intros Hwf. destruct 1; [by apply (wf_root_range _ _ Hwf)|].
  by eapply wf_range.
Qed.

Lemma pchain_root root h : wf root h → pchain h root [root].
Proof. intros Hwf. constructor. apply (wf_root _ _ Hwf). Qed.

(** No node of the tree is below one of its children. *)
Lemma within_acyclic root h x c :
  wf root h → within h root x → c ∈ children (deref h x) → ¬ within h c x.
Proof.
  intros Hwf Hx Hc Hcx.
  destruct (within_pchain h root [root] x) as [mid Hchain];
    [apply Hwf|by apply pchain_root|done|].
  assert (pchain h c (c :: mid ++ [root])) as Hchain_c.
  { econstructor; [|done]. by apply (wf_parents _ _ Hwf). }
  destruct (within_pchain h c _ x (wf_parents _ _ Hwf) Hchain_c Hcx)
    as [mid' Hchain'].
  pose proof (pchain_det _ _ _ _ Hchain Hchain') as Heq.
  apply (f_equal length) in Heq.
  repeat (rewrite length_app in Heq || rewrite length_cons in Heq).
  simpl in Heq. lia.
Qed.

Lemma bounded_mono j j' h n : bounded j h n → j ≤ j' → bounded j' h n.
Proof.
  revert j' n. induction j as [|j IH]; intros j' n; simpl; [done|].
  intros Hb Hle. destruct j' as [|j']; [lia|]. simpl.
  intros c Hc. apply IH; [by apply Hb|lia].
Qed.

Lemma NoDup_length_bound (l : list nat) (n : nat) :
  NoDup l → Forall (λ x, x < n) l → length l ≤ n.
Proof.
  intros Hnd Hl.
  assert (l ⊆+ seq 0 n) as Hsub.
  { apply NoDup_submseteq; [done|]. intros x Hx.
    apply elem_of_seq. rewrite Forall_forall in Hl. specialize (Hl x Hx). lia. }
  apply submseteq_length in Hsub. by rewrite length_seq in Hsub.
Qed.

Lemma pchain_range root h x mid :
  wf root h → within h root x → pchain h x (mid ++ [root]) →
  Forall (λ y, y < length h) (mid ++ [root]).
Proof.
  intros Hwf Hx. revert mid. induction Hx as [|x c Hx IH Hc]; intros mid Hchain.
  - pose proof (pchain_det _ _ _ _ Hchain (pchain_root _ _ Hwf)) as ->.
    repeat constructor. apply (wf_root_range _ _ Hwf).
  - pose proof (wf_parents _ _ Hwf _ _ Hc) as Hpc.
    destruct mid as [|m mid]; simpl in Hchain.
    + inversion Hchain as [? Hnone|? p l Hp Hl]; subst; [congruence|].
      inversion Hl.
    + inversion Hchain as [? Hnone|? p l Hp Hl]; subst.
      * by destruct mid.
      * assert (p = x) as -> by congruence.
        simpl. constructor; [by eapply wf_range|by apply IH].
Qed.

(** In a well-formed tree of [n] nodes no path from the root is longer
    than [n]: a node at depth [d] has nothing more than [n - d] deep below
    it. *)
Lemma bounded_below root h x mid :
  wf root h → within h root x → pchain h x (mid ++ [root]) →
  bounded (length h - length mid) h x.
Proof.
  intros Hwf. remember (length h - length mid) as k eqn:Hk.
  revert x mid Hk. induction k as [k IH] using lt_wf_ind.
  intros x mid Hk Hx Hchain.
  pose proof (pchain_range _ _ _ _ Hwf Hx Hchain) as Hrange.
  pose proof (NoDup_length_bound _ _ (pchain_NoDup _ _ _ Hchain) Hrange) as Hlen.
  rewrite length_app in Hlen. simpl in Hlen.
  destruct k as [|k]; [lia|]. simpl. intros c Hc.
  assert (pchain h c ((c :: mid) ++ [root])) as Hchain_c.
  { simpl. econstructor; [|done]. by apply (wf_parents _ _ Hwf). }
  assert (within h root c) as Hwc by (by econstructor).
  pose proof (pchain_range _ _ _ _ Hwf Hwc Hchain_c) as Hrange_c.
  pose proof (NoDup_length_bound _ _ (pchain_NoDup _ _ _ Hchain_c) Hrange_c)
    as Hlen_c.
  rewrite length_app in Hlen_c. simpl in Hlen_c.
  eapply bounded_mono; [eapply (IH (length h - length (c :: mid)))|];
    [simpl; lia|done|done|done|simpl; lia].
Qed.

Lemma bounded_reachable root h x :
  wf root h → within h root x → bounded (length h) h x.
Proof.
  intros Hwf Hx.
  destruct (within_pchain h root [root] x) as [mid Hchain];
    [apply Hwf|by apply pchain_root|done|].
  eapply bounded_mono; [by eapply bounded_below|lia].
Qed.

(** ** Enough fuel *)

Lemma traverse_total {A B} (f : A → res B) (l : list A) :
  (∀ x, x ∈ l → ∃ y, f x = Ok y) → ∃ ys, traverse f l = Ok ys.
Proof.
  induction l as [|x l IH]; intros Hf; simpl; [by eexists|].
  destruct (Hf x ltac:(left)) as [y ->]. simpl.
  destruct IH as [ys ->]; [intros; apply Hf; by right|]. simpl. by eexists.
Qed.

Lemma filterM_total {A} (keep : A → res bool) (l : list A) :
  (∀ x, x ∈ l → ∃ b, keep x = Ok b) → ∃ r, filterM keep l = Ok r.
Proof.
  induction l as [|x l IH]; intros Hk; simpl; [by eexists|].
  destruct (Hk x ltac:(left)) as [b ->]. simpl.
  destruct IH as [r ->]; [intros; apply Hk; by right|]. simpl. by eexists.
Qed.

(** A loop returns when each round does; [I] relates the elements still to
    visit and the state. *)
Lemma foldM_total {A S} (I : list A → S → Prop) (body : A → S → res S)
    (l : list A) (s : S) :
  I l s →
  (∀ x rest t, I (x :: rest) t → ∃ t', body x t = Ok t' ∧ I rest t') →
  ∃ s', foldM body l s = Ok s' ∧ I [] s'.
Proof.
  intros Hs Hbody. revert s Hs.
  induction l as [|x l IH]; intros s Hs; simpl; [by eexists|].
  destruct (Hbody x l s Hs) as (t & -> & Ht). simpl. by apply IH.
Qed.

Lemma bounded_child j h n c :
  bounded (S j) h n → c ∈ children (deref h n) → bounded j h c.
Proof. intros Hb. apply Hb. Qed.

Lemma bounded_pos j h n : bounded j h n → 0 < j.
Proof. destruct j; [done|lia]. Qed.

Lemma iter_tags_total fuel h names node j :
  bounded j h node → j ≤ fuel → ∃ l, iter_tags fuel h names node = Ok l.
Proof.
  revert node j. induction fuel as [|fuel IH]; intros node j Hb Hj.
  { apply bounded_pos in Hb. lia. }
  destruct j as [|j]; [done|]. simpl.
  match goal with |- ∃ l, _ <$> traverse ?f ?cs = _ =>
    destruct (traverse_total f cs) as [ys ->]; [|by eexists] end.
  intros child Hchild. destruct (truthy _); [|by eexists].
  destruct (IH child j) as [below ->]; [by apply Hb|lia|]. simpl.
  destruct (_ || _); by eexists.
Qed.

Lemma iter_tags_within fuel h names node l x :
  iter_tags fuel h names node = Ok l → x ∈ l → within h node x.
Proof.
  revert node l. induction fuel as [|fuel IH]; intros node l; simpl; [done|].
  intros Hrun Hx. apply fmap_Ok in Hrun as (ys & Hys & ->).
  apply elem_of_flatten in Hx as (y & Hy & Hx).
  apply traverse_Ok in Hys.
  apply list_elem_of_lookup in Hy as [i Hi].
  destruct (Forall2_lookup_r _ _ _ _ _ Hys Hi) as (child & Hchild & Hf).
  apply list_elem_of_lookup_2 in Hchild.
  assert (within h node child) as Hwc by (econstructor; [constructor|done]).
  destruct (truthy _); [|injection Hf as <-; by apply elem_of_nil in Hx].
  apply bind_Ok in Hf as (below & Hbelow & Hf).
  assert (x = child ∨ x ∈ below) as [->|Hin]; [|done|].
  { destruct (_ || _); injection Hf as <-; [|by right].
    apply elem_of_cons in Hx. naive_solver. }
  eapply within_trans; [done|]. by eapply IH.
Qed.

Lemma get_text_total fuel h node j :
  bounded j h node → j ≤ fuel → ∃ t, get_text fuel h node = Ok t.
Proof.
  revert node j. induction fuel as [|fuel IH]; intros node j Hb Hj.
  { apply bounded_pos in Hb. lia. }
  destruct j as [|j]; [done|]. simpl.
  destruct (tag _); [|by eexists]. destruct (_ || _); [by eexists|].
  destruct (traverse_total (get_text fuel h) (children (deref h node)))
    as [ys ->]; [|by eexists].
  intros c Hc. apply (IH c j); [by apply Hb|lia].
Qed.

Lemma render_node_total fuel h node indent preserve j :
  bounded j h node → j ≤ fuel →
  ∃ t, render_node fuel h node indent preserve = Ok t.
Proof.
  revert node indent preserve j.
  induction fuel as [|fuel IH]; intros node indent preserve j Hb Hj.
  { apply bounded_pos in Hb. lia. }
  destruct j as [|j]; [done|]. simpl.
  destruct (is_doctype _); [by eexists|].
  destruct (is_comment _); [by eexists|].
  destruct (tag _) as [tg|]; [|destruct (_ || _); by eexists].
  destruct (str_in tg VOID_ELEMENTS); [by eexists|].
  match goal with |- context [traverse ?f ?cs] =>
    destruct (traverse_total f cs) as [ys ->] end.
  { intros c Hc. apply (IH c _ _ j); [by apply Hb|lia]. }
  simpl. destruct (filter _ ys); [by eexists|].
  destruct (_ || _); by eexists.
Qed.

Lemma find_ancestor_from_total fuel h c l names :
  pchain h c l → length l ≤ fuel →
  ∃ r, find_ancestor_from fuel h (Some c) names = Ok r.
Proof.
  intros Hchain. revert fuel.
  induction Hchain as [n Hn|n p l Hp Hl IH]; intros fuel Hlen; simpl in Hlen;
    (destruct fuel as [|fuel]; [lia|]); simpl.
  - destruct (tag_in _ _); [by eexists|]. rewrite Hn.
    destruct fuel; by eexists.
  - destruct (tag_in _ _); [by eexists|]. rewrite Hp. apply IH. lia.
Qed.

Lemma is_descendant_from_total fuel h c l anc :
  pchain h c l → length l ≤ fuel →
  ∃ r, is_descendant_from fuel h (Some c) anc = Ok r.
Proof.
  intros Hchain. revert fuel.
  induction Hchain as [n Hn|n p l Hp Hl IH]; intros fuel Hlen; simpl in Hlen;
    (destruct fuel as [|fuel]; [lia|]); simpl.
  - case_decide; [by eexists|]. rewrite Hn. destruct fuel; by eexists.
  - case_decide; [by eexists|]. rewrite Hp. apply IH. lia.
Qed.

(** The tree of a parsed document is well-formed. *)
Lemma parse_html_wf evs root h : parse_html evs = Ok (root, h) → wf root h.
Proof.
  intros Hparse. destruct (parse_html_total evs) as (h' & Hparse' & Hwf & _).
  rewrite Hparse in Hparse'. by injection Hparse' as -> ->.
Qed.

(** ** The passes return on well-formed trees *)

(** [h'] has no child that [h] has not. *)
Definition shrinks (h h' : heap) : Prop :=
  ∀ m c, c ∈ children (deref h' m) → c ∈ children (deref h m).

Lemma shrinks_refl h : shrinks h h.
Proof. by intros m c. Qed.

Lemma shrinks_trans h1 h2 h3 : shrinks h1 h2 → shrinks h2 h3 → shrinks h1 h3.
Proof. intros H12 H23 m c Hc. by apply H12, H23. Qed.

Lemma bounded_shrinks j h h' n : shrinks h h' → bounded j h n → bounded j h' n.
Proof.
  intros Hs. revert n. induction j as [|j IH]; intros n; simpl; [done|].
  intros Hb c Hc. apply IH, Hb. by apply Hs.
Qed.

Lemma within_shrinks h h' a x : shrinks h h' → within h' a x → within h a x.
Proof.
  intros Hs. induction 1; [constructor|]. econstructor; [done|]. by apply Hs.
Qed.

Lemma shrinks_Node_remove root self node h :
  wf root h → shrinks h (Node_remove self node h).
Proof.
  intros Hwf m c. rewrite children_Node_remove. case_decide as Hm; [|done].
  destruct Hm as [-> _]. rewrite elem_of_remove_first by apply Hwf.
  naive_solver.
Qed.

Lemma length_remove_node node h : length (remove_node node h) = length h.
Proof.
  unfold remove_node. destruct (parent _); [|done]. apply length_Node_remove.
Qed.

Lemma wf_remove_node root node h : wf root h → wf root (remove_node node h).
Proof.
  unfold remove_node. destruct (parent _); [|done]. apply wf_Node_remove.
Qed.

Lemma shrinks_remove_node root node h :
  wf root h → shrinks h (remove_node node h).
Proof.
  unfold remove_node. destruct (parent _); [|intros; apply shrinks_refl].
  apply shrinks_Node_remove.
Qed.

(** A node below which nothing is deeper than [j] is not below one of its
    children. *)
Lemma bounded_within j h a x : bounded j h a → within h a x → bounded j h x.
Proof.
  intros Ha. induction 1 as [|x c Hx IH Hc]; [done|].
  destruct j as [|j]; [done|].
  eapply bounded_mono; [by apply IH|lia].
Qed.

Lemma bounded_acyclic j h x c :
  bounded j h x → c ∈ children (deref h x) → ¬ within h c x.
Proof.
  revert x c. induction j as [|j IH]; intros x c; simpl; [done|].
  intros Hb Hc Hcx.
  apply (IH x c); [|done|done].
  eapply bounded_within; [|done]. by apply Hb.
Qed.

Lemma parent_foldl_set_parent p l h m :
  parent (deref (foldl (λ h child, set_parent child p h) h l) m)
  = if decide (m ∈ l ∧ m < length h) then p else parent (deref h m).
Proof.
  revert h. induction l as [|c l IH]; intros h; cbn [foldl].
  - rewrite decide_False; [done|]. intros [?%elem_of_nil _]. done.
  - rewrite IH, length_set_parent, parent_set_parent.
    destruct (decide (m ∈ c :: l ∧ m < length h)) as [[Hin Hlt]|Hn].
    + destruct (decide (m ∈ l ∧ m < length h)); [done|].
      rewrite decide_True; [done|].
      apply elem_of_cons in Hin as [->|?]; naive_solver.
    + rewrite decide_False
        by (intros [? ?]; apply Hn; split; [by right|done]).
      rewrite decide_False; [done|].
      intros [-> ?]. apply Hn. split; [left|done].
Qed.

Lemma children_set_parent n p h m :
  children (deref (set_parent n p h) m) = children (deref h m).
Proof. by frame. Qed.

Lemma parent_set_children n cs h m :
  parent (deref (set_children n cs h) m) = parent (deref h m).
Proof. by frame. Qed.

(** The children after [unwrap(div)]: the parent has the children of
    [div] in the place of [div]; [div] has none. *)
Lemma unwrap_Ok root h div p :
  wf root h → div ∈ children (deref h p) → p ≠ div →
  ∃ h' i, unwrap div h = Ok h'
    ∧ index_of div (children (deref h p)) = Some i
    ∧ length h' = length h
    ∧ (∀ m, children (deref h' m)
            = if decide (m = div) then []
              else if decide (m = p)
              then take i (delete i (children (deref h p)))
                   ++ children (deref h div)
                   ++ drop i (delete i (children (deref h p)))
              else children (deref h m))
    ∧ (∀ m, parent (deref h' m)
            = if decide (m = div) then None
              else if decide (m ∈ children (deref h div)) then Some p
              else parent (deref h m)).
Proof.
  intros Hwf Hdiv Hne. unfold unwrap.
  rewrite (wf_parents _ _ Hwf _ _ Hdiv).
  destruct (index_of_elem _ _ Hdiv) as [i Hi]. rewrite Hi.
  assert (p < length h) as Hp by (apply children_in_range; by destruct Hdiv).
  assert (div < length h) as Hd by (by eapply wf_range).
  eexists _, i. split; [done|]. split; [done|].
  split_and!.
  - by rewrite length_set_parent, !length_set_children,
      length_foldl_set_parent, length_set_children.
  - intros m. rewrite children_set_parent, !children_set_children.
    rewrite !length_set_children, !length_foldl_set_parent.
    rewrite !(foldl_set_parent_frame children) by done.
    rewrite !children_set_children, !length_set_children.
    rewrite !(decide_True (P := p = p ∧ p < length h)) by done.
    rewrite (decide_False (P := div = p ∧ p < length h)) by naive_solver.
    destruct (decide (m = div)) as [->|]; [by rewrite decide_True|].
    rewrite (decide_False (P := m = div ∧ _)) by naive_solver.
    destruct (decide (m = p)) as [->|]; [by rewrite decide_True|].
    by rewrite !decide_False by naive_solver.
  - intros m. rewrite parent_set_parent, !parent_set_children.
    rewrite !length_set_children, !length_foldl_set_parent.
    rewrite parent_foldl_set_parent, parent_set_children.
    rewrite !length_set_children, children_set_children.
    rewrite (decide_False (P := div = p ∧ p < length h)) by naive_solver.
    destruct (decide (m = div)) as [->|]; [by rewrite decide_True|].
    rewrite (decide_False (P := m = div ∧ _)) by naive_solver.
    destruct (decide (m ∈ children (deref h div))) as [Hm|Hm].
    + rewrite decide_True; [done|]. split; [done|]. by eapply wf_range.
    + by rewrite decide_False by naive_solver.
Qed.

Lemma elem_of_splice (i : nat) (l k : list nat) (x : nat) :
  x ∈ take i l ++ k ++ drop i l ↔ x ∈ l ∨ x ∈ k.
Proof.
  rewrite !elem_of_app. rewrite <-(take_drop i l) at 3.
  rewrite elem_of_app. tauto.
Qed.

Lemma NoDup_splice (i : nat) (l k : list nat) :
  NoDup l → NoDup k → (∀ x, x ∈ l → x ∉ k) →
  NoDup (take i l ++ k ++ drop i l).
Proof.
  intros Hl Hk Hdis. rewrite <-(take_drop i l) in Hl, Hdis.
  apply NoDup_app in Hl as (Ht & Htd & Hd).
  apply NoDup_app. split_and!; [done| |].
  - intros x Hx [Hxk|Hxd]%elem_of_app.
    + apply (Hdis x); [|done]. apply elem_of_app. by left.
    + by apply (Htd x).
  - apply NoDup_app. split_and!; [done| |done].
    intros x Hxk Hxd. apply (Hdis x); [|done]. apply elem_of_app. by right.
Qed.

Lemma delete_index_of x l i :
  index_of x l = Some i → delete i l = remove_first x l.
Proof. intros Hi. unfold remove_first. by rewrite Hi. Qed.

Lemma wf_unwrap root h div p :
  wf root h → div ∈ children (deref h p) → p ≠ div →
  ∃ h', unwrap div h = Ok h' ∧ wf root h' ∧ length h' = length h
    ∧ parent (deref h' div) = None
    ∧ ∀ m, is_Some (parent (deref h' m)) → is_Some (parent (deref h m)).
Proof.
  intros Hwf Hdiv Hne.
  destruct (unwrap_Ok root h div p Hwf Hdiv Hne)
    as (h' & i & Hrun & Hi & Hlen & Hch & Hpar).
  exists h'. split; [done|].
  pose proof (wf_parents _ _ Hwf) as H1.
  pose proof (wf_nodup _ _ Hwf) as H2.
  pose proof (wf_range _ _ Hwf) as H3.
  assert (∀ c, c ∈ children (deref h div) → c ∉ children (deref h p)) as Hdis.
  { intros c Hc1 Hc2. apply H1 in Hc1, Hc2. congruence. }
  assert (div ∉ children (deref h div)) as Hdd.
  { intros Hc. pose proof (H1 _ _ Hc). pose proof (H1 _ _ Hdiv). congruence. }
  rewrite (delete_index_of _ _ _ Hi) in Hch.
  assert (∀ m c, c ∈ children (deref h' m) →
            m ≠ div
            ∧ (m = p ∧ (c ∈ children (deref h p) ∧ c ≠ div
                        ∨ c ∈ children (deref h div))
               ∨ m ≠ p ∧ c ∈ children (deref h m))) as Hin.
  { intros m c. rewrite Hch.
    destruct (decide (m = div)); [by intros ?%elem_of_nil|].
    destruct (decide (m = p)) as [->|]; [|naive_solver].
    rewrite elem_of_splice, elem_of_remove_first by done. naive_solver. }
  split_and!; [split|done|..].
  - intros m c Hc. rewrite Hpar.
    destruct (Hin _ _ Hc) as [Hmd [[-> [[Hcp Hcd]|Hcd]]|[Hmp Hcm]]].
    + rewrite decide_False by done.
      rewrite decide_False; [by apply H1|]. intros ?. by eapply Hdis.
    + rewrite decide_False by (by intros ->). by rewrite decide_True.
    + rewrite decide_False.
      * rewrite decide_False; [by apply H1|].
        intros Hcd. apply H1 in Hcd, Hcm. congruence.
      * intros ->. apply H1 in Hcm, Hdiv. congruence.
  - intros m. rewrite Hch. destruct (decide (m = div)); [apply NoDup_nil_2|].
    destruct (decide (m = p)) as [->|]; [|done].
    apply NoDup_splice; [by apply NoDup_remove_first|done|].
    intros x [Hx _]%elem_of_remove_first Hxd; [|done]. by eapply Hdis.
  - intros m c Hc. rewrite Hlen.
    destruct (Hin _ _ Hc) as [_ [[-> [[? _]|?]]|[_ ?]]]; by eapply H3.
  - rewrite Hpar.
    pose proof (wf_root_detached _ _ Hwf) as Hdet.
    rewrite decide_False by (intros ->; by eapply Hdet).
    rewrite decide_False by apply Hdet. apply (wf_root _ _ Hwf).
  - rewrite Hlen. apply (wf_root_range _ _ Hwf).
  - rewrite Hpar. by rewrite decide_True.
  - intros m. rewrite Hpar. destruct (decide (m = div)); [by intros [? ?]|].
    destruct (decide (m ∈ children (deref h div))) as [Hm|]; [|done].
    intros _. rewrite (H1 _ _ Hm). by eexists.
Qed.

(** The nodes of the arena that have a parent: every round of the [while]
    loop of [remove_redundant_wrappers] leaves one less. *)
Definition attached_count (h : heap) : nat :=
  length (filter (λ nd, is_Some (parent nd)) h).

Lemma attached_count_le h : attached_count h ≤ length h.
Proof. apply length_filter. Qed.

Lemma filter_count_decrease {A} (P : A → Prop) `{!∀ x, Decision (P x)}
    (l l' : list A) (n0 : nat) :
  length l' = length l →
  (∀ n x x', l !! n = Some x → l' !! n = Some x' → P x' → P x) →
  (∃ x x', l !! n0 = Some x ∧ l' !! n0 = Some x' ∧ P x ∧ ¬ P x') →
  length (filter P l') < length (filter P l).
Proof.
  revert l' n0. induction l as [|a l IH]; intros [|a' l'] n0 Hlen Himp Hwit;
    try done.
  { destruct Hwit as (? & ? & ? & _). done. }
  simpl in Hlen. rewrite !filter_cons.
  assert (length (filter P l') ≤ length (filter P l)) as Hle.
  { clear IH Hwit. assert (∀ n x x', l !! n = Some x → l' !! n = Some x' →
                             P x' → P x) as Himp'.
    { intros n. apply (Himp (S n)). }
    clear Himp. revert l' Hlen Himp'.
    induction l as [|b l IHl]; intros [|b' l'] Hlen Himp'; try done.
    rewrite !filter_cons. simpl in Hlen.
    specialize (IHl l' ltac:(lia) (λ n, Himp' (S n))).
    pose proof (Himp' 0 b b' eq_refl eq_refl).
    repeat case_decide; simpl; try lia. tauto. }
  destruct n0 as [|n0].
  - destruct Hwit as (x & x' & [= <-] & [= <-] & Hx & Hx').
    rewrite (decide_True (P := P a)) by done.
    rewrite (decide_False (P := P a')) by done. simpl. lia.
  - assert (length (filter P l') < length (filter P l)) as Hlt.
    { apply (IH l' n0); [lia|intros n; apply (Himp (S n))|done]. }
    pose proof (Himp 0 a a' eq_refl eq_refl).
    repeat case_decide; simpl; try lia. tauto.
Qed.

Lemma deref_lookup (h : heap) n nd : h !! n = Some nd → deref h n = nd.
Proof. intros Hn. unfold deref. by rewrite Hn. Qed.

Lemma attached_count_decrease h h' n0 :
  length h' = length h →
  (∀ m, is_Some (parent (deref h' m)) → is_Some (parent (deref h m))) →
  is_Some (parent (deref h n0)) → parent (deref h' n0) = None →
  attached_count h' < attached_count h.
Proof.
  intros Hlen Himp Hn0 Hn0'. unfold attached_count.
  apply (filter_count_decrease _ h h' n0); [done|..].
  - intros n x x' Hx Hx'. specialize (Himp n).
    by rewrite (deref_lookup _ _ _ Hx), (deref_lookup _ _ _ Hx') in Himp.
  - assert (n0 < length h) as Hlt.
    { destruct (decide (n0 < length h)); [done|].
      rewrite deref_out_of_range in Hn0 by lia. by destruct Hn0. }
    destruct (lookup_lt_is_Some_2 h n0 Hlt) as [x Hx].
    destruct (lookup_lt_is_Some_2 h' n0 ltac:(lia)) as [x' Hx'].
    exists x, x'. rewrite (deref_lookup _ _ _ Hx) in Hn0.
    rewrite (deref_lookup _ _ _ Hx') in Hn0'.
    split_and!; [done..|]. rewrite Hn0'. by intros [? ?].
Qed.

Lemma bounded_root root h : wf root h → bounded (length h) h root.
Proof. intros Hwf. eapply bounded_reachable; [done|constructor]. Qed.

Lemma wrappers_loop_total rounds fuel root st :
  wf root st.1 → attached_count st.1 < rounds → length st.1 ≤ fuel →
  ∃ st', remove_redundant_wrappers_loop rounds fuel root st = Ok st'
    ∧ wf root st'.1 ∧ length st'.1 = length st.1.
Proof.
  revert st. induction rounds as [|rounds IH]; intros st Hwf Hcount Hfuel;
    [lia|]. simpl.
  destruct (iter_tags_total fuel st.1 [lit "div"] root (length st.1))
    as [divs Hdivs]; [by apply bounded_root|done|].
  rewrite Hdivs. simpl.
  destruct (List.find _ divs) as [div|] eqn:Hfind; [|by exists st].
  apply find_some in Hfind as [Hdiv%list_elem_of_In _].
  destruct (iter_tags_elem _ _ _ _ _ _ Hdivs Hdiv) as (_ & _ & p & Hp).
  pose proof (iter_tags_within _ _ _ _ _ _ Hdivs Hdiv) as Hwithin.
  assert (p ≠ div) as Hne.
  { intros ->. eapply within_acyclic; [done..|constructor]. }
  destruct (wf_unwrap root st.1 div p Hwf Hp Hne)
    as (h' & -> & Hwf' & Hlen & Hnone & Himp).
  simpl.
  destruct (IH (h', count_div_unwrapped st.2)) as (st' & -> & ? & Hlen');
    simpl; [done| |lia|].
  - assert (attached_count h' < attached_count st.1); [|lia].
    eapply attached_count_decrease; [done|done| |done].
    rewrite (wf_parents _ _ Hwf _ _ Hp). by eexists.
  - exists st'. simpl in Hlen'. split_and!; [done|done|congruence].
Qed.

Lemma remove_redundant_wrappers_total fuel root st :
  wf root st.1 → length st.1 < fuel →
  ∃ st', remove_redundant_wrappers fuel root st = Ok st'
    ∧ wf root st'.1 ∧ length st'.1 = length st.1.
Proof.
  intros Hwf Hfuel. apply wrappers_loop_total; [done| |lia].
  pose proof (attached_count_le st.1). lia.
Qed.

Lemma remove_empty_headings_total fuel root st :
  wf root st.1 → length st.1 ≤ fuel →
  ∃ st', remove_empty_headings fuel root st = Ok st'
    ∧ wf root st'.1 ∧ length st'.1 = length st.1.
Proof.
  intros Hwf Hfuel. unfold remove_empty_headings.
  destruct (iter_tags_total fuel st.1 [lit "h1"; lit "h2"] root (length st.1))
    as [headings Hh]; [by apply bounded_root|done|].
  rewrite Hh. simpl.
  destruct (foldM_total
    (λ rest (t : state),
       wf root t.1 ∧ shrinks st.1 t.1 ∧ length t.1 = length st.1
       ∧ ∀ x, x ∈ rest → within st.1 root x)
    (λ heading (st : state),
       t ← get_text fuel st.1 heading;
       if bool_decide (strip t = [])
       then Ok (remove_node heading st.1, count_empty_headings_removed st.2)
       else Ok st) headings st) as (st' & Hrun & Hwf' & _ & Hlen & _).
  - split_and!; [done|apply shrinks_refl|done|].
    intros x Hx. by eapply iter_tags_within.
  - intros heading rest t (Hwft & Hsh & Hlen & Hrest).
    destruct (get_text_total fuel t.1 heading (length st.1)) as [txt ->];
      [|done|].
    { eapply bounded_shrinks; [done|].
      eapply bounded_reachable; [done|]. apply Hrest. left. }
    simpl. destruct (bool_decide _); eexists; (split; [done|]); simpl.
    + split_and!.
      * by apply wf_remove_node.
      * eapply shrinks_trans; [done|]. by eapply shrinks_remove_node.
      * by rewrite length_remove_node.
      * intros x Hx. apply Hrest. by right.
    + split_and!; [done..|]. intros x Hx. apply Hrest. by right.
  - by exists st'.
Qed.

Lemma remove_empty_italics_total fuel root st :
  wf root st.1 → length st.1 ≤ fuel →
  ∃ st', remove_empty_italics fuel root st = Ok st'
    ∧ wf root st'.1 ∧ length st'.1 = length st.1.
Proof.
  intros Hwf Hfuel. unfold remove_empty_italics.
  destruct (iter_tags_total fuel st.1 [lit "i"] root (length st.1))
    as [italics Hh]; [by apply bounded_root|done|].
  rewrite Hh. simpl.
  match goal with |- ∃ st', foldM ?body _ _ = _ ∧ _ =>
    destruct (foldM_total
      (λ rest (t : state),
         wf root t.1 ∧ shrinks st.1 t.1 ∧ length t.1 = length st.1
         ∧ ∀ x, x ∈ rest → within st.1 root x)
      body italics st) as (st' & Hrun & Hwf' & _ & Hlen & _) end.
  - split_and!; [done|apply shrinks_refl|done|].
    intros x Hx. by eapply iter_tags_within.
  - intros italic rest t (Hwft & Hsh & Hlen & Hrest).
    assert (∀ x, x ∈ rest → within st.1 root x) as Hrest'
      by (intros; apply Hrest; by right).
    destruct (attrs _); [|by eexists].
    destruct (get_text_total fuel t.1 italic (length st.1)) as [txt ->];
      [|done|].
    { eapply bounded_shrinks; [done|].
      eapply bounded_reachable; [done|]. apply Hrest. left. }
    simpl. destruct (strip txt); [|by eexists].
    destruct (existsb _ _); [by eexists|].
    eexists. split; [done|]. simpl. split_and!; [| | |done].
    + by apply wf_remove_node.
    + eapply shrinks_trans; [done|]. by eapply shrinks_remove_node.
    + by rewrite length_remove_node.
  - by exists st'.
Qed.

Lemma add_alt_text_total fuel root st :
  wf root st.1 → length st.1 ≤ fuel →
  ∃ st', add_alt_text fuel root st = Ok st'
    ∧ wf root st'.1 ∧ length st'.1 = length st.1.
Proof.
  intros Hwf Hfuel. unfold add_alt_text.
  destruct (iter_tags_total fuel st.1 [lit "img"] root (length st.1))
    as [images Hh]; [by apply bounded_root|done|].
  rewrite Hh. simpl.
  match goal with |- ∃ st', foldM ?body _ _ = _ ∧ _ =>
    destruct (foldM_total
      (λ (_ : list nat) (t : state),
         wf root t.1 ∧ length t.1 = length st.1)
      body images st) as (st' & Hrun & Hwf' & Hlen) end.
  - done.
  - intros image rest t (Hwft & Hlen).
    destruct (_ || _); eexists; (split; [done|]); simpl; [|done].
    split; [by apply wf_set_attrs|by rewrite length_set_attrs].
  - by exists st'.
Qed.

Lemma wf_adjust_heading root heading st :
  wf root st.1 →
  wf root (adjust_heading heading st).1
  ∧ length (adjust_heading heading st).1 = length st.1.
Proof.
  intros Hwf. unfold adjust_heading.
  repeat case_match; simpl; rewrite ?length_set_tag;
    (split; [|done]); try done; by apply wf_set_tag.
Qed.

Lemma text_headings_total fuel root h :
  wf root h → length h ≤ fuel → ∃ hs, text_headings fuel h root = Ok hs.
Proof.
  intros Hwf Hfuel. unfold text_headings.
  destruct (iter_tags_total fuel h HEADING_TAGS root (length h))
    as [all Hall]; [by apply bounded_root|done|].
  rewrite Hall. simpl.
  destruct (traverse_total (get_text fuel h) all) as [texts ->];
    [|by eexists].
  intros x Hx. apply (get_text_total _ _ _ (length h)); [|done].
  eapply bounded_reachable; [done|]. by eapply iter_tags_within.
Qed.

Lemma normalize_headings_total fuel root st :
  wf root st.1 → length st.1 ≤ fuel →
  ∃ st', normalize_headings fuel root st = Ok st'
    ∧ wf root st'.1 ∧ length st'.1 = length st.1.
Proof.
  intros Hwf Hfuel. unfold normalize_headings.
  destruct (text_headings_total fuel root st.1 Hwf Hfuel) as [hs ->].
  simpl. destruct hs as [|first rest]; [by exists st|].
  eexists. split; [done|].
  match goal with |- wf root (foldl _ ?s _).1 ∧ _ =>
    assert (wf root s.1 ∧ length s.1 = length st.1) as Hs;
    [|generalize dependent s; intros s0 Hs0] end.
  { case_bool_decide; [|done]. simpl.
    split; [by apply wf_set_tag|by rewrite length_set_tag]. }
  clear Hwf Hfuel. revert s0 Hs0.
  induction rest as [|x rest IH]; intros s0 [Hwf0 Hlen0]; simpl; [done|].
  apply IH. destruct (wf_adjust_heading root x s0 Hwf0) as [? ?].
  split; [done|congruence].
Qed.

Lemma reachable_pchain root h x :
  wf root h → within h root x → ∃ l, pchain h x l ∧ length l ≤ length h.
Proof.
  intros Hwf Hx.
  destruct (within_pchain h root [root] x) as [mid Hchain];
    [apply Hwf|by apply pchain_root|done|].
  exists (mid ++ [root]). split; [done|].
  apply NoDup_length_bound; [by eapply pchain_NoDup|by eapply pchain_range].
Qed.

Lemma find_ancestor_total fuel root h x names :
  wf root h → within h root x → length h ≤ fuel →
  ∃ r, find_ancestor fuel h x names = Ok r.
Proof.
  intros Hwf Hx Hfuel. unfold find_ancestor.
  destruct (reachable_pchain _ _ _ Hwf Hx) as (l & Hl & Hlen).
  inversion Hl as [? Hnone|? p l' Hp Hl']; subst.
  - rewrite Hnone. destruct fuel; by eexists.
  - rewrite Hp. eapply find_ancestor_from_total; [done|]. simpl in Hlen. lia.
Qed.

Lemma is_descendant_total fuel root h x anc :
  wf root h → within h root x → length h ≤ fuel →
  ∃ r, is_descendant fuel h x anc = Ok r.
Proof.
  intros Hwf Hx Hfuel. unfold is_descendant.
  destruct (reachable_pchain _ _ _ Hwf Hx) as (l & Hl & Hlen).
  inversion Hl as [? Hnone|? p l' Hp Hl']; subst.
  - rewrite Hnone. destruct fuel; by eexists.
  - rewrite Hp. eapply is_descendant_from_total; [done|]. simpl in Hlen. lia.
Qed.

Lemma footer_candidate_total fuel root h x :
  wf root h → within h root x → length h ≤ fuel →
  ∃ b, footer_candidate fuel h x = Ok b.
Proof.
  intros Hwf Hx Hfuel. unfold footer_candidate.
  destruct (tag_in _ _); [by eexists|]. destruct (negb _); [by eexists|].
  destruct (get_text_total fuel h x (length h)) as [t ->];
    [by eapply bounded_reachable|done|].
  simpl. destruct (FOOTER_PATTERN_search t); [|by eexists].
  destruct (find_ancestor_total fuel root h x [lit "footer"]) as [r ->];
    [done..|].
  simpl. destruct r; by eexists.
Qed.

Lemma inside_another_total fuel root h x cands :
  wf root h → within h root x → length h ≤ fuel →
  ∃ b, inside_another fuel h x cands = Ok b.
Proof.
  intros Hwf Hx Hfuel. induction cands as [|other rest IH]; simpl;
    [by eexists|].
  case_decide; [done|].
  destruct (is_descendant_total fuel root h x other) as [d ->]; [done..|].
  simpl. destruct d; [by eexists|done].
Qed.

Lemma footer_candidates_total fuel root h :
  wf root h → length h ≤ fuel →
  ∃ all cands outer,
    iter_tags fuel h [] root = Ok all
    ∧ filterM (footer_candidate fuel h) all = Ok cands
    ∧ filterM (λ node, negb <$> inside_another fuel h node cands) cands
      = Ok outer.
Proof.
  intros Hwf Hfuel.
  destruct (iter_tags_total fuel h [] root (length h)) as [all Hall];
    [by apply bounded_root|done|].
  destruct (filterM_total (footer_candidate fuel h) all) as [cands Hcands].
  { intros x Hx. eapply footer_candidate_total; [done| |done].
    by eapply iter_tags_within. }
  destruct (filterM_total
    (λ node, negb <$> inside_another fuel h node cands) cands)
    as [outer Houter].
  { intros x Hx.
    destruct (inside_another_total fuel root h x cands) as [b ->]; [done| |done|].
    - eapply iter_tags_within; [done|]. by eapply filterM_elem.
    - by eexists. }
  by exists all, cands, outer.
Qed.

(** A [for] loop over a list keeps what each round keeps; [I] relates the
    elements still to visit and the state. *)
Lemma foldl_rest_inv {A S} (I : list A → S → Prop) (f : S → A → S)
    (l : list A) (s : S) :
  I l s →
  (∀ x rest t, I (x :: rest) t → I rest (f t x)) →
  I [] (foldl f s l).
Proof.
  intros Hs Hf. revert s Hs.
  induction l as [|x l IH]; intros s Hs; simpl; [done|]. by apply IH, Hf.
Qed.

Lemma detached_Node_remove_mono self node h m :
  (∀ p, NoDup (children (deref h p))) →
  detached h m → detached (Node_remove self node h) m.
Proof.
  intros Hnd Hdet p. rewrite children_Node_remove. case_decide; [|apply Hdet].
  rewrite elem_of_remove_first by done. intros [? _]. by eapply Hdet.
Qed.

Lemma detached_Node_append self node h m :
  detached h m → m ≠ node → detached (Node_append self node h) m.
Proof.
  intros Hdet Hne p. rewrite children_Node_append. case_decide; [|apply Hdet].
  rewrite elem_of_app, list_elem_of_singleton. intros [?|?]; [|done].
  by eapply Hdet.
Qed.

Lemma wf_wrap_body_in_main root body h :
  wf root h → body < length h →
  wf root (wrap_body_in_main body h).2
  ∧ length (wrap_body_in_main body h).2 = S (length h).
Proof.
  intros Hwf Hbody. unfold wrap_body_in_main. simpl.
  set (nd := Node_init (Some (lit "main")) [] None false false).
  destruct (wf_alloc root nd h eq_refl Hwf) as [Hwf1 Hdet1].
  unfold alloc in Hwf1, Hdet1. simpl in Hwf1, Hdet1.
  rewrite length_Node_append, length_foldl_reparent, length_app. simpl.
  split; [|lia].
  pose proof (foldl_rest_inv
    (λ rest hc, wf root hc ∧ length hc = S (length h)
                ∧ detached hc (length h)
                ∧ NoDup rest
                ∧ ∀ x, x ∈ rest → x ∈ children (deref hc body))
    (λ hc child, Node_append (length h) child (Node_remove body child hc))
    (children (deref (h ++ [nd]) body)) (h ++ [nd])) as Hfold.
  destruct Hfold as (Hwf2 & Hlen2 & Hdet2 & _).
  - split_and!; [done|rewrite length_app; simpl; lia|done| |done].
    apply (wf_nodup _ _ Hwf1).
  - intros x rest hc (Hwfc & Hlenc & Hdetc & Hnd & Hrest).
    apply NoDup_cons in Hnd as [Hx Hnd].
    assert (x ∈ children (deref hc body)) as Hxb by (apply Hrest; left).
    pose proof (wf_parents _ _ Hwfc _ _ Hxb) as Hpx.
    assert (x ≠ length h) as Hxm by (intros ->; by eapply Hdetc).
    assert (x ≠ root) as Hxr.
    { intros ->. by eapply (wf_root_detached _ _ Hwfc). }
    split_and!.
    + apply wf_Node_append; [by apply wf_Node_remove| | |done].
      * by eapply detached_Node_remove.
      * rewrite length_Node_remove. by eapply wf_range.
    + by rewrite length_Node_append, length_Node_remove.
    + apply detached_Node_append; [|done].
      apply detached_Node_remove_mono; [apply Hwfc|done].
    + done.
    + intros y Hy. rewrite children_Node_append.
      rewrite decide_False by lia. rewrite children_Node_remove.
      destruct (decide (body = body ∧ body < length hc)).
      * rewrite elem_of_remove_first by apply Hwfc. split; [|by intros ->].
        apply Hrest. by right.
      * apply Hrest. by right.
  - apply wf_Node_append; [done|done|lia|].
    pose proof (wf_root_range _ _ Hwf). lia.
Qed.

Lemma main_for_footer_total fuel root h :
  wf root h → length h ≤ fuel →
  ∃ target, main_for_footer fuel root h = Ok target
    ∧ match target with
      | None => True
      | Some (_, h') => wf root h' ∧ length h' ≤ S (length h)
      end.
Proof.
  intros Hwf Hfuel. unfold main_for_footer.
  destruct (iter_tags_total fuel h [lit "main"] root (length h))
    as [mains ->]; [by apply bounded_root|done|].
  simpl. destruct mains as [|main mains].
  - destruct (iter_tags_total fuel h [lit "body"] root (length h))
      as [bodies Hbodies]; [by apply bounded_root|done|].
    rewrite Hbodies. simpl. destruct bodies as [|body bodies]; [by eexists|].
    eexists. split; [done|].
    destruct (wf_wrap_body_in_main root body h Hwf) as [Hwf' Hlen'].
    { eapply within_range; [done|].
      eapply iter_tags_within; [done|left]. }
    destruct (wrap_body_in_main body h). simpl in *. split; [done|lia].
  - eexists. split; [done|]. split; [done|lia].
Qed.

Lemma wf_footer_of_main root main h :
  wf root h →
  wf root (footer_of_main main h).2
  ∧ length (footer_of_main main h).2 ≤ S (length h).
Proof.
  intros Hwf. unfold footer_of_main.
  destruct (List.find _ _); simpl; [split; [done|lia]|].
  set (nd := Node_init (Some (lit "footer")) [] None false false).
  destruct (wf_alloc root nd h eq_refl Hwf) as [Hwf1 Hdet1].
  unfold alloc in Hwf1, Hdet1. simpl in Hwf1, Hdet1.
  rewrite length_Node_append, length_app. simpl. split; [|lia].
  apply wf_Node_append; [done|done|rewrite length_app; simpl; lia|].
  pose proof (wf_root_range _ _ Hwf). lia.
Qed.

Lemma wf_move_to_footer root footer node st :
  wf root st.1 → wf root (move_to_footer footer node st).1.
Proof.
  intros Hwf. unfold move_to_footer.
  destruct (parent (deref st.1 node)) as [p|] eqn:Hp; [|done]. simpl.
  assert (node < length st.1) as Hlt.
  { destruct (decide (node < length st.1)); [done|].
    by rewrite deref_out_of_range in Hp by lia. }
  apply wf_Node_append; [by apply wf_Node_remove| | |].
  - by eapply detached_Node_remove.
  - by rewrite length_Node_remove.
  - intros ->. rewrite (wf_root _ _ Hwf) in Hp. done.
Qed.

Lemma move_footer_elements_total fuel root st :
  wf root st.1 → length st.1 ≤ fuel →
  ∃ st', move_footer_elements fuel root st = Ok st'
    ∧ wf root st'.1 ∧ length st'.1 ≤ length st.1 + 2.
Proof.
  intros Hwf Hfuel. unfold move_footer_elements.
  destruct (footer_candidates_total fuel root st.1 Hwf Hfuel)
    as (all & cands & outer & Hall & Hcands & Houter).
  rewrite Hall. simpl. rewrite Hcands. simpl. destruct cands as [|c cands].
  { exists st. split_and!; [done|done|lia]. }
  rewrite Houter. simpl.
  destruct (main_for_footer_total fuel root st.1 Hwf Hfuel)
    as (target & -> & Htarget).
  simpl. destruct target as [[main h1]|]; [|exists st; split_and!; [done..|lia]].
  destruct Htarget as [Hwf1 Hlen1].
  destruct (wf_footer_of_main root main h1 Hwf1) as [Hwf2 Hlen2].
  destruct (footer_of_main main h1) as [footer h2]. simpl in Hwf2, Hlen2.
  eexists. split; [done|].
  pose proof (foldl_rest_inv
    (λ (_ : list nat) (t : state), wf root t.1 ∧ length t.1 = length h2)
    (λ (t : state) node, move_to_footer footer node t) outer (h2, st.2))
    as Hfold.
  destruct Hfold as [Hwf3 Hlen3]; [done| |split; [done|simpl in *; lia]].
  intros x rest t [Hwft Hlent].
  split; [by apply wf_move_to_footer|by rewrite length_move_to_footer].
Qed.

(** What [clean_whitespace(node)] has done to the arena [h] when the loop
    over the children of [node] still has [rest] to visit: parents are
    untouched, children lists have only lost members, nothing outside the
    subtree of [node] has changed, and the children not yet visited are
    still children of [node]. *)
Definition cw_inv (h : heap) (node : ref) (rest : list ref) (hc : heap)
    : Prop :=
  length hc = length h
  ∧ (∀ m, parent (deref hc m) = parent (deref h m))
  ∧ (∀ p, NoDup (children (deref hc p)))
  ∧ shrinks h hc
  ∧ (∀ m, ¬ within h node m → children (deref hc m) = children (deref h m))
  ∧ NoDup rest
  ∧ (∀ x, x ∈ rest → x ∈ children (deref hc node)).

Lemma cw_inv_parents_ok h node rest hc :
  parents_ok h → cw_inv h node rest hc → parents_ok hc.
Proof.
  intros Hpar (_ & Hp & _ & Hsh & _) p c Hc. rewrite Hp. by apply Hpar, Hsh.
Qed.

Lemma cw_inv_skip h node c rest hc :
  cw_inv h node (c :: rest) hc → cw_inv h node rest hc.
Proof.
  intros (?&?&?&?&?&Hnd&Hrest). apply NoDup_cons in Hnd as [_ ?].
  split_and!; try done. intros x Hx. apply Hrest. by right.
Qed.

Lemma cw_inv_frame h node rest hc h1 :
  length h1 = length hc →
  (∀ m, children (deref h1 m) = children (deref hc m)) →
  (∀ m, parent (deref h1 m) = parent (deref hc m)) →
  cw_inv h node rest hc → cw_inv h node rest h1.
Proof.
  intros Hlen Hc Hp (Hl & Hpc & Hnd & Hsh & Hfoot & Hndr & Hrest).
  split_and!.
  - congruence.
  - intros m. by rewrite Hp.
  - intros p. by rewrite Hc.
  - intros m c. rewrite Hc. apply Hsh.
  - intros m Hm. rewrite Hc. auto.
  - done.
  - intros x Hx. rewrite Hc. auto.
Qed.

Lemma cw_inv_remove h node c rest hc :
  parents_ok h → cw_inv h node (c :: rest) hc →
  ∃ h2, remove_from_parent c hc = Ok h2 ∧ cw_inv h node rest h2.
Proof.
  intros Hpar Hinv.
  pose proof (cw_inv_parents_ok _ _ _ _ Hpar Hinv) as Hparc.
  destruct Hinv as (Hlen & Hp & Hnd & Hsh & Hfoot & Hndr & Hrest).
  assert (c ∈ children (deref hc node)) as Hc by (apply Hrest; left).
  apply NoDup_cons in Hndr as [Hcr Hndr].
  unfold remove_from_parent, list_remove. rewrite (Hparc _ _ Hc).
  destruct (index_of_elem _ _ Hc) as [i Hi]. rewrite Hi. simpl.
  eexists. split; [done|].
  rewrite (delete_index_of _ _ _ Hi).
  assert (node < length hc) as Hnode by (apply children_in_range; by destruct Hc).
  split_and!.
  - by rewrite length_set_children.
  - intros m. by rewrite parent_set_children.
  - intros p. rewrite children_set_children. case_decide; [|done].
    by apply NoDup_remove_first.
  - intros m x. rewrite children_set_children. case_decide as Hm; [|apply Hsh].
    destruct Hm as [-> _]. rewrite elem_of_remove_first by done.
    intros [? _]. by apply Hsh.
  - intros m Hm. rewrite children_set_children.
    rewrite decide_False; [by apply Hfoot|].
    intros [-> _]. apply Hm. constructor.
  - done.
  - intros x Hx. rewrite children_set_children, decide_True by done.
    rewrite elem_of_remove_first by done. split; [|by intros ->].
    apply Hrest. by right.
Qed.

Lemma cw_inv_rec h node c rest hc h' j :
  bounded (S j) h node →
  cw_inv h node (c :: rest) hc →
  length h' = length hc →
  (∀ m, parent (deref h' m) = parent (deref hc m)) →
  (∀ p, NoDup (children (deref h' p))) →
  shrinks hc h' →
  (∀ m, ¬ within hc c m → children (deref h' m) = children (deref hc m)) →
  cw_inv h node rest h'.
Proof.
  intros Hb (Hlen & Hp & Hnd & Hsh & Hfoot & Hndr & Hrest) Hlen' Hp' Hnd' Hsh'
    Hfoot'.
  assert (c ∈ children (deref hc node)) as Hc by (apply Hrest; left).
  apply NoDup_cons in Hndr as [Hcr Hndr].
  split_and!.
  - congruence.
  - intros m. by rewrite Hp'.
  - done.
  - by eapply shrinks_trans.
  - intros m Hm. rewrite Hfoot'; [by apply Hfoot|].
    intros Hcm. apply Hm. eapply within_trans; [|by eapply within_shrinks].
    econstructor; [constructor|]. by apply Hsh.
  - done.
  - intros x Hx. rewrite Hfoot'; [apply Hrest; by right|].
    apply (bounded_acyclic (S j)); [|done].
    by eapply bounded_shrinks.
Qed.

Lemma clean_whitespace_total fuel node preserve h j :
  parents_ok h → (∀ p, NoDup (children (deref h p))) →
  bounded j h node → j ≤ fuel →
  ∃ h', clean_whitespace fuel node preserve h = Ok h'
    ∧ length h' = length h
    ∧ (∀ m, parent (deref h' m) = parent (deref h m))
    ∧ (∀ p, NoDup (children (deref h' p)))
    ∧ shrinks h h'
    ∧ (∀ m, ¬ within h node m → children (deref h' m) = children (deref h m)).
Proof.
  revert node preserve h j.
  induction fuel as [|fuel IH]; intros node preserve h j Hpar Hnd Hb Hj.
  { apply bounded_pos in Hb. lia. }
  destruct j as [|j]; [done|]. cbn [clean_whitespace].
  set (pres := preserve || _).
  match goal with |- ∃ h', foldM ?body _ _ = _ ∧ _ =>
    destruct (foldM_total (cw_inv h node) body (children (deref h node)) h)
      as (h' & Hrun & Hinv) end.
  - split_and!; try done. apply shrinks_refl.
  - intros c rest hc Hinv.
    assert (∀ h1, cw_inv h node (c :: rest) h1 →
              ∃ t', clean_whitespace fuel c pres h1 = Ok t'
                    ∧ cw_inv h node rest t') as Hrec.
    { intros h1 Hinv1.
      pose proof (cw_inv_parents_ok _ _ _ _ Hpar Hinv1) as Hpar1.
      pose proof Hinv1 as (Hlen1 & Hp1 & Hnd1 & Hsh1 & _ & _ & Hrest1).
      destruct (IH c pres h1 j Hpar1 Hnd1)
        as (t' & Ht' & Hlen' & Hp' & Hnd' & Hsh' & Hfoot'); [|lia|].
      { eapply bounded_shrinks; [done|]. apply Hb, Hsh1, Hrest1. left. }
      exists t'. split; [done|]. by eapply cw_inv_rec. }
    destruct (tag (deref hc c)); [by apply Hrec|].
    destruct pres; [exists hc; split; [done|by eapply cw_inv_skip]|].
    assert (cw_inv h node (c :: rest) (replace_cr_and_tab c hc)) as Hinv1.
    { eapply cw_inv_frame; [..|done].
      - apply length_replace_cr_and_tab.
      - intros. by apply replace_cr_and_tab_frame.
      - intros. by apply replace_cr_and_tab_frame. }
    case_bool_decide; [by apply cw_inv_remove|by apply Hrec].
  - destruct Hinv as (?&?&?&?&?&_). by exists h'.
Qed.

Lemma whitespace_pass_total fuel root st :
  wf root st.1 → length st.1 ≤ fuel →
  ∃ st', whitespace_pass fuel root st = Ok st'
    ∧ wf root st'.1 ∧ length st'.1 = length st.1.
Proof.
  intros Hwf Hfuel. unfold whitespace_pass, ensure_matching_sections.
  destruct (clean_whitespace_total fuel root false st.1 (length st.1))
    as (h' & -> & Hlen & Hp & Hnd & Hsh & _);
    [apply Hwf|apply Hwf|by apply bounded_root|done|].
  simpl. eexists. split; [done|]. simpl. split; [|done]. split.
  - intros p c Hc. rewrite Hp. by apply (wf_parents _ _ Hwf), Hsh.
  - done.
  - intros p c Hc. rewrite Hlen. by eapply wf_range, Hsh.
  - rewrite Hp. apply Hwf.
  - rewrite Hlen. apply Hwf.
Qed.

Lemma render_document_total fuel root h :
  wf root h → length h ≤ fuel → ∃ out, render_document fuel h root = Ok out.
Proof.
  intros Hwf Hfuel. unfold render_document.
  assert (∀ c, c ∈ children (deref h root) →
            ∃ t, render_node fuel h c 0 false = Ok t) as Hchild.
  { intros c Hc. apply (render_node_total _ _ _ _ _ (length h)); [|done].
    eapply bounded_reachable; [done|]. econstructor; [constructor|done]. }
  assert (∃ first,
            match List.find (λ c, is_doctype (deref h c))
                    (children (deref h root)) with
            | Some d => render_node fuel h d 0 false
            | None => Ok (lit "<!DOCTYPE html>")
            end = Ok first) as [first ->].
  { destruct (List.find _ _) as [d|] eqn:Hfind; [|by eexists].
    apply find_some in Hfind as [Hd%list_elem_of_In _]. by apply Hchild. }
  simpl.
  destruct (List.find (λ c, bool_decide (tag (deref h c) = Some (lit "html")))
              (children (deref h root))) as [n|] eqn:Hfind.
  - apply find_some in Hfind as [Hn%list_elem_of_In _].
    destruct (Hchild n Hn) as [r ->]. simpl. by eexists.
  - match goal with |- context [traverse ?f ?l] =>
      destruct (traverse_total f l) as [rendered ->] end.
    { intros c [_ Hc]%list_elem_of_filter. by apply Hchild. }
    simpl. destruct (filter _ rendered); simpl; by eexists.
Qed.

Lemma normalize_total fuel root st :
  wf root st.1 → length st.1 + 2 ≤ fuel →
  ∃ st', normalize fuel root st = Ok st'
    ∧ wf root st'.1 ∧ length st'.1 ≤ length st.1 + 2.
Proof.
  intros Hwf Hfuel. unfold normalize.
  destruct (remove_redundant_wrappers_total fuel root st Hwf)
    as (s1 & -> & Hwf1 & Hl1); [lia|]. simpl.
  destruct (remove_empty_headings_total fuel root s1 Hwf1)
    as (s2 & -> & Hwf2 & Hl2); [lia|]. simpl.
  destruct (remove_empty_italics_total fuel root s2 Hwf2)
    as (s3 & -> & Hwf3 & Hl3); [lia|]. simpl.
  destruct (add_alt_text_total fuel root s3 Hwf3)
    as (s4 & -> & Hwf4 & Hl4); [lia|]. simpl.
  destruct (normalize_headings_total fuel root s4 Hwf4)
    as (s5 & -> & Hwf5 & Hl5); [lia|]. simpl.
  destruct (move_footer_elements_total fuel root s5 Hwf5)
    as (s6 & -> & Hwf6 & Hl6); [lia|]. simpl.
  destruct (whitespace_pass_total fuel root s6 Hwf6)
    as (s7 & Hrun & Hwf7 & Hl7); [lia|].
  unfold whitespace_pass in Hrun.
  apply bind_Ok in Hrun as (h7 & -> & [= <-]). simpl in *.
  eexists. split; [done|]. simpl. split; [done|lia].
Qed.

(** ** The tree builder *)

(** X1. The handlers of [DOMBuilder] never raise: whatever calls the
    tokenizer makes and in whatever order (stray end tags, text before any
    element, unclosed elements), every handler returns.  The one operation
    of a handler that can raise is [self.stack[-1]], and the stack is never
    empty, because [handle_endtag] never pops the root.  The tree built is
    well-formed: every child points back at the node that lists it, no node
    is listed twice, the root (the node allocated first) has no parent; and
    it has at most one node per call besides the root.  What the tokenizer
    itself may raise before it calls a handler is not covered. *)
Theorem builder_handlers_never_raise (evs : list event) :
  ∃ b, foldM handle evs DOMBuilder_init = Ok b
    ∧ stack b ≠ []
    ∧ root b = 0
    ∧ wf 0 (mem b)
    ∧ length (mem b) ≤ S (length evs).
Proof.
  destruct (feed_total evs DOMBuilder_init builder_wf_init)
    as (b & Hrun & (Hwf & Hstack & _) & Hroot & Hlen).
  simpl in Hroot, Hlen. exists b. rewrite Hroot in Hwf.
  split_and!; [done|done|done|done|lia].
Qed.

(** ** The whole pipeline *)

(** X2. The passes of [process_file], run on a well-formed tree with
    enough fuel, all return, and the tree they leave is well-formed again:
    parent back-references and children lists still agree and no node is
    listed twice, whatever was unwrapped, removed or moved.  The pipeline
    allocates at most two nodes (a [main] and a [footer]). *)
Theorem normalize_keeps_tree_well_formed (fuel : nat) (root : ref) (st : state) :
  wf root st.1 → length st.1 + 2 ≤ fuel →
  ∃ st', normalize fuel root st = Ok st'
    ∧ wf root st'.1
    ∧ length st'.1 ≤ length st.1 + 2.
Proof. apply normalize_total. Qed.

(** [<body><div><div><p>© x</p></div></div><h1> </h1><i></i><img></body>]:
    one [div] is unwrapped, the heading and the italic are removed, the
    image gets its [alt], a [main] and a [footer] are made and the remaining
    [div] is moved under the footer. *)
Lemma normalize_keeps_tree_well_formed_witness :
  let evs := [StartTag (lit "body") []; StartTag (lit "div") [];
              StartTag (lit "div") []; StartTag (lit "p") [];
              Data (chr_copyright :: lit " x"); EndTag (lit "p");
              EndTag (lit "div"); EndTag (lit "div");
              StartTag (lit "h1") []; Data (lit " "); EndTag (lit "h1");
              StartTag (lit "i") []; EndTag (lit "i");
              StartTag (lit "img") []; EndTag (lit "body")] in
  ∃ h, parse_html evs = Ok (0, h)
    ∧ (∃ st', normalize 12 0 (h, no_stats) = Ok st'
         ∧ wf 0 st'.1
         ∧ length st'.1 ≤ length (h, no_stats).1 + 2)
    ∧ ∃ st', normalize 12 0 (h, no_stats) = Ok st'
        ∧ st'.2 = mkStats 1 1 1 1 0 1
        ∧ length st'.1 = length h + 2.
Proof.
  eexists.
  match goal with |- ?A ∧ _ => assert A as Hparse by (vm_compute; reflexivity) end.
  split; [exact Hparse|]. split.
  - apply (normalize_keeps_tree_well_formed 12 0 (_, no_stats)
             (parse_html_wf _ _ _ Hparse)).
    clear. vm_compute. lia.
  - clear. eexists. split; [vm_compute; reflexivity|]. split; reflexivity.
Defined.

(** X3. The passes and the serializer return on every well-formed tree:
    run in the order of [process_file], the seven passes and then
    [render_document] all return a result; none raises ([ValueError] from
    [list.index] or [list.remove], [IndexError]) and the recursion is no
    deeper than the number of nodes plus two.  The parse before them and the
    [validate_html] re-parse after them are not covered. *)
Theorem passes_and_render_return (fuel : nat) (root : ref) (st : state) :
  wf root st.1 → length st.1 + 2 ≤ fuel →
  ∃ st' output,
    normalize fuel root st = Ok st'
    ∧ render_document fuel st'.1 root = Ok output.
Proof.
  intros Hwf Hfuel.
  destruct (normalize_total fuel root st Hwf Hfuel)
    as (st' & Hrun & Hwf' & Hlen').
  destruct (render_document_total fuel root st'.1 Hwf') as [out Hout]; [lia|].
  by exists st', out.
Qed.

(** [</p>x<div><div><section>© y</section></div></div>]: a stray end tag,
    text outside any element, a wrapper to unwrap, no [html], [body] or
    [main]. *)
Lemma passes_and_render_return_witness :
  let evs := [EndTag (lit "p"); Data (lit "x"); StartTag (lit "div") [];
              StartTag (lit "div") []; StartTag (lit "section") [];
              Data (chr_copyright :: lit " y")] in
  ∃ h, parse_html evs = Ok (0, h)
    ∧ ∃ st' output,
        normalize 8 0 (h, no_stats) = Ok st'
        ∧ render_document 8 st'.1 0 = Ok output.
Proof.
  eexists.
  match goal with |- ?A ∧ _ => assert A as Hparse by (vm_compute; reflexivity) end.
  split; [exact Hparse|].
  apply (passes_and_render_return 8 0 (_, no_stats)
           (parse_html_wf _ _ _ Hparse)).
  clear. vm_compute. lia.
Defined.

(** ** The wrapper loop *)

Lemma wrappers_loop_count rounds fuel root st st' :
  wf root st.1 →
  remove_redundant_wrappers_loop rounds fuel root st = Ok st' →
  div_unwrapped st'.2 + attached_count st'.1
    ≤ div_unwrapped st.2 + attached_count st.1
  ∧ empty_headings_removed st'.2 = empty_headings_removed st.2
  ∧ empty_italics_removed st'.2 = empty_italics_removed st.2
  ∧ alt_added st'.2 = alt_added st.2
  ∧ headings_adjusted st'.2 = headings_adjusted st.2
  ∧ footer_elements_moved st'.2 = footer_elements_moved st.2.
Proof.
  revert st. induction rounds as [|rounds IH]; intros st Hwf Hrun; [done|].
  simpl in Hrun. apply bind_Ok in Hrun as (divs & Hdivs & Hrun).
  destruct (List.find _ divs) as [div|] eqn:Hfind;
    [|injection Hrun as <-; split_and!; done].
  apply find_some in Hfind as [Hdiv%list_elem_of_In _].
  destruct (iter_tags_elem _ _ _ _ _ _ Hdivs Hdiv) as (_ & _ & p & Hp).
  pose proof (iter_tags_within _ _ _ _ _ _ Hdivs Hdiv) as Hwithin.
  assert (p ≠ div) as Hne.
  { intros ->. eapply within_acyclic; [done..|constructor]. }
  destruct (wf_unwrap root st.1 div p Hwf Hp Hne)
    as (h' & Hun & Hwf' & Hlen & Hnone & Himp).
  rewrite Hun in Hrun. simpl in Hrun.
  apply IH in Hrun as (Hcount & ? & ? & ? & ? & ?); [|done]. simpl in *.
  assert (attached_count h' < attached_count st.1) as Hdec.
  { eapply attached_count_decrease; [done|done| |done].
    rewrite (wf_parents _ _ Hwf _ _ Hp). by eexists. }
  split_and!; [lia|done..].
Qed.

(** X4. The [while] loop of [remove_redundant_wrappers] terminates on
    every well-formed tree: each round that unwraps a [div] detaches one
    node for good, so the loop runs at most once per node.  It returns a
    well-formed tree in the same arena, has counted at most as many unwraps
    as there are nodes, and touches no other counter. *)
Theorem remove_redundant_wrappers_terminates
    (fuel : nat) (root : ref) (st : state) :
  wf root st.1 → length st.1 < fuel →
  ∃ st', remove_redundant_wrappers fuel root st = Ok st'
    ∧ wf root st'.1
    ∧ length st'.1 = length st.1
    ∧ div_unwrapped st'.2 ≤ div_unwrapped st.2 + length st.1
    ∧ empty_headings_removed st'.2 = empty_headings_removed st.2
    ∧ empty_italics_removed st'.2 = empty_italics_removed st.2
    ∧ alt_added st'.2 = alt_added st.2
    ∧ headings_adjusted st'.2 = headings_adjusted st.2
    ∧ footer_elements_moved st'.2 = footer_elements_moved st.2.
Proof.
  intros Hwf Hfuel.
  destruct (remove_redundant_wrappers_total fuel root st Hwf Hfuel)
    as (st' & Hrun & Hwf' & Hlen).
  exists st'. split_and!; [done..| | | | | |];
    destruct (wrappers_loop_count _ _ _ _ _ Hwf Hrun)
      as (Hcount & ? & ? & ? & ? & ?); try done.
  pose proof (attached_count_le st.1). lia.
Qed.

(** ** Node operations *)

Lemma Node_ext (a b : Node) :
  tag a = tag b → attrs a = attrs b → children a = children b →
  text a = text b → parent a = parent b → is_doctype a = is_doctype b →
  is_comment a = is_comment b → a = b.
Proof. destruct a, b. simpl. by intros -> -> -> -> -> -> ->. Qed.

Lemma heap_ext (h h' : heap) :
  length h' = length h → (∀ m, deref h' m = deref h m) → h' = h.
Proof.
  intros Hlen Hd. apply list_eq. intros i.
  destruct (decide (i < length h)) as [Hi|Hi].
  - destruct (lookup_lt_is_Some_2 h i Hi) as [x Hx].
    destruct (lookup_lt_is_Some_2 h' i ltac:(lia)) as [x' Hx'].
    specialize (Hd i).
    rewrite (deref_lookup _ _ _ Hx), (deref_lookup _ _ _ Hx') in Hd.
    by rewrite Hx, Hx', Hd.
  - by rewrite !lookup_ge_None_2 by lia.
Qed.

Lemma remove_first_snoc x l : x ∉ l → remove_first x (l ++ [x]) = l.
Proof.
  induction l as [|y l IH]; intros Hx; simpl.
  - rewrite remove_first_cons. by rewrite decide_True.
  - apply not_elem_of_cons in Hx as [Hne Hx]. rewrite remove_first_cons.
    rewrite decide_False by done. by rewrite IH.
Qed.

Lemma Node_append_frame {X} (proj : Node → X) self node h m :
  (∀ cs nd, proj (with_children cs nd) = proj nd) →
  (∀ p nd, proj (with_parent p nd) = proj nd) →
  proj (deref (Node_append self node h) m) = proj (deref h m).
Proof.
  intros Hc Hp. unfold Node_append, set_children, set_parent.
  by rewrite !(deref_alter_frame proj) by done.
Qed.

Lemma Node_remove_frame {X} (proj : Node → X) self node h m :
  (∀ cs nd, proj (with_children cs nd) = proj nd) →
  (∀ p nd, proj (with_parent p nd) = proj nd) →
  proj (deref (Node_remove self node h) m) = proj (deref h m).
Proof.
  intros Hc Hp. unfold Node_remove. destruct (index_of _ _); [|done].
  unfold set_children, set_parent.
  by rewrite !(deref_alter_frame proj) by done.
Qed.

(** X5. [append] followed by [remove] is a round trip: appending a node
    that has no parent and is not yet a child, then removing it again,
    gives back the arena as it was, every field of every node included. *)
Theorem Node_append_then_remove (self node : ref) (h : heap) :
  self < length h →
  node ∉ children (deref h self) →
  parent (deref h node) = None →
  Node_remove self node (Node_append self node h) = h.
Proof.
  intros Hself Hnot Hpar. apply heap_ext.
  { by rewrite length_Node_remove, length_Node_append. }
  intros m. apply Node_ext.
  - by rewrite tag_Node_remove, tag_Node_append.
  - by rewrite (Node_remove_frame attrs), (Node_append_frame attrs).
  - rewrite children_Node_remove, length_Node_append, !children_Node_append.
    rewrite (decide_True (P := self = self ∧ _)) by done.
    case_decide as Hm; [|done]. destruct Hm as [-> _].
    by apply remove_first_snoc.
  - by rewrite (Node_remove_frame text), (Node_append_frame text).
  - rewrite parent_Node_remove, length_Node_append, !parent_Node_append.
    rewrite children_Node_append, (decide_True (P := self = self ∧ _)) by done.
    destruct (decide (m = node ∧ node < length h)) as [[-> Hlt]|Hn].
    + rewrite decide_True; [done|]. split_and!; [done..|].
      apply elem_of_app. right. by left.
    + rewrite decide_False; [done|]. naive_solver.
  - by rewrite (Node_remove_frame is_doctype), (Node_append_frame is_doctype).
  - by rewrite (Node_remove_frame is_comment), (Node_append_frame is_comment).
Qed.

Lemma Node_append_then_remove_witness :
  let h := [Node_init (Some (lit "div")) [] None false false;
            Node_init None [] (Some (lit "x")) false false] in
  Node_remove 0 1 (Node_append 0 1 h) = h.
Proof.
  apply (Node_append_then_remove 0 1
           [Node_init (Some (lit "div")) [] None false false;
            Node_init None [] (Some (lit "x")) false false]).
  - simpl. lia.
  - simpl. apply not_elem_of_nil.
  - reflexivity.
Defined.

(** [<div><div><p>x</p></div></div>]: the outer [div] is unwrapped, the
    loop stops after its second round. *)
Lemma remove_redundant_wrappers_terminates_witness :
  let evs := [StartTag (lit "div") []; StartTag (lit "div") [];
              StartTag (lit "p") []; Data (lit "x")] in
  ∃ h, parse_html evs = Ok (0, h)
    ∧ ∃ st', remove_redundant_wrappers 6 0 (h, no_stats) = Ok st'
        ∧ wf 0 st'.1
        ∧ length st'.1 = length h
        ∧ div_unwrapped st'.2 ≤ 0 + length h
        ∧ empty_headings_removed st'.2 = 0
        ∧ empty_italics_removed st'.2 = 0
        ∧ alt_added st'.2 = 0
        ∧ headings_adjusted st'.2 = 0
        ∧ footer_elements_moved st'.2 = 0.
Proof.
  eexists.
  match goal with |- ?A ∧ _ => assert A as Hparse by (vm_compute; reflexivity) end.
  split; [exact Hparse|].
  apply (remove_redundant_wrappers_terminates 6 0 (_, no_stats)).
  - exact (parse_html_wf _ _ _ Hparse).
  - clear. vm_compute. lia.
Defined.

(** ** Attributes *)

Lemma dict_get_cons k k' v d :
  dict_get k ((k', v) :: d) = if decide (k' = k) then Some v else dict_get k d.
Proof. done. Qed.

Lemma dict_set_cons k v k' v' d :
  dict_set k v ((k', v') :: d)
  = if decide (k' = k) then (k, v) :: d else (k', v') :: dict_set k v d.
Proof. done. Qed.

Lemma dict_get_set_eq k v d : dict_get k (dict_set k v d) = Some v.
Proof.
  induction d as [|[k' v'] d IH].
  - cbn [dict_set]. rewrite dict_get_cons. by rewrite decide_True.
  - rewrite dict_set_cons. destruct (decide (k' = k)) as [->|Hne].
    + rewrite dict_get_cons. by rewrite decide_True.
    + rewrite dict_get_cons. by rewrite decide_False.
Qed.

Lemma dict_get_set_ne k k' v d :
  k ≠ k' → dict_get k' (dict_set k v d) = dict_get k' d.
Proof.
  intros Hne. induction d as [|[k'' v''] d IH].
  - cbn [dict_set]. rewrite dict_get_cons. by rewrite decide_False.
  - rewrite dict_set_cons. destruct (decide (k'' = k)) as [->|Hne'].
    + rewrite !dict_get_cons. by rewrite !decide_False.
    + rewrite !dict_get_cons. by rewrite IH.
Qed.

Lemma dict_keys_set k v d :
  map fst (dict_set k v d)
  = if decide (k ∈ map fst d) then map fst d else map fst d ++ [k].
Proof.
  induction d as [|[k' v'] d IH].
  - cbn [dict_set map fst]. rewrite decide_False; [done|]. apply not_elem_of_nil.
  - rewrite dict_set_cons. destruct (decide (k' = k)) as [->|Hne].
    + cbn [map fst]. rewrite decide_True; [done|]. left.
    + cbn [map fst]. rewrite IH. destruct (decide (k ∈ map fst d)) as [Hin|Hin].
      * rewrite decide_True; [done|]. by right.
      * rewrite decide_False; [done|]. rewrite not_elem_of_cons. naive_solver.
Qed.

Lemma dict_keys_set_NoDup k v d :
  NoDup (map fst d) → NoDup (map fst (dict_set k v d)).
Proof.
  intros Hnd. rewrite dict_keys_set. case_decide as Hk; [done|].
  apply NoDup_app. split_and!; [done| |apply NoDup_singleton].
  intros x Hx ->%list_elem_of_singleton. done.
Qed.

Lemma attrs_dict_from (k : list N) (ats : list (list N * option (list N)))
    (d : list (list N * list N)) :
  dict_get k (foldl (λ d nv, dict_set nv.1 (or_empty nv.2) d) d ats)
  = match list.last (filter (λ nv, nv.1 = k) ats) with
    | Some nv => Some (or_empty nv.2)
    | None => dict_get k d
    end.
Proof.
  revert d. induction ats as [|[n v] ats IH]; intros d; simpl; [done|].
  rewrite IH. rewrite filter_cons. simpl.
  destruct (decide (n = k)) as [->|Hne].
  - rewrite last_cons.
    destruct (list.last (filter _ ats)); [done|]. apply dict_get_set_eq.
  - destruct (list.last (filter _ ats)); [done|]. by apply dict_get_set_ne.
Qed.

(** X7. The attribute dictionary the builder makes from the attribute list
    of a start tag: looking up a name gives the value of its last
    occurrence in the list (a repeated attribute is overwritten), an
    attribute written without a value has the empty string, a name that
    does not occur is absent; and no name is held twice. *)
Theorem attrs_dict_last_value_wins
    (ats : list (list N * option (list N))) (k : list N) :
  dict_get k (attrs_dict ats)
  = (λ nv, or_empty nv.2) <$> list.last (filter (λ nv, nv.1 = k) ats)
  ∧ NoDup (map fst (attrs_dict ats)).
Proof.
  split.
  - unfold attrs_dict. rewrite attrs_dict_from.
    by destruct (list.last _).
  - unfold attrs_dict.
    assert (NoDup (map fst ([] : list (list N * list N)))) as Hnd
      by apply NoDup_nil_2.
    revert Hnd. generalize ([] : list (list N * list N)).
    induction ats as [|[n v] ats IH]; intros d Hnd; simpl; [done|].
    apply IH. by apply dict_keys_set_NoDup.
Qed.

(** ** Whitespace *)

Lemma foldM_const {A S} (body : A → S → res S) (l : list A) (s : S) :
  (∀ x, x ∈ l → body x s = Ok s) → foldM body l s = Ok s.
Proof.
  induction l as [|x l IH]; intros Hbody; simpl; [done|].
  rewrite (Hbody x) by left. simpl. apply IH. intros y Hy. apply Hbody.
  by right.
Qed.

Lemma preserve_tag_truthy (t : option (list N)) :
  tag_in t PRESERVE_WHITESPACE_TAGS = true → truthy t = true.
Proof.
  destruct t as [x|]; [|done]. simpl. unfold str_in.
  intros Hx%bool_decide_eq_true.
  unfold PRESERVE_WHITESPACE_TAGS in Hx. simpl in Hx.
  repeat (apply elem_of_cons in Hx as [->|Hx]; [done|]).
  by apply elem_of_nil in Hx.
Qed.

Lemma clean_whitespace_preserved fuel node h j :
  bounded j h node → j ≤ fuel → clean_whitespace fuel node true h = Ok h.
Proof.
  revert node j. induction fuel as [|fuel IH]; intros node j Hb Hj.
  { apply bounded_pos in Hb. lia. }
  destruct j as [|j]; [done|]. cbn [clean_whitespace]. cbn [orb].
  apply foldM_const. intros c Hc.
  destruct (tag (deref h c)); [|done].
  apply (IH c j); [by apply Hb|lia].
Qed.

(** X8. Whitespace-preserving elements are left exactly as they are:
    [clean_whitespace] called with [preserve] set, or on a [pre], [code],
    [textarea], [script] or [style] element, returns the arena unchanged,
    however deep the subtree; no text below is rewritten or removed. *)
Theorem clean_whitespace_keeps_preformatted
    (fuel : nat) (node : ref) (preserve : bool) (h : heap) (j : nat) :
  bounded j h node → j ≤ fuel →
  preserve = true
  ∨ tag_in (tag (deref h node)) PRESERVE_WHITESPACE_TAGS = true →
  clean_whitespace fuel node preserve h = Ok h.
Proof.
  intros Hb Hj Hpres.
  destruct fuel as [|fuel]; [apply bounded_pos in Hb; lia|].
  destruct j as [|j]; [done|]. cbn [clean_whitespace].
  assert (preserve
          || (if truthy (tag (deref h node))
              then tag_in (tag (deref h node)) PRESERVE_WHITESPACE_TAGS
              else false) = true) as ->.
  { destruct Hpres as [->|Ht]; [done|].
    rewrite (preserve_tag_truthy _ Ht), Ht. apply orb_true_r. }
  apply foldM_const. intros c Hc.
  destruct (tag (deref h c)); [|done].
  apply (clean_whitespace_preserved fuel c h j); [by apply Hb|lia].
Qed.

(** [<pre> <b>	x</b> </pre>]: the spaces and the tab stay. *)
Lemma clean_whitespace_keeps_preformatted_witness :
  let evs := [StartTag (lit "pre") []; Data (lit " ");
              StartTag (lit "b") []; Data [chr_tab; 120%N]; EndTag (lit "b");
              Data (lit " ")] in
  ∃ h, parse_html evs = Ok (0, h)
       ∧ clean_whitespace 6 1 false h = Ok h.
Proof.
  eexists.
  match goal with |- ?A ∧ _ => assert A as Hparse by (vm_compute; reflexivity) end.
  split; [exact Hparse|].
  apply (clean_whitespace_keeps_preformatted 6 1 false _ 6).
  - refine (bounded_reachable 0 _ 1 (parse_html_wf _ _ _ Hparse) _).
    clear. apply (within_child _ 0 0 1); [constructor|]. vm_compute. left.
  - lia.
  - right. clear. vm_compute. reflexivity.
Defined.

(** ** Alternative texts *)

(** The test [add_alt_text] makes on the attributes of an image:
    [not alt or alt.strip() == ""]. *)
Definition lacks_alt (a : list (list N * list N)) : bool :=
  let alt := dict_get (lit "alt") a in
  negb (truthy alt) || bool_decide (strip (or_empty alt) = []).

Lemma attrs_set_attrs n a h m :
  attrs (deref (set_attrs n a h) m)
  = if decide (m = n ∧ n < length h) then a else attrs (deref h m).
Proof. unfold set_attrs. rewrite deref_alter. by case_decide. Qed.

Lemma iter_tags_ext fuel h h' names node :
  (∀ m, tag (deref h' m) = tag (deref h m)) →
  (∀ m, children (deref h' m) = children (deref h m)) →
  iter_tags fuel h' names node = iter_tags fuel h names node.
Proof.
  intros Ht Hc. revert node.
  induction fuel as [|fuel IH]; intros node; simpl; [done|].
  rewrite Hc.
  match goal with |- _ <$> traverse ?f ?l = _ <$> traverse ?g ?l =>
    rewrite (traverse_ext f g l); [done|] end.
  intros child _. by rewrite Ht, IH.
Qed.

Lemma lacks_alt_described (a : list (list N * list N)) :
  lacks_alt (dict_set (lit "alt") (lit "Image description") a) = false.
Proof. unfold lacks_alt. by rewrite dict_get_set_eq. Qed.

Lemma add_alt_loop (images : list nat) (st0 st' : state) :
  foldM (λ image (st : state),
    let alt := dict_get (lit "alt") (attrs (deref st.1 image)) in
    if negb (truthy alt) || bool_decide (strip (or_empty alt) = [])
    then Ok (set_attrs image
               (dict_set (lit "alt") (lit "Image description")
                  (attrs (deref st.1 image))) st.1,
             count_alt_added st.2)
    else Ok st) images st0 = Ok st' →
  length st'.1 = length st0.1
  ∧ (∀ m, tag (deref st'.1 m) = tag (deref st0.1 m)
        ∧ children (deref st'.1 m) = children (deref st0.1 m)
        ∧ text (deref st'.1 m) = text (deref st0.1 m)
        ∧ parent (deref st'.1 m) = parent (deref st0.1 m))
  ∧ (∀ m, attrs (deref st'.1 m)
          = if decide (m ∈ images ∧ m < length st0.1
                       ∧ lacks_alt (attrs (deref st0.1 m)) = true)
            then dict_set (lit "alt") (lit "Image description")
                   (attrs (deref st0.1 m))
            else attrs (deref st0.1 m))
  ∧ alt_added st0.2 ≤ alt_added st'.2 ≤ alt_added st0.2 + length images
  ∧ div_unwrapped st'.2 = div_unwrapped st0.2
  ∧ empty_headings_removed st'.2 = empty_headings_removed st0.2
  ∧ empty_italics_removed st'.2 = empty_italics_removed st0.2
  ∧ headings_adjusted st'.2 = headings_adjusted st0.2
  ∧ footer_elements_moved st'.2 = footer_elements_moved st0.2.
Proof.
  revert st0. induction images as [|x images IH]; intros st0 Hrun.
  { injection Hrun as <-. split_and!; try done; simpl; lia. }
  cbn [foldM] in Hrun. apply bind_Ok in Hrun as (st1 & Hbody & Hrun).
  apply IH in Hrun as (Hlen & Hsame & Hattrs & Hcount & ? & ? & ? & ? & ?).
  clear IH. cbn zeta in Hbody.
  change (negb _ || _) with (lacks_alt (attrs (deref st0.1 x))) in Hbody.
  destruct (lacks_alt (attrs (deref st0.1 x))) eqn:Hlacks;
    injection Hbody as <-; simpl in *.
  - rewrite length_set_attrs in *.
    split_and!; try done; try lia; try congruence.
    + intros m. destruct (Hsame m) as (-> & -> & -> & ->).
      unfold set_attrs. by frame.
    + intros m. rewrite Hattrs, !attrs_set_attrs.
      destruct (decide (m = x ∧ x < length st0.1)) as [[-> Hlt]|Hne].
      * rewrite lacks_alt_described.
        rewrite decide_False by naive_solver.
        rewrite decide_True; [done|]. split_and!; [left|done..].
      * destruct (decide (m = x)) as [->|Hmx].
        { rewrite !decide_False by naive_solver. done. }
        destruct (decide (m ∈ images ∧ m < length st0.1
                          ∧ lacks_alt (attrs (deref st0.1 m)) = true))
          as [(? & ? & ?)|Hn].
        { rewrite decide_True; [done|]. split_and!; [by right|done..]. }
        rewrite decide_False; [done|].
        intros (Hin & ? & ?). apply Hn.
        apply elem_of_cons in Hin as [->|Hin]; done.
  - split_and!; try done; try lia.
    intros m. rewrite Hattrs.
    destruct (decide (m ∈ images ∧ m < length st0.1
                      ∧ lacks_alt (attrs (deref st0.1 m)) = true))
      as [(? & ? & ?)|Hn].
    + rewrite decide_True; [done|]. split_and!; [by right|done..].
    + rewrite decide_False; [done|].
      intros (Hin & ? & ?). apply Hn.
      apply elem_of_cons in Hin as [->|Hin]; [congruence|done].
Qed.

Lemma not_lacks_alt (a : list (list N * list N)) :
  lacks_alt a = false →
  ∃ alt, dict_get (lit "alt") a = Some alt ∧ strip alt ≠ [].
Proof.
  unfold lacks_alt. cbn zeta.
  intros [Htruthy Hstrip%bool_decide_eq_false]%orb_false_iff.
  destruct (dict_get (lit "alt") a) as [alt|]; [|done]. by exists alt.
Qed.

(** X9. After [add_alt_text] every [img] element of the tree has an [alt]
    attribute that is not blank.  An image that had none, or a blank one,
    gets ["Image description"] (its other attributes stay); every other
    node keeps its attributes.  The pass writes nothing but attributes, so
    the images of the tree are the same before and after, and it counts at
    most one addition per image. *)
Theorem add_alt_text_gives_every_image_alt
    (fuel : nat) (root : ref) (st st' : state) :
  add_alt_text fuel root st = Ok st' →
  ∃ images,
    iter_tags fuel st.1 [lit "img"] root = Ok images
    ∧ iter_tags fuel st'.1 [lit "img"] root = Ok images
    ∧ (∀ img, img ∈ images →
         ∃ alt, dict_get (lit "alt") (attrs (deref st'.1 img)) = Some alt
                ∧ strip alt ≠ [])
    ∧ (∀ m, attrs (deref st'.1 m)
            = if decide (m ∈ images ∧ lacks_alt (attrs (deref st.1 m)) = true)
              then dict_set (lit "alt") (lit "Image description")
                     (attrs (deref st.1 m))
              else attrs (deref st.1 m))
    ∧ (∀ m, tag (deref st'.1 m) = tag (deref st.1 m)
          ∧ children (deref st'.1 m) = children (deref st.1 m)
          ∧ text (deref st'.1 m) = text (deref st.1 m)
          ∧ parent (deref st'.1 m) = parent (deref st.1 m))
    ∧ alt_added st.2 ≤ alt_added st'.2 ≤ alt_added st.2 + length images.
Proof.
  unfold add_alt_text. intros Hrun.
  apply bind_Ok in Hrun as (images & Himages & Hrun). exists images.
  apply add_alt_loop in Hrun as (Hlen & Hsame & Hattrs & Hcount & _).
  assert (∀ m, m ∈ images → m < length st.1) as Hrange.
  { intros m Hm. apply tagged_in_range.
    destruct (iter_tags_elem _ _ _ _ _ _ Himages Hm) as (Ht & _).
    by destruct (tag (deref st.1 m)). }
  assert (∀ m, attrs (deref st'.1 m)
            = if decide (m ∈ images ∧ lacks_alt (attrs (deref st.1 m)) = true)
              then dict_set (lit "alt") (lit "Image description")
                     (attrs (deref st.1 m))
              else attrs (deref st.1 m)) as Hattrs'.
  { intros m. rewrite Hattrs.
    destruct (decide (m ∈ images ∧ lacks_alt (attrs (deref st.1 m)) = true))
      as [[? ?]|Hn].
    - rewrite decide_True; [done|]. split_and!; [done| |done]. by apply Hrange.
    - rewrite decide_False; [done|]. naive_solver. }
  split_and!; try done.
  - rewrite <-Himages. apply iter_tags_ext; intros m; by destruct (Hsame m) as (?&?&?&?).
  - intros img Himg. rewrite Hattrs'.
    destruct (lacks_alt (attrs (deref st.1 img))) eqn:Hlacks.
    + rewrite decide_True by done. apply not_lacks_alt, lacks_alt_described.
    + rewrite decide_False by naive_solver. by apply not_lacks_alt.
  - lia.
  - lia.
Qed.

(** [<img src=a><img alt=" "><img alt=photo>]: the first two images get
    the description, the third keeps its own. *)
Lemma add_alt_text_gives_every_image_alt_witness :
  let evs := [StartTag (lit "img") [(lit "src", Some (lit "a"))];
              StartTag (lit "img") [(lit "alt", Some (lit " "))];
              StartTag (lit "img") [(lit "alt", Some (lit "photo"))]] in
  ∃ h st', parse_html evs = Ok (0, h)
    ∧ add_alt_text 5 0 (h, no_stats) = Ok st'
    ∧ alt_added st'.2 = 2
    ∧ ∃ images,
        iter_tags 5 h [lit "img"] 0 = Ok images
        ∧ iter_tags 5 st'.1 [lit "img"] 0 = Ok images
        ∧ (∀ img, img ∈ images →
             ∃ alt, dict_get (lit "alt") (attrs (deref st'.1 img)) = Some alt
                    ∧ strip alt ≠ [])
        ∧ (∀ m, attrs (deref st'.1 m)
                = if decide (m ∈ images ∧ lacks_alt (attrs (deref h m)) = true)
                  then dict_set (lit "alt") (lit "Image description")
                         (attrs (deref h m))
                  else attrs (deref h m))
        ∧ (∀ m, tag (deref st'.1 m) = tag (deref h m)
              ∧ children (deref st'.1 m) = children (deref h m)
              ∧ text (deref st'.1 m) = text (deref h m)
              ∧ parent (deref st'.1 m) = parent (deref h m))
        ∧ 0 ≤ alt_added st'.2 ≤ 0 + length images.
Proof.
  eexists _, _.
  match goal with |- ?A ∧ _ => assert A as Hparse by (vm_compute; reflexivity) end.
  split; [exact Hparse|]. clear Hparse.
  match goal with |- ?A ∧ _ => assert A as Hrun by (vm_compute; reflexivity) end.
  split; [exact Hrun|].
  split; [clear; vm_compute; reflexivity|].
  exact (add_alt_text_gives_every_image_alt 5 0 (_, no_stats) _ Hrun).
Defined.

(** ** Escaping *)

(** What [html.escape] writes for one character. *)
Definition escape_char (c : N) : list N :=
  if decide (c = 38%N) then lit "&amp;"
  else if decide (c = 60%N) then lit "&lt;"
  else if decide (c = 62%N) then lit "&gt;"
  else if decide (c = 34%N) then lit "&quot;"
  else if decide (c = 39%N) then lit "&#x27;"
  else [c].

Lemma html_escape_cons (c : N) (s : list N) :
  html_escape (c :: s) = escape_char c ++ html_escape s.
Proof. done. Qed.

Lemma escape_char_cons (c : N) :
  ∃ d rest, escape_char c = d :: rest.
Proof. unfold escape_char. repeat case_decide; by eexists _, _. Qed.

Lemma escape_char_inj (c d : N) (x y : list N) :
  escape_char c ++ x = escape_char d ++ y → c = d ∧ x = y.
Proof.
  unfold escape_char.
  repeat case_decide; subst; vm_compute lit; simpl; intros Heq;
    by simplify_eq.
Qed.

Lemma escape_char_plain (c d : N) :
  d ∈ escape_char c → d ≠ 60%N ∧ d ≠ 62%N ∧ d ≠ 34%N ∧ d ≠ 39%N.
Proof.
  unfold escape_char.
  repeat case_decide; vm_compute lit; intros Hd;
    repeat (apply elem_of_cons in Hd as [->|Hd]; [done|]);
    by apply elem_of_nil in Hd.
Qed.

(** X10. The escaping [render_attributes] applies to attribute values
    loses nothing and cannot break out of the quotes: two values with the
    same escaped form are the same value, and the escaped form holds no
    double quote, single quote, [<] or [>]. *)
Theorem html_escape_lossless_and_quote_free :
  (∀ s t : list N, html_escape s = html_escape t → s = t)
  ∧ (∀ (s : list N) (c : N),
       c ∈ html_escape s → c ≠ 60%N ∧ c ≠ 62%N ∧ c ≠ 34%N ∧ c ≠ 39%N).
Proof.
  split.
  - intros s. induction s as [|c s IH]; intros [|d t].
    + done.
    + rewrite html_escape_cons. destruct (escape_char_cons d) as (? & ? & ->).
      done.
    + rewrite html_escape_cons. destruct (escape_char_cons c) as (? & ? & ->).
      done.
    + rewrite !html_escape_cons. intros [-> Heq]%escape_char_inj.
      f_equal. by apply IH.
  - intros s c. induction s as [|d s IH].
    + by intros ?%elem_of_nil.
    + rewrite html_escape_cons, elem_of_app.
      intros [Hc|Hc]; [by eapply escape_char_plain|by apply IH].
Qed.

(** ** Lines *)

Lemma splitlines_from_cons (cur : list N) (c : N) (s : list N) :
  splitlines_from cur (c :: s)
  = if is_linebreak c then
      rev cur ::
      match s with
      | d :: s' =>
          if (c =? chr_cr)%N && (d =? chr_lf)%N then splitlines_from [] s'
          else splitlines_from [] s
      | [] => splitlines_from [] s
      end
    else splitlines_from (c :: cur) s.
Proof. done. Qed.

Lemma splitlines_from_plain (n : nat) (s cur line : list N) :
  length s ≤ n →
  Forall (λ c, is_linebreak c = false) cur →
  line ∈ splitlines_from cur s →
  Forall (λ c, is_linebreak c = false) line.
Proof.
  revert s cur line. induction n as [|n IH]; intros s cur line Hlen Hcur.
  - destruct s; [|simpl in Hlen; lia]. simpl.
    destruct cur; [by intros ?%elem_of_nil|].
    intros ->%list_elem_of_singleton. by apply List.Forall_rev.
  - destruct s as [|c s].
    { simpl. destruct cur; [by intros ?%elem_of_nil|].
      intros ->%list_elem_of_singleton. by apply List.Forall_rev. }
    simpl in Hlen. rewrite splitlines_from_cons.
    destruct (is_linebreak c) eqn:Hc.
    + intros [->|Hin]%elem_of_cons; [by apply List.Forall_rev|].
      destruct s as [|d s'].
      { by apply elem_of_nil in Hin. }
      destruct (_ && _).
      * apply (IH s' []); [simpl in Hlen; lia|constructor|done].
      * apply (IH (d :: s') []); [lia|constructor|done].
    + apply IH; [lia|]. by constructor.
Qed.

Lemma elem_of_join (c : N) (sep : list N) (ls : list (list N)) :
  c ∈ join sep ls → c ∈ sep ∨ ∃ l, l ∈ ls ∧ c ∈ l.
Proof.
  induction ls as [|l ls IH]; [by intros ?%elem_of_nil|].
  destruct ls as [|l' ls].
  - simpl. intros Hc. right. exists l. split; [left|done].
  - change (join sep (l :: l' :: ls)) with (l ++ sep ++ join sep (l' :: ls)).
    rewrite !elem_of_app. intros [Hc|[Hc|Hc]].
    + right. exists l. split; [left|done].
    + by left.
    + destruct (IH Hc) as [?|(l0 & Hl0 & ?)]; [by left|].
      right. exists l0. split; [by right|done].
Qed.

Lemma indent_str_S (level : nat) :
  indent_str (S level) = chr_space :: chr_space :: indent_str level.
Proof. done. Qed.

Lemma elem_of_indent_str (c : N) (level : nat) :
  c ∈ indent_str level → c = chr_space.
Proof.
  induction level as [|level IH].
  - by intros ?%elem_of_nil.
  - rewrite indent_str_S, !elem_of_cons. naive_solver.
Qed.

(** X11. The only line boundary in the result of [indent_block] is the
    line feed: [splitlines] cuts the text at every line boundary Python
    knows (carriage return, vertical tab, form feed, the separators
    U+001C to U+001E, U+0085, U+2028, U+2029), and the lines are joined
    again with line feeds only. *)
Theorem indent_block_only_line_feeds (t : list N) (level : nat) :
  Forall (λ c, is_linebreak c = true → c = chr_lf) (indent_block t level).
Proof.
  apply Forall_forall. unfold indent_block. intros c Hc Hbreak.
  apply elem_of_join in Hc as [Hc|(l & Hl & Hc)].
  - by apply list_elem_of_singleton in Hc.
  - apply list_elem_of_fmap in Hl as (line & -> & Hline).
    pose proof (splitlines_from_plain (length t) t [] line
                  ltac:(done) ltac:(constructor) Hline) as Hplain.
    destruct line as [|x line]; [by apply elem_of_nil in Hc|].
    apply elem_of_app in Hc as [Hc|Hc].
    + apply elem_of_indent_str in Hc as ->. done.
    + rewrite Forall_forall in Hplain. apply Hplain in Hc. congruence.
Qed.

Lemma splitlines_from_one_line (l cur : list N) :
  Forall (λ c, is_linebreak c = false) l →
  rev cur ++ l ≠ [] →
  splitlines_from cur l = [rev cur ++ l].
Proof.
  revert cur. induction l as [|c l IH]; intros cur Hl Hne.
  - simpl. rewrite app_nil_r in *. by destruct cur.
  - apply Forall_cons in Hl as [Hc Hl].
    rewrite splitlines_from_cons, Hc. rewrite IH; [|done|].
    + simpl. by rewrite <-app_assoc.
    + simpl. rewrite <-app_assoc. simpl. by destruct (rev cur).
Qed.

Lemma splitlines_from_line_feed (l cur s : list N) :
  Forall (λ c, is_linebreak c = false) l →
  splitlines_from cur (l ++ chr_lf :: s)
  = (rev cur ++ l) :: splitlines_from [] s.
Proof.
  revert cur. induction l as [|c l IH]; intros cur Hl.
  - simpl app at 1. rewrite splitlines_from_cons. simpl.
    rewrite app_nil_r. by destruct s.
  - apply Forall_cons in Hl as [Hc Hl]. simpl app at 1.
    rewrite splitlines_from_cons, Hc, IH by done.
    simpl. by rewrite <-app_assoc.
Qed.

Lemma splitlines_join (ls : list (list N)) :
  Forall (Forall (λ c, is_linebreak c = false)) ls →
  list.last ls ≠ Some [] →
  splitlines (join [chr_lf] ls) = ls.
Proof.
  unfold splitlines. induction ls as [|l ls IH]; intros Hls Hlast; [done|].
  apply Forall_cons in Hls as [Hl Hls].
  destruct ls as [|l' ls].
  - simpl. destruct l as [|c l]; [done|].
    by rewrite splitlines_from_one_line.
  - change (join [chr_lf] (l :: l' :: ls))
      with (l ++ [chr_lf] ++ join [chr_lf] (l' :: ls)).
    simpl app at 2. rewrite splitlines_from_line_feed by done.
    simpl. f_equal. apply IH; [done|]. by rewrite last_cons_cons in Hlast.
Qed.

(** X12. [indent_block] on lines joined by line feeds: when no line holds
    a line boundary of its own and the last line is not empty, every
    non-empty line comes back with two spaces per level in front, every
    empty line stays empty, and the lines are joined as before. *)
Theorem indent_block_indents_each_line (ls : list (list N)) (level : nat) :
  Forall (Forall (λ c, is_linebreak c = false)) ls →
  list.last ls ≠ Some [] →
  indent_block (join [chr_lf] ls) level
  = join [chr_lf]
      (map (λ line, match line with
                    | [] => []
                    | _ => indent_str level ++ line
                    end) ls).
Proof.
  intros Hls Hlast. unfold indent_block. by rewrite splitlines_join.
Qed.

Lemma indent_block_indents_each_line_witness :
  indent_block (join [chr_lf] [lit "<p>"; []; lit "</p>"]) 2
  = join [chr_lf] [lit "    <p>"; []; lit "    </p>"].
Proof.
  apply (indent_block_indents_each_line [lit "<p>"; []; lit "</p>"] 2).
  - vm_compute lit. repeat constructor.
  - vm_compute. discriminate.
Defined.

(** ** What [iter_tags] yields *)

(** [element_below h a x]: [x] is reached from [a] through children that
    are all elements (nodes with a non-empty tag), [x] included: the nodes
    the recursion of [iter_tags] visits. *)
Inductive element_below (h : heap) (a : ref) : ref → Prop :=
  | element_child c :
      c ∈ children (deref h a) → truthy (tag (deref h c)) = true →
      element_below h a c
  | element_deeper c x :
      c ∈ children (deref h a) → truthy (tag (deref h c)) = true →
      element_below h c x → element_below h a x.

Lemma element_below_within h a x :
  element_below h a x → ∃ c, c ∈ children (deref h a) ∧ within h c x.
Proof.
  induction 1 as [a c Hc Ht|a c x Hc Ht Hx (c' & Hc' & Hw)].
  - exists c. split; [done|constructor].
  - exists c. split; [done|].
    eapply within_trans; [|done]. econstructor; [constructor|done].
Qed.

Lemma iter_tags_spec fuel h names node l :
  iter_tags fuel h names node = Ok l →
  ∀ x, x ∈ l
       ↔ element_below h node x
         ∧ (filter (λ name, name ≠ []) names = []
            ∨ tag_in (tag (deref h x)) (filter (λ name, name ≠ []) names)
              = true).
Proof.
  revert node l. induction fuel as [|fuel IH]; intros node l; simpl; [done|].
  intros Hrun x. apply fmap_Ok in Hrun as (ys & Hys & ->).
  apply traverse_Ok in Hys. split.
  - intros Hx. apply elem_of_flatten in Hx as (y & Hy & Hx).
    apply list_elem_of_lookup in Hy as [i Hi].
    destruct (Forall2_lookup_r _ _ _ _ _ Hys Hi) as (child & Hchild & Hf).
    apply list_elem_of_lookup_2 in Hchild.
    destruct (truthy (tag (deref h child))) eqn:Htruthy;
      [|injection Hf as <-; by apply elem_of_nil in Hx].
    apply bind_Ok in Hf as (below & Hbelow & Hf).
    assert (x ∈ below → element_below h node x
              ∧ (filter (λ name, name ≠ []) names = []
                 ∨ tag_in (tag (deref h x)) (filter (λ name, name ≠ []) names)
                   = true)) as Hdeep.
    { intros Hin. apply (IH _ _ Hbelow) in Hin as [Hin ?].
      split; [|done]. by eapply element_deeper. }
    destruct (bool_decide _ || tag_in _ _) eqn:Hpass; injection Hf as <-;
      [|by apply Hdeep].
    apply elem_of_cons in Hx as [->|Hx]; [|by apply Hdeep].
    split; [by constructor|].
    apply orb_true_iff in Hpass as [Hp%bool_decide_eq_true|Hp]; auto.
  - intros [Hbelow Hpass].
    assert (bool_decide (filter (λ name, name ≠ []) names = [])
            || tag_in (tag (deref h x)) (filter (λ name, name ≠ []) names)
            = true) as Hpass'.
    { apply orb_true_iff. destruct Hpass as [?|?]; [left|by right].
      by apply bool_decide_eq_true. }
    inversion Hbelow as [c Hc Ht|c x' Hc Ht Hx]; subst.
    + apply list_elem_of_lookup in Hc as [i Hi].
      destruct (Forall2_lookup_l _ _ _ _ _ Hys Hi) as (y & Hy & Hf).
      apply list_elem_of_lookup_2 in Hy.
      apply elem_of_flatten. exists y. split; [done|].
      rewrite Ht in Hf. apply bind_Ok in Hf as (below & _ & Hf).
      rewrite Hpass' in Hf. simpl in Hf. injection Hf as <-. left.
    + apply list_elem_of_lookup in Hc as [i Hi].
      destruct (Forall2_lookup_l _ _ _ _ _ Hys Hi) as (y & Hy & Hf).
      apply list_elem_of_lookup_2 in Hy.
      apply elem_of_flatten. exists y. split; [done|].
      rewrite Ht in Hf. apply bind_Ok in Hf as (below & Hb & Hf).
      assert (x ∈ below) as Hin by (by apply (IH _ _ Hb)).
      match type of Hf with context [if ?b then _ else _] => destruct b end;
        injection Hf as <-; [by right|done].
Qed.

(** X13. What [iter_tags] yields, exactly: the nodes reached from the
    start node through children that are elements, themselves included,
    that pass the name filter.  Names that are empty strings are not part
    of the filter; with no name left, every element passes. *)
Theorem iter_tags_yields_matching_elements
    (fuel : nat) (h : heap) (names : list (list N)) (node : ref)
    (l : list ref) :
  iter_tags fuel h names node = Ok l →
  ∀ x, x ∈ l
       ↔ element_below h node x
         ∧ (filter (λ name, name ≠ []) names = []
            ∨ tag_in (tag (deref h x)) (filter (λ name, name ≠ []) names)
              = true).
Proof. apply iter_tags_spec. Qed.

(** [<div><p>a</p><span><p>b</p></span></div>] *)
Lemma iter_tags_yields_matching_elements_witness :
  let evs := [StartTag (lit "div") []; StartTag (lit "p") []; Data (lit "a");
              EndTag (lit "p"); StartTag (lit "span") [];
              StartTag (lit "p") []; Data (lit "b")] in
  ∃ h, parse_html evs = Ok (0, h)
    ∧ iter_tags 5 h [lit "p"; []] 0 = Ok [2; 5]
    ∧ ∀ x, x ∈ [2; 5]
           ↔ element_below h 0 x
             ∧ (filter (λ name, name ≠ []) [lit "p"; []] = []
                ∨ tag_in (tag (deref h x))
                    (filter (λ name, name ≠ []) [lit "p"; []]) = true).
Proof.
  eexists.
  match goal with |- ?A ∧ _ => assert A as Hparse by (vm_compute; reflexivity) end.
  split; [exact Hparse|]. clear Hparse.
  match goal with |- ?A ∧ _ => assert A as Hrun by (vm_compute; reflexivity) end.
  split; [exact Hrun|].
  exact (iter_tags_yields_matching_elements 5 _ _ 0 _ Hrun).
Defined.

(** The subtrees of two children of a node of the tree share no node. *)
Lemma disjoint_subtrees root h node c1 c2 x :
  wf root h → within h root node →
  c1 ∈ children (deref h node) → c2 ∈ children (deref h node) →
  within h c1 x → within h c2 x → c1 = c2.
Proof.
  intros Hwf Hnode Hc1 Hc2 Hx1 Hx2.
  pose proof (wf_parents _ _ Hwf) as Hpar.
  destruct (within_pchain h root [root] node) as [mid Hchain];
    [done|by apply pchain_root|done|].
  assert (pchain h c1 (c1 :: mid ++ [root])) as Hch1
    by (econstructor; [by apply Hpar|done]).
  assert (pchain h c2 (c2 :: mid ++ [root])) as Hch2
    by (econstructor; [by apply Hpar|done]).
  destruct (within_pchain h c1 _ x Hpar Hch1 Hx1) as [m1 Hm1].
  destruct (within_pchain h c2 _ x Hpar Hch2 Hx2) as [m2 Hm2].
  pose proof (pchain_det _ _ _ _ Hm1 Hm2) as Heq.
  apply app_inj_2 in Heq as [_ Heq]; [|done]. by injection Heq.
Qed.

Lemma iter_tags_NoDup root fuel h names node l :
  wf root h → within h root node →
  iter_tags fuel h names node = Ok l → NoDup l.
Proof.
  intros Hwf. revert node l.
  induction fuel as [|fuel IH]; intros node l Hnode; simpl; [done|].
  intros Hrun. apply fmap_Ok in Hrun as (ys & Hys & ->).
  apply traverse_Ok in Hys.
  pose proof (wf_nodup _ _ Hwf node) as Hnd.
  assert (∀ c, c ∈ children (deref h node) → c ∈ children (deref h node))
    as Hsub by done.
  revert Hnd Hsub Hys.
  generalize (children (deref h node)) at 1 2 4. intros cs Hnd Hsub Hys.
  assert (NoDup (flatten ys)
          ∧ ∀ x, x ∈ flatten ys → ∃ c, c ∈ cs ∧ within h c x) as [? _];
    [|done].
  induction Hys as [|c y cs ys Hf Hys IHys].
  { split; [apply NoDup_nil_2|]. by intros x ?%elem_of_nil. }
  apply NoDup_cons in Hnd as [Hc Hnd].
  destruct IHys as [Hnd_rest Hin_rest]; [done|intros; apply Hsub; by right|].
  assert (within h root c) as Hwc.
  { econstructor; [done|]. apply Hsub. left. }
  assert (NoDup y ∧ ∀ x, x ∈ y → within h c x) as [Hnd_y Hin_y].
  { destruct (truthy (tag (deref h c)));
      [|injection Hf as <-; split; [apply NoDup_nil_2|by intros x ?%elem_of_nil]].
    apply bind_Ok in Hf as (below & Hbelow & Hf).
    pose proof (IH _ _ Hwc Hbelow) as Hnd_below.
    assert (∀ x, x ∈ below → within h c x) as Hin_below
      by (intros x; by eapply iter_tags_within).
    destruct (_ || _); injection Hf as <-; [|done].
    split.
    - apply NoDup_cons. split; [|done]. intros Hcc.
      apply (iter_tags_spec _ _ _ _ _ Hbelow) in Hcc as [Hcc _].
      apply element_below_within in Hcc as (c' & Hc' & Hw).
      by eapply within_acyclic.
    - intros x [->|Hx]%elem_of_cons; [constructor|by apply Hin_below]. }
  unfold flatten in *. simpl. split.
  - apply NoDup_app. split_and!; [done| |done].
    intros x Hx Hx'. apply Hin_y in Hx.
    apply Hin_rest in Hx' as (c' & Hc' & Hw').
    assert (c = c') as <-; [|done].
    eapply (disjoint_subtrees root h node); [done..| | |done|done];
      apply Hsub; [left|by right].
  - intros x [Hx|Hx]%elem_of_app.
    + exists c. split; [left|by apply Hin_y].
    + destruct (Hin_rest x Hx) as (c' & ? & ?). exists c'. split; [by right|done].
Qed.

(** X14. In a well-formed tree [iter_tags] yields no node twice: the
    subtrees of two children of a node share nothing, and no element is
    below itself. *)
Theorem iter_tags_yields_each_once
    (root : ref) (fuel : nat) (h : heap) (names : list (list N))
    (node : ref) (l : list ref) :
  wf root h → within h root node →
  iter_tags fuel h names node = Ok l → NoDup l.
Proof. apply iter_tags_NoDup. Qed.

Lemma iter_tags_yields_each_once_witness :
  let evs := [StartTag (lit "div") []; StartTag (lit "p") []; Data (lit "a");
              EndTag (lit "p"); StartTag (lit "span") [];
              StartTag (lit "p") []; Data (lit "b")] in
  ∃ h, parse_html evs = Ok (0, h)
    ∧ iter_tags 5 h [] 0 = Ok [1; 2; 4; 5]
    ∧ NoDup [1; 2; 4; 5].
Proof.
  eexists.
  match goal with |- ?A ∧ _ => assert A as Hparse by (vm_compute; reflexivity) end.
  split; [exact Hparse|].
  match goal with |- ?A ∧ _ => assert A as Hrun by (vm_compute; reflexivity) end.
  split; [exact Hrun|].
  exact (iter_tags_yields_each_once 0 5 _ [] 0 _
           (parse_html_wf _ _ _ Hparse) (within_refl _ 0) Hrun).
Defined.

(** ** Running [normalize_headings] again *)

Lemma NoDup_fst_filter_zip {A B} (P : A * B → Prop) `{!∀ x, Decision (P x)}
    (l : list A) (k : list B) :
  NoDup l → NoDup (map fst (filter P (zip l k))).
Proof.
  revert k. induction l as [|a l IH]; intros [|b k] Hnd; simpl;
    try apply NoDup_nil_2.
  apply NoDup_cons in Hnd as [Ha Hnd]. rewrite filter_cons.
  case_decide; [|by apply IH]. simpl. apply NoDup_cons. split; [|by apply IH].
  intros Hin. apply list_elem_of_fmap in Hin as ([a' b'] & -> & Hin).
  apply list_elem_of_filter in Hin as [_ Hin]. by apply elem_of_zip_l in Hin.
Qed.

Lemma text_headings_NoDup root fuel h hs :
  wf root h → text_headings fuel h root = Ok hs → NoDup hs.
Proof.
  intros Hwf Hrun. unfold text_headings in Hrun.
  apply bind_Ok in Hrun as (all & Hall & Hrun).
  apply bind_Ok in Hrun as (texts & _ & [= <-]).
  apply NoDup_fst_filter_zip.
  eapply iter_tags_NoDup; [done|constructor|done].
Qed.

Lemma demoted_demoted (t : option (list N)) : demoted (demoted t) = demoted t.
Proof.
  unfold demoted at 2 3.
  destruct (bool_decide (t = Some (lit "h1"))) eqn:H1; [done|].
  destruct (tag_in t [lit "h4"; lit "h5"; lit "h6"]) eqn:H2; [done|].
  unfold demoted. by rewrite H1, H2.
Qed.

Lemma adjust_heading_noop (heading : ref) (st : state) :
  demoted (tag (deref st.1 heading)) = tag (deref st.1 heading) →
  adjust_heading heading st = st.
Proof.
  unfold adjust_heading, demoted. intros Hd.
  destruct (bool_decide (tag (deref st.1 heading) = Some (lit "h1"))) eqn:H1.
  { apply bool_decide_eq_true in H1. rewrite H1 in Hd. discriminate. }
  destruct (tag_in (tag (deref st.1 heading)) [lit "h4"; lit "h5"; lit "h6"])
    eqn:H2.
  { rewrite <-Hd in H2. discriminate. }
  rewrite bool_decide_eq_false_2 by (by intros ?). by destruct st.
Qed.

Lemma normalize_headings_tags fuel root st first rest :
  text_headings fuel st.1 root = Ok (first :: rest) →
  NoDup (first :: rest) →
  ∃ st', normalize_headings fuel root st = Ok st'
    ∧ retagged st.1 st'.1
    ∧ tag (deref st'.1 first) = Some (lit "h1")
    ∧ ∀ x, x ∈ rest → tag (deref st'.1 x) = demoted (tag (deref st.1 x)).
Proof.
  intros Hhs Hnodup. unfold normalize_headings. rewrite Hhs. simpl.
  eexists. split; [done|].
  apply NoDup_cons in Hnodup as [Hfirst Hnodup].
  pose proof (λ n, text_headings_elem _ _ _ _ n Hhs) as Helem.
  set (st1 := if bool_decide (tag (deref st.1 first) ≠ Some (lit "h1"))
              then (set_tag first (Some (lit "h1")) st.1,
                    count_headings_adjusted st.2)
              else st).
  assert (first < length st.1) as Hlt.
  { apply tagged_in_range.
    by destruct (tag_in_heading_truthy _ (Helem first ltac:(left))). }
  assert (retagged st.1 st1.1
          ∧ ∀ n, tag (deref st1.1 n)
                 = if decide (n = first) then Some (lit "h1")
                   else tag (deref st.1 n)) as [Hr1 Htag1].
  { unfold st1. case_bool_decide as Hne; simpl.
    - split; [apply retagged_set_tag; [apply Helem; left|done]|].
      intros n. rewrite tag_set_tag. repeat case_decide; naive_solver.
    - split; [apply retagged_refl|]. intros n. case_decide; [|done].
      subst n. destruct (decide (tag (deref st.1 first) = Some (lit "h1")));
        done. }
  destruct (foldl_adjust_heading rest st1 Hnodup) as [Hr2 Htag2].
  { intros x Hx. rewrite (retagged_heading st.1) by done. apply Helem. by right. }
  split_and!.
  - by eapply retagged_trans.
  - rewrite Htag2, Htag1. rewrite decide_False by done. by rewrite decide_True.
  - intros x Hx. rewrite Htag2, Htag1. rewrite decide_True by done.
    case_decide; [by subst|done].
Qed.

(** X15. [normalize_headings] is idempotent on a well-formed tree: run
    again on its own result, it changes no tag and counts no adjustment.
    The headings with text are the same ones after the first run, the
    first is an [h1] already, and no later one is an [h1], [h4], [h5] or
    [h6] any more. *)
Theorem normalize_headings_idempotent (root : ref) (fuel : nat) (st : state) :
  wf root st.1 → length st.1 ≤ fuel →
  ∃ st', normalize_headings fuel root st = Ok st'
    ∧ normalize_headings fuel root st' = Ok st'.
Proof.
  intros Hwf Hfuel.
  destruct (text_headings_total fuel root st.1 Hwf Hfuel) as [hs Hhs].
  pose proof (text_headings_NoDup _ _ _ _ Hwf Hhs) as Hnd.
  destruct hs as [|first rest].
  { exists st. unfold normalize_headings. by rewrite Hhs. }
  destruct (normalize_headings_tags _ _ _ _ _ Hhs Hnd)
    as (st' & Hrun & Hr & Hfirst & Hrest).
  exists st'. split; [done|].
  unfold normalize_headings.
  rewrite (text_headings_retagged _ st.1) by done. rewrite Hhs. simpl.
  rewrite bool_decide_eq_false_2 by (by intros ?). f_equal.
  clear Hrun Hnd Hhs. induction rest as [|x rest IH]; simpl; [done|].
  rewrite adjust_heading_noop.
  - apply IH. intros y Hy. apply Hrest. by right.
  - rewrite Hrest by left. apply demoted_demoted.
Qed.

(** [<h3>A</h3><h1>B</h1><h6>C</h6>]: the first run gives [h1], [h2],
    [h3]; the second changes nothing. *)
Lemma normalize_headings_idempotent_witness :
  let evs := [StartTag (lit "h3") []; Data (lit "A"); EndTag (lit "h3");
              StartTag (lit "h1") []; Data (lit "B"); EndTag (lit "h1");
              StartTag (lit "h6") []; Data (lit "C"); EndTag (lit "h6")] in
  ∃ h, parse_html evs = Ok (0, h)
    ∧ ∃ st', normalize_headings 7 0 (h, no_stats) = Ok st'
             ∧ normalize_headings 7 0 st' = Ok st'.
Proof.
  eexists.
  match goal with |- ?A ∧ _ => assert A as Hparse by (vm_compute; reflexivity) end.
  split; [exact Hparse|].
  apply (normalize_headings_idempotent 0 7 (_, no_stats)).
  - exact (parse_html_wf _ _ _ Hparse).
  - clear. vm_compute. lia.
Defined.

(** ** Unwrapping keeps the text *)

Lemma unwrap_frame {X} (proj : Node → X) node h h' m :
  (∀ cs nd, proj (with_children cs nd) = proj nd) →
  (∀ p nd, proj (with_parent p nd) = proj nd) →
  unwrap node h = Ok h' → proj (deref h' m) = proj (deref h m).
Proof.
  intros Hc Hp. unfold unwrap.
  destruct (parent (deref h node)) as [p|]; [|by intros [= <-]].
  destruct (index_of _ _) as [i|]; [|done]. intros [= <-].
  unfold set_parent at 1. rewrite (deref_alter_frame proj) by done.
  unfold set_children at 1. rewrite (deref_alter_frame proj) by done.
  unfold set_children at 1. rewrite (deref_alter_frame proj) by done.
  rewrite (foldl_set_parent_frame proj) by done.
  unfold set_children. by rewrite (deref_alter_frame proj).
Qed.

(** The result of [get_text] does not depend on the fuel, once there is
    enough of it. *)
Lemma get_text_fuel j fuel1 fuel2 h node :
  bounded j h node → j ≤ fuel1 → j ≤ fuel2 →
  get_text fuel1 h node = get_text fuel2 h node.
Proof.
  revert fuel1 fuel2 node.
  induction j as [|j IH]; intros fuel1 fuel2 node Hb H1 H2; [done|].
  destruct fuel1 as [|fuel1]; [lia|]. destruct fuel2 as [|fuel2]; [lia|].
  simpl. destruct (tag _); [|done]. destruct (_ || _); [done|].
  rewrite (traverse_ext (get_text fuel1 h) (get_text fuel2 h)); [done|].
  intros c Hc. apply IH; [by apply Hb|lia..].
Qed.

Lemma traverse_app_Ok {A B} (f : A → res B) (l1 l2 : list A) a b :
  traverse f l1 = Ok a → traverse f l2 = Ok b →
  traverse f (l1 ++ l2) = Ok (a ++ b).
Proof.
  revert a. induction l1 as [|x l1 IH]; intros a; simpl.
  - by intros [= <-].
  - intros (y & Hy & Hrest)%bind_Ok.
    apply bind_Ok in Hrest as (ys & Hys & [= <-]). intros Hb.
    rewrite Hy. simpl. by rewrite (IH ys).
Qed.

Lemma index_of_split x l i :
  index_of x l = Some i → l = take i l ++ x :: drop (S i) l.
Proof.
  intros [Hi _]%index_of_Some.
  by rewrite <-(take_drop_middle l i x Hi) at 1.
Qed.

Lemma take_delete_same {A} (l : list A) i : take i (delete i l) = take i l.
Proof.
  revert i. induction l as [|a l IH]; intros [|i]; simpl; try done.
  by rewrite IH.
Qed.

Lemma drop_delete_same {A} (l : list A) i : drop i (delete i l) = drop (S i) l.
Proof.
  revert i. induction l as [|a l IH]; intros [|i]; simpl; done.
Qed.

Lemma unwrap_text root h div p h' :
  wf root h → div ∈ children (deref h p) → p ≠ div →
  tag (deref h div) ≠ None →
  is_comment (deref h div) = false → is_doctype (deref h div) = false →
  unwrap div h = Ok h' →
  ∀ j fuel x, bounded j h x → j ≤ fuel → x ≠ div →
    get_text fuel h' x = get_text fuel h x.
Proof.
  intros Hwf Hdiv Hne Htag Hcom Hdoc Hun.
  destruct (unwrap_Ok root h div p Hwf Hdiv Hne)
    as (h'' & i & Hun' & Hi & Hlen & Hch & _).
  rewrite Hun in Hun'. injection Hun' as <-.
  pose proof (wf_parents _ _ Hwf) as Hpar.
  pose proof (wf_nodup _ _ Hwf p) as Hnd.
  induction j as [|j IH]; intros fuel x Hb Hj Hx; [done|].
  destruct fuel as [|fuel]; [lia|]. simpl.
  rewrite (unwrap_frame tag _ _ _ _ ltac:(done) ltac:(done) Hun).
  rewrite (unwrap_frame text _ _ _ _ ltac:(done) ltac:(done) Hun).
  rewrite (unwrap_frame is_comment _ _ _ _ ltac:(done) ltac:(done) Hun).
  rewrite (unwrap_frame is_doctype _ _ _ _ ltac:(done) ltac:(done) Hun).
  destruct (tag (deref h x)); [|done]. destruct (_ || _); [done|].
  rewrite Hch, decide_False by done.
  destruct (decide (x = p)) as [->|Hxp].
  - rewrite take_delete_same, drop_delete_same.
    pose proof (index_of_split _ _ _ Hi) as Hsplit.
    rewrite Hsplit in Hnd. apply NoDup_app in Hnd as (_ & Hleft & Hnd).
    apply NoDup_cons in Hnd as [Hright _].
    assert (bounded j h div) as Hbdiv by (by apply Hb).
    assert (∀ c, c ∈ children (deref h p) → c ≠ div →
              get_text fuel h' c = get_text fuel h c
              ∧ ∃ t, get_text fuel h c = Ok t) as Hside.
    { intros c Hc Hcd. split; [apply IH; [by apply Hb|lia|done]|].
      apply (get_text_total _ _ _ j); [by apply Hb|lia]. }
    assert (∀ cs, (∀ c, c ∈ cs → c ∈ children (deref h p) ∧ c ≠ div) →
              ∃ ts, traverse (get_text fuel h') cs = Ok ts
                    ∧ traverse (get_text fuel h) cs = Ok ts) as Hsides.
    { intros cs Hcs.
      destruct (traverse_total (get_text fuel h) cs) as [ts Hts].
      { intros c Hc. destruct (Hcs c Hc) as [? ?]. by apply Hside. }
      exists ts. split; [|done]. rewrite <-Hts. apply traverse_ext.
      intros c Hc. destruct (Hcs c Hc) as [? ?]. by apply Hside. }
    destruct (Hsides (take i (children (deref h p)))) as (ta & Hta' & Hta).
    { intros c Hc. split; [rewrite Hsplit, elem_of_app; by left|]. intros ->.
      apply (Hleft div Hc). left. }
    destruct (Hsides (drop (S i) (children (deref h p)))) as (tb & Htb' & Htb).
    { intros c Hc. split; [|by intros ->].
      rewrite Hsplit, elem_of_app. right. by right. }
    destruct j as [|j]; [done|]. destruct fuel as [|fuel]; [lia|].
    destruct (traverse_total (get_text fuel h) (children (deref h div)))
      as [td Htd].
    { intros c Hc. apply (get_text_total _ _ _ j); [by apply Hbdiv|lia]. }
    assert (traverse (get_text (S fuel) h') (children (deref h div)) = Ok td)
      as Htd'.
    { rewrite <-Htd. apply traverse_ext. intros c Hc.
      rewrite (IH (S fuel) c); [| |lia|].
      - apply (get_text_fuel j); [by apply Hbdiv|lia..].
      - eapply bounded_mono; [by apply Hbdiv|lia].
      - intros ->. by eapply (bounded_acyclic _ _ _ _ Hbdiv Hc), within_refl. }
    rewrite (traverse_app_Ok _ _ _ _ _ Hta'
               (traverse_app_Ok _ _ _ _ _ Htd' Htb')).
    rewrite Hsplit at 1.
    assert (get_text (S fuel) h div = Ok (flatten td)) as Hdt.
    { simpl. destruct (tag (deref h div)); [|done].
      rewrite Hcom, Hdoc. simpl. by rewrite Htd. }
    assert (traverse (get_text (S fuel) h)
              (div :: drop (S i) (children (deref h p)))
            = Ok (flatten td :: tb)) as Hmid.
    { cbn [traverse]. rewrite Hdt. cbn [mbind res_mbind res_bind].
      by rewrite Htb. }
    rewrite (traverse_app_Ok _ _ _ _ _ Hta Hmid). simpl. f_equal.
    unfold flatten. by rewrite !List.concat_app.
  - rewrite (traverse_ext (get_text fuel h') (get_text fuel h)); [done|].
    intros c Hc. apply IH; [by apply Hb|lia|].
    intros ->. apply Hpar in Hc, Hdiv. congruence.
Qed.

(** X16. [unwrap] keeps the text: when an element of a well-formed tree is
    unwrapped, [get_text] of every other node of the tree, the root
    included, is what it was before; the children of the element carry its
    text to its parent, in the same place. *)
Theorem unwrap_keeps_text
    (root : ref) (fuel : nat) (h : heap) (div p : ref) :
  wf root h → within h root p → div ∈ children (deref h p) →
  tag (deref h div) ≠ None →
  is_comment (deref h div) = false → is_doctype (deref h div) = false →
  length h ≤ fuel →
  ∃ h', unwrap div h = Ok h'
    ∧ ∀ x, within h root x → x ≠ div →
           get_text fuel h' x = get_text fuel h x
           ∧ ∃ t, get_text fuel h x = Ok t.
Proof.
  intros Hwf Hp Hdiv Htag Hcom Hdoc Hfuel.
  assert (p ≠ div) as Hne.
  { intros ->. eapply within_acyclic; [done..|constructor]. }
  destruct (unwrap_Ok root h div p Hwf Hdiv Hne) as (h' & i & Hun & _).
  exists h'. split; [done|]. intros x Hx Hxd.
  pose proof (bounded_reachable _ _ _ Hwf Hx) as Hb.
  split.
  - by eapply (unwrap_text root h div p h').
  - by eapply get_text_total.
Qed.

(** [<section><div>a<b>c</b></div>d</section>]: unwrapping the [div]
    leaves the text of the section ["acd"]. *)
Lemma unwrap_keeps_text_witness :
  let evs := [StartTag (lit "section") []; StartTag (lit "div") [];
              Data (lit "a"); StartTag (lit "b") []; Data (lit "c");
              EndTag (lit "b"); EndTag (lit "div"); Data (lit "d")] in
  ∃ h, parse_html evs = Ok (0, h)
    ∧ get_text 7 h 1 = Ok (lit "acd")
    ∧ ∃ h', unwrap 2 h = Ok h'
        ∧ ∀ x, within h 0 x → x ≠ 2 →
               get_text 7 h' x = get_text 7 h x
               ∧ ∃ t, get_text 7 h x = Ok t.
Proof.
  eexists.
  match goal with |- ?A ∧ _ => assert A as Hparse by (vm_compute; reflexivity) end.
  split; [exact Hparse|].
  split; [clear; vm_compute; reflexivity|].
  apply (unwrap_keeps_text 0 7 _ 2 1 (parse_html_wf _ _ _ Hparse)).
  - clear. apply (within_child _ 0 0 1); [constructor|]. vm_compute. left.
  - clear. vm_compute. left.
  - clear. vm_compute. discriminate.
  - clear. vm_compute. reflexivity.
  - clear. vm_compute. reflexivity.
  - clear. vm_compute. lia.
Defined.

(** ** The tree the builder makes *)

(** The text [get_text] finds in a node without children. *)
Definition leaf_text (nd : Node) : list N :=
  match tag nd with
  | None => or_empty (text nd)
  | Some _ => []
  end.

(** The character data an event carries into the tree. *)
Definition event_text (e : event) : list N :=
  match e with
  | Data d | Comment d | Decl d => d
  | _ => []
  end.

(** Each node of [st] is the last child of the one before it, starting
    from [a]: the open elements, outermost first. *)
Fixpoint spine (h : heap) (a : ref) (st : list ref) : Prop :=
  match st with
  | [] => True
  | b :: st' => list.last (children (deref h a)) = Some b ∧ spine h b st'
  end.

(** Elements are neither comments nor doctypes; nodes without a tag have
    no children. *)
Definition kinds_ok (h : heap) : Prop :=
  ∀ n, (tag (deref h n) ≠ None →
          is_comment (deref h n) = false ∧ is_doctype (deref h n) = false)
       ∧ (tag (deref h n) = None → children (deref h n) = []).

(** Every node but the first is a child of the node it names as parent,
    which was made before it. *)
Definition attached_ok (h : heap) : Prop :=
  ∀ n, n < length h → n ≠ 0 →
    ∃ p, p < n ∧ parent (deref h n) = Some p ∧ n ∈ children (deref h p).

(** The arena after [top.append(Node(...))] for a node just made. *)
Definition appended (h : heap) (nd : Node) (top : ref) : heap :=
  Node_append top (length h) (h ++ [nd]).

Lemma length_appended h nd top : length (appended h nd top) = S (length h).
Proof.
  unfold appended. rewrite length_Node_append, length_app. simpl. lia.
Qed.

Lemma children_appended h nd top m :
  top < length h → children nd = [] →
  children (deref (appended h nd top) m)
  = if decide (m = top) then children (deref h top) ++ [length h]
    else children (deref h m).
Proof.
  intros Htop Hnd. unfold appended.
  rewrite children_Node_append, length_app, !deref_app_one. simpl.
  destruct (decide (m = top)) as [->|Hne].
  - rewrite decide_True by (split; [done|lia]).
    by rewrite decide_False by lia.
  - rewrite decide_False by naive_solver.
    case_decide; [|done]. subst m. by rewrite Hnd, deref_out_of_range.
Qed.

Lemma parent_appended h nd top m :
  parent nd = None →
  parent (deref (appended h nd top) m)
  = if decide (m = length h) then Some top else parent (deref h m).
Proof.
  intros Hnd. unfold appended.
  rewrite parent_Node_append, length_app, deref_app_one. simpl.
  destruct (decide (m = length h)) as [->|Hne].
  - rewrite decide_True; [done|]. split; [done|lia].
  - by rewrite decide_False by naive_solver.
Qed.

Lemma proj_appended {X} (proj : Node → X) h nd top m :
  (∀ cs x, proj (with_children cs x) = proj x) →
  (∀ p x, proj (with_parent p x) = proj x) →
  proj (deref (appended h nd top) m)
  = if decide (m = length h) then proj nd else proj (deref h m).
Proof.
  intros Hc Hp. unfold appended.
  rewrite (Node_append_frame proj) by done. rewrite deref_app_one.
  by case_decide.
Qed.

Lemma get_text_frame fuel h h' c :
  (∀ m, within h c m →
     tag (deref h' m) = tag (deref h m)
     ∧ text (deref h' m) = text (deref h m)
     ∧ is_comment (deref h' m) = is_comment (deref h m)
     ∧ is_doctype (deref h' m) = is_doctype (deref h m)
     ∧ children (deref h' m) = children (deref h m)) →
  get_text fuel h' c = get_text fuel h c.
Proof.
  revert c. induction fuel as [|fuel IH]; intros c Hsame; [done|]. simpl.
  destruct (Hsame c (within_refl _ _)) as (-> & -> & -> & -> & ->).
  destruct (tag (deref h c)); [|done]. destruct (_ || _); [done|].
  rewrite (traverse_ext (get_text fuel h') (get_text fuel h)); [done|].
  intros x Hx. apply IH. intros m Hm. apply Hsame.
  eapply within_trans; [|done]. econstructor; [constructor|done].
Qed.

Lemma within_grows h h' a x :
  (∀ m c, c ∈ children (deref h m) → c ∈ children (deref h' m)) →
  within h a x → within h' a x.
Proof.
  intros Hg. induction 1; [constructor|]. econstructor; [done|]. by apply Hg.
Qed.

(** Appending under [top] changes no text outside the path from the root
    to [top]. *)
Lemma appended_text_off_path h nd top c fuel :
  wf 0 h → top < length h → children nd = [] →
  within h 0 c → ¬ within h c top →
  get_text fuel (appended h nd top) c = get_text fuel h c.
Proof.
  intros Hwf Htop Hnd Hc Hoff. apply get_text_frame. intros m Hm.
  assert (m ≠ top) as Hmt by (by intros ->).
  assert (m ≠ length h) as Hml.
  { pose proof (within_range 0 h m Hwf (within_trans _ _ _ _ Hc Hm)). lia. }
  rewrite !proj_appended by done. rewrite children_appended by done.
  by rewrite !decide_False by done.
Qed.

Lemma appended_text_new h nd top fuel :
  top < length h → children nd = [] →
  (tag nd ≠ None → is_comment nd = false ∧ is_doctype nd = false) →
  get_text (S fuel) (appended h nd top) (length h) = Ok (leaf_text nd).
Proof.
  intros Htop Hnd Hflags. cbn [get_text].
  rewrite (proj_appended tag), (proj_appended text),
    (proj_appended is_comment), (proj_appended is_doctype) by done.
  rewrite children_appended by done.
  destruct (decide (length h = length h)) as [_|?]; [|done].
  destruct (decide (length h = top)); [lia|].
  unfold leaf_text. destruct (tag nd) as [tg|]; [|done].
  destruct Hflags as [-> ->]; [done|]. simpl.
  by rewrite deref_out_of_range.
Qed.

Lemma spine_within h a st top :
  spine h a st → list.last (a :: st) = Some top → within h a top.
Proof.
  revert a. induction st as [|b st IH]; intros a Hsp Hlast.
  - injection Hlast as <-. constructor.
  - destruct Hsp as [Hb Hsp]. rewrite last_cons_cons in Hlast.
    eapply within_trans; [|by apply IH].
    econstructor; [constructor|]. by apply last_Some_elem_of.
Qed.

Lemma spine_take h a st k : spine h a st → spine h a (take k st).
Proof.
  revert a k. induction st as [|b st IH]; intros a [|k]; simpl; try done.
  intros [Hb Hsp]. split; [done|]. by apply IH.
Qed.

Lemma spine_snoc h a st top node :
  spine h a st → list.last (a :: st) = Some top →
  list.last (children (deref h top)) = Some node →
  spine h a (st ++ [node]).
Proof.
  revert a. induction st as [|b st IH]; intros a Hsp Hlast Hnode.
  - injection Hlast as <-. by split.
  - destruct Hsp as [Hb Hsp]. rewrite last_cons_cons in Hlast.
    split; [done|]. by apply IH.
Qed.

Lemma spine_appended h nd top a st :
  wf 0 h → top < length h → children nd = [] →
  within h 0 a → spine h a st → list.last (a :: st) = Some top →
  spine (appended h nd top) a st.
Proof.
  intros Hwf Htop Hnd. revert a.
  induction st as [|b st IH]; intros a Ha Hsp Hlast; [done|].
  destruct Hsp as [Hb Hsp]. rewrite last_cons_cons in Hlast.
  pose proof (last_Some_elem_of _ _ Hb) as Hba.
  split.
  - rewrite children_appended by done. rewrite decide_False; [done|].
    intros ->. eapply (within_acyclic 0 h top b); [done..|].
    by eapply spine_within.
  - apply IH; [by econstructor|done..].
Qed.

Lemma get_text_element fuel h a :
  tag (deref h a) ≠ None →
  is_comment (deref h a) = false → is_doctype (deref h a) = false →
  get_text (S fuel) h a
  = flatten <$> traverse (get_text fuel h) (children (deref h a)).
Proof.
  intros Ht Hc Hd. simpl. destruct (tag (deref h a)); [|done].
  by rewrite Hc, Hd.
Qed.

Lemma flatten_snoc {A} (ls : list (list A)) (l : list A) :
  flatten (ls ++ [l]) = flatten ls ++ l.
Proof. unfold flatten. rewrite List.concat_app. simpl. by rewrite app_nil_r. Qed.

(** Appending a node under the last open element appends its text to the
    text of every open element. *)
Lemma spine_text h nd top :
  wf 0 h → wf 0 (appended h nd top) → kinds_ok h →
  top < length h → children nd = [] →
  (tag nd ≠ None → is_comment nd = false ∧ is_doctype nd = false) →
  ∀ st a,
    within h 0 a → tag (deref h a) ≠ None →
    Forall (λ n, tag (deref h n) ≠ None) st →
    spine h a st → list.last (a :: st) = Some top →
    ∀ fuel, S (length h) < fuel →
      ∃ t, get_text fuel h a = Ok t
           ∧ get_text fuel (appended h nd top) a = Ok (t ++ leaf_text nd).
Proof.
  intros Hwf Hwf' Hkinds Htop Hnd Hflags.
  assert (∀ m c, c ∈ children (deref h m) →
            c ∈ children (deref (appended h nd top) m)) as Hgrow.
  { intros m c Hc. rewrite children_appended by done.
    case_decide; [|done]. subst m. apply elem_of_app. by left. }
  induction st as [|b st IH]; intros a Ha Hta Hst Hsp Hlast fuel Hfuel.
  - injection Hlast as ->.
    destruct fuel as [|fuel]; [lia|]. destruct fuel as [|fuel]; [lia|].
    destruct (proj1 (Hkinds top) Hta) as [Hcom Hdoc].
    rewrite !get_text_element;
      rewrite ?(proj_appended tag), ?(proj_appended is_comment),
        ?(proj_appended is_doctype) by done;
      rewrite ?decide_False by lia; try done.
    rewrite children_appended, decide_True by done.
    destruct (traverse_total (get_text (S fuel) h) (children (deref h top)))
      as [ts Hts].
    { intros c Hc. apply (get_text_total _ _ _ (length h)); [|lia].
      eapply bounded_reachable; [done|]. by econstructor. }
    exists (flatten ts). rewrite Hts. split; [done|].
    erewrite traverse_app_Ok; [| |cbn [traverse];
      rewrite appended_text_new by done; done].
    + simpl. by rewrite flatten_snoc.
    + rewrite <-Hts. apply traverse_ext. intros c Hc.
      apply appended_text_off_path; [done..|by econstructor|].
      by eapply within_acyclic.
  - destruct Hsp as [Hb Hsp]. rewrite last_cons_cons in Hlast.
    apply Forall_cons in Hst as [Htb Hst].
    pose proof (last_Some_elem_of _ _ Hb) as Hba.
    assert (within h 0 b) as Hwb by (by econstructor).
    pose proof (spine_within _ _ _ _ Hsp Hlast) as Hbtop.
    assert (a ≠ top) as Hat.
    { intros ->. by eapply (within_acyclic 0 h top b). }
    destruct fuel as [|fuel]; [lia|].
    destruct (proj1 (Hkinds a) Hta) as [Hcom Hdoc].
    assert (a < length h) as Hlt by (by eapply within_range).
    rewrite !get_text_element;
      rewrite ?(proj_appended tag), ?(proj_appended is_comment),
        ?(proj_appended is_doctype) by done;
      rewrite ?decide_False by lia; try done.
    rewrite children_appended, decide_False by done.
    apply last_Some in Hb as [cs0 Hcs].
    pose proof (wf_nodup _ _ Hwf a) as Hnodup. rewrite Hcs in *.
    apply NoDup_app in Hnodup as (_ & Hdis & _).
    destruct (traverse_total (get_text fuel h) cs0) as [ts Hts].
    { intros c Hc. apply (get_text_total _ _ _ (length h)); [|lia].
      eapply bounded_reachable; [done|]. apply (within_child h 0 a c Ha).
      rewrite Hcs. apply elem_of_app. by left. }
    assert (traverse (get_text fuel (appended h nd top)) cs0 = Ok ts) as Hts'.
    { rewrite <-Hts. apply traverse_ext. intros c Hc.
      assert (c ∈ children (deref h a)) as Hca
        by (rewrite Hcs; apply elem_of_app; by left).
      apply appended_text_off_path;
        [done..|by apply (within_child h 0 a c Ha)|].
      intros Hctop.
      assert (c = b) as ->.
      { eapply (disjoint_subtrees 0 h a); [done|done|done| |done|done].
        rewrite Hcs. apply elem_of_app. right. left. }
      apply (Hdis b Hc). left. }
    destruct (IH b Hwb Htb Hst Hsp Hlast (S fuel) Hfuel) as (tb & Hb1 & Hb2).
    assert (get_text fuel h b = Ok tb) as Hb1'.
    { rewrite <-Hb1. apply (get_text_fuel (length h)); [|lia..].
      by eapply bounded_reachable. }
    assert (get_text fuel (appended h nd top) b = Ok (tb ++ leaf_text nd))
      as Hb2'.
    { rewrite <-Hb2.
      apply (get_text_fuel (length (appended h nd top)));
        [|rewrite length_appended; lia..].
      eapply bounded_reachable; [done|]. by eapply within_grows. }
    exists (flatten (ts ++ [tb])).
    rewrite (traverse_app_Ok _ _ [b] ts [tb] Hts);
      [|cbn [traverse]; by rewrite Hb1'].
    split; [done|].
    rewrite (traverse_app_Ok _ _ [b] ts [tb ++ leaf_text nd] Hts');
      [|cbn [traverse]; by rewrite Hb2'].
    simpl. rewrite !flatten_snoc. by rewrite app_assoc.
Qed.

(** What the builder keeps while it reads events; [T] is the character
    data read so far. *)
Definition builder_inv (b : DOMBuilder) (T : list N) : Prop :=
  builder_wf b ∧ root b = 0
  ∧ attached_ok (mem b) ∧ kinds_ok (mem b)
  ∧ Forall (λ n, tag (deref (mem b) n) ≠ None) (stack b)
  ∧ (∃ st, stack b = 0 :: st ∧ spine (mem b) 0 st)
  ∧ ∀ fuel, length (mem b) < fuel → get_text fuel (mem b) 0 = Ok T.

Lemma builder_inv_init : builder_inv DOMBuilder_init [].
Proof.
  split_and!.
  - apply builder_wf_init.
  - done.
  - intros n Hn Hn0. simpl in Hn. lia.
  - intros [|n]; unfold DOMBuilder_init; simpl; split; done.
  - by repeat constructor.
  - by exists [].
  - intros [|fuel] Hfuel; [simpl in Hfuel; lia|]. done.
Qed.

Lemma builder_inv_append nd b T :
  children nd = [] → parent nd = None →
  (tag nd ≠ None → is_comment nd = false ∧ is_doctype nd = false) →
  builder_inv b T →
  ∃ node b' top,
    append_to_top nd b = Ok (node, b')
    ∧ builder_inv b' (T ++ leaf_text nd)
    ∧ node = length (mem b) ∧ stack b' = stack b
    ∧ list.last (stack b) = Some top
    ∧ mem b' = appended (mem b) nd top.
Proof.
  intros Hnd Hpnd Hflags (Hbwf & Hroot & Hatt & Hkinds & Htags & Hspine & Htext).
  destruct (append_to_top_total nd b Hnd Hbwf)
    as (node & b' & Hrun & Hbwf' & Hroot' & Hstack & Hnode & Hlen).
  destruct (append_to_top_Ok _ _ _ _ Hrun)
    as (top & Htop & _ & Hmem & _ & _).
  exists node, b', top. split; [done|].
  destruct Hbwf as (Hwf & Hne & Hrange). rewrite Hroot in Hwf.
  assert (top < length (mem b)) as Hlt.
  { apply last_Some_elem_of in Htop.
    by apply (proj1 (Forall_forall _ _) Hrange). }
  assert (tag (deref (mem b) top) ≠ None) as Httop.
  { apply last_Some_elem_of in Htop.
    by apply (proj1 (Forall_forall _ _) Htags). }
  assert (mem b' = appended (mem b) nd top) as Hmem'
    by (by rewrite Hmem, Hnode).
  split_and!; try done.
  destruct Hspine as (st & Hst & Hsp).
  assert (wf 0 (appended (mem b) nd top)) as Hwf'.
  { destruct Hbwf' as (Hwf' & _). by rewrite Hroot', Hroot, Hmem' in Hwf'. }
  split_and!; try done; try congruence; rewrite ?Hmem', ?Hstack.
  - intros n Hn Hn0. rewrite length_appended in Hn.
    destruct (decide (n = length (mem b))) as [->|Hnl].
    + exists top. rewrite parent_appended, decide_True by done.
      rewrite children_appended, decide_True by done.
      split_and!; [done..|]. apply elem_of_app. right. left.
    + destruct (Hatt n ltac:(lia) Hn0) as (p & Hp & Hpar & Hin).
      exists p. rewrite parent_appended, decide_False by done.
      rewrite children_appended by done.
      split_and!; [done..|]. case_decide; [|done]. subst p.
      apply elem_of_app. by left.
  - intros n. rewrite (proj_appended tag), (proj_appended is_comment),
      (proj_appended is_doctype) by done.
    rewrite children_appended by done.
    destruct (decide (n = length (mem b))) as [->|Hnl].
    + rewrite decide_False by lia. split; [done|].
      intros _. by rewrite deref_out_of_range.
    + destruct (Hkinds n) as [H1 H2]. split; [done|].
      intros Hnone. rewrite decide_False; [by apply H2|]. by intros ->.
  - eapply Forall_impl.
    { apply Forall_and. split; [exact Htags|exact Hrange]. }
    simpl. intros n [Ht Hn]. rewrite (proj_appended tag) by done.
    by rewrite decide_False by lia.
  - exists st. split; [done|].
    apply spine_appended; [done..|constructor|done|by rewrite <-Hst].
  - intros fuel Hfuel. rewrite length_appended in Hfuel.
    rewrite Hst in Htags, Htop. apply Forall_cons in Htags as [Ht0 Htst].
    destruct (spine_text (mem b) nd top Hwf Hwf' Hkinds Hlt Hnd Hflags
                st 0 (within_refl _ _) Ht0 Htst Hsp Htop fuel Hfuel)
      as (t & Ht & Ht').
    rewrite Htext in Ht by lia. by injection Ht as <-.
Qed.

Lemma builder_inv_handle e b T :
  builder_inv b T →
  ∃ b', handle e b = Ok b' ∧ builder_inv b' (T ++ event_text e).
Proof.
  intros Hinv.
  assert (∀ nd, children nd = [] → parent nd = None →
            (tag nd ≠ None → is_comment nd = false ∧ is_doctype nd = false) →
            ∃ b', ('(_, b) ← append_to_top nd b; Ok b) = Ok b'
                  ∧ builder_inv b' (T ++ leaf_text nd)) as Happ.
  { intros nd Hnd Hpnd Hflags.
    destruct (builder_inv_append nd b T Hnd Hpnd Hflags Hinv)
      as (node & b' & top & -> & Hinv' & _).
    by exists b'. }
  destruct e as [tg ats|tg ats|tg|d|d|d|d|d]; simpl.
  - unfold handle_starttag.
    destruct (builder_inv_append
                (Node_init (Some tg) (attrs_dict ats) None false false) b T)
      as (node & b' & top & -> & Hinv' & Hnode & Hstack & Htop & Hmem);
      [done..|].
    simpl. rewrite app_nil_r in *.
    destruct (str_in tg VOID_ELEMENTS); [by exists b'|].
    eexists. split; [done|].
    destruct Hinv as ((_ & _ & Hrange) & _).
    destruct Hinv' as (Hbwf & Hroot & Hatt & Hkinds & Htags & Hspine & Htext).
    assert (top < length (mem b)) as Hlt.
    { apply last_Some_elem_of in Htop.
      by apply (proj1 (Forall_forall _ _) Hrange). }
    split_and!; try done; simpl.
    + destruct Hbwf as (Hwf & Hne & Hst). split_and!; simpl; [done| |].
      * by destruct (stack b').
      * apply Forall_app. split; [done|]. repeat constructor.
        rewrite Hmem, length_appended. lia.
    + apply Forall_app. split; [done|]. repeat constructor.
      rewrite Hmem, (proj_appended tag) by done. by rewrite decide_True.
    + destruct Hspine as (st & Hst & Hsp). exists (st ++ [node]).
      rewrite Hst. split; [done|].
      apply (spine_snoc _ _ _ top); [done|by rewrite <-Hst, Hstack|].
      rewrite Hmem, children_appended, decide_True by done.
      by rewrite last_snoc, Hnode.
  - by apply Happ.
  - eexists. split; [done|]. rewrite app_nil_r.
    destruct (handle_total (EndTag tg) b) as (b' & [= <-] & Hbwf' & _);
      [apply Hinv|].
    destruct Hinv as (Hbwf & Hroot & Hatt & Hkinds & Htags & Hspine & Htext).
    destruct Hbwf as (_ & Hne & _).
    destruct (endtag_scan_stack (mem b) tg (stack b)
                (length (stack b) - 1) Hne) as [Hne' [i Hi]].
    split_and!; try done; simpl.
    + rewrite Hi. by apply Forall_take.
    + destruct Hspine as (st & Hst & Hsp). rewrite Hi, Hst in *.
      destruct i as [|i]; [done|]. exists (take i st). split; [done|].
      by apply spine_take.
  - unfold handle_data. destruct d as [|c d].
    + exists b. by rewrite app_nil_r.
    + by apply (Happ (Node_init None [] (Some (c :: d)) false false)).
  - by apply (Happ (Node_init None [] (Some d) false true)).
  - by apply (Happ (Node_init None [] (Some d) true false)).
  - exists b. by rewrite app_nil_r.
  - exists b. by rewrite app_nil_r.
Qed.

Lemma builder_inv_feed evs b T :
  builder_inv b T →
  ∃ b', foldM handle evs b = Ok b'
        ∧ builder_inv b' (T ++ flatten (map event_text evs)).
Proof.
  revert b T. induction evs as [|e evs IH]; intros b T Hinv; simpl.
  - exists b. by rewrite app_nil_r.
  - destruct (builder_inv_handle e b T Hinv) as (b1 & -> & Hinv1). simpl.
    destruct (IH b1 _ Hinv1) as (b' & -> & Hinv').
    exists b'. split; [done|]. unfold flatten in *. simpl.
    by rewrite app_assoc.
Qed.

Lemma attached_within h n :
  attached_ok h → n < length h → within h 0 n.
Proof.
  intros Hatt. induction n as [n IH] using lt_wf_ind. intros Hn.
  destruct (decide (n = 0)) as [->|Hn0]; [constructor|].
  destruct (Hatt n Hn Hn0) as (p & Hp & _ & Hin).
  econstructor; [|done]. apply IH; lia.
Qed.

(** X17. The builder loses no node: in the tree [parse_html] returns,
    every node made is below the root, each node but the root is a child
    of the node it names as parent (made before it), elements are neither
    comments nor doctypes, and text, comment and doctype nodes have no
    children. *)
Theorem parse_html_attaches_every_node (evs : list event) :
  ∃ h, parse_html evs = Ok (0, h)
    ∧ (∀ n, n < length h → within h 0 n)
    ∧ (∀ n, n < length h → n ≠ 0 →
         ∃ p, p < n ∧ parent (deref h n) = Some p
              ∧ n ∈ children (deref h p))
    ∧ (∀ n, tag (deref h n) ≠ None →
         is_comment (deref h n) = false ∧ is_doctype (deref h n) = false)
    ∧ (∀ n, tag (deref h n) = None → children (deref h n) = []).
Proof.
  unfold parse_html.
  destruct (builder_inv_feed evs _ _ builder_inv_init)
    as (b & -> & _ & Hroot & Hatt & Hkinds & _).
  simpl. rewrite Hroot. exists (mem b). split_and!; [done| |done|..].
  - intros n Hn. by apply attached_within.
  - intros n. apply Hkinds.
  - intros n. apply Hkinds.
Qed.

(** X18. The builder keeps all character data, in order: the text of the
    root of the tree [parse_html] returns is the concatenation of the data
    of the text, comment and doctype events in the order they came,
    whatever start and end tags came between them. *)
Theorem parse_html_keeps_text_in_order (evs : list event) (fuel : nat) :
  S (length evs) < fuel →
  ∃ h, parse_html evs = Ok (0, h)
    ∧ get_text fuel h 0 = Ok (flatten (map event_text evs)).
Proof.
  intros Hfuel.
  destruct (parse_html_total evs) as (h & Hparse & _ & Hlen).
  exists h. split; [done|].
  unfold parse_html in Hparse.
  destruct (builder_inv_feed evs _ _ builder_inv_init)
    as (b & Hb & _ & _ & _ & _ & _ & _ & Htext).
  rewrite Hb in Hparse. injection Hparse as _ <-.
  apply Htext. lia.
Qed.

(** [a</p><b>c<!--d--></i>e]: stray end tags, an unclosed element. *)
Lemma parse_html_keeps_text_in_order_witness :
  let evs := [Data (lit "a"); EndTag (lit "p"); StartTag (lit "b") [];
              Data (lit "c"); Comment (lit "d"); EndTag (lit "i");
              Data (lit "e")] in
  ∃ h, parse_html evs = Ok (0, h) ∧ get_text 9 h 0 = Ok (lit "acde").
Proof.
  apply (parse_html_keeps_text_in_order
           [Data (lit "a"); EndTag (lit "p"); StartTag (lit "b") [];
            Data (lit "c"); Comment (lit "d"); EndTag (lit "i");
            Data (lit "e")] 9).
  simpl. lia.
Defined.

(** ** The wrapper loop keeps the text *)

(** Elements are neither comments nor doctypes. *)
Definition elements_plain (h : heap) : Prop :=
  ∀ n, tag (deref h n) ≠ None →
       is_comment (deref h n) = false ∧ is_doctype (deref h n) = false.

Lemma wrappers_loop_text rounds fuel root st :
  wf root st.1 → elements_plain st.1 →
  attached_count st.1 < rounds → length st.1 ≤ fuel →
  ∃ st', remove_redundant_wrappers_loop rounds fuel root st = Ok st'
    ∧ get_text fuel st'.1 root = get_text fuel st.1 root.
Proof.
  revert st. induction rounds as [|rounds IH];
    intros st Hwf Hplain Hcount Hfuel; [lia|]. simpl.
  destruct (iter_tags_total fuel st.1 [lit "div"] root (length st.1))
    as [divs Hdivs]; [by apply bounded_root|done|].
  rewrite Hdivs. simpl.
  destruct (List.find _ divs) as [div|] eqn:Hfind; [|by exists st].
  apply find_some in Hfind as [Hdiv%list_elem_of_In _].
  destruct (iter_tags_elem _ _ _ _ _ _ Hdivs Hdiv) as (_ & _ & p & Hp).
  pose proof (iter_tags_within _ _ _ _ _ _ Hdivs Hdiv) as Hwithin.
  assert (lit "div" ≠ []) as Hname by done.
  pose proof (iter_tags_single_name _ _ _ _ _ _ Hname Hdivs Hdiv) as Htag.
  assert (p ≠ div) as Hne.
  { intros ->. eapply within_acyclic; [done..|constructor]. }
  assert (div ≠ root) as Hdr.
  { intros ->. by eapply wf_root_detached. }
  destruct (wf_unwrap root st.1 div p Hwf Hp Hne)
    as (h' & Hun & Hwf' & Hlen & Hnone & Himp).
  rewrite Hun. simpl.
  destruct (Hplain div) as [Hcom Hdoc]; [by rewrite Htag|].
  destruct (IH (h', count_div_unwrapped st.2)) as (st' & -> & Htext);
    simpl; [done| | |lia|].
  - intros n.
    rewrite (unwrap_frame tag _ _ _ _ ltac:(done) ltac:(done) Hun).
    rewrite (unwrap_frame is_comment _ _ _ _ ltac:(done) ltac:(done) Hun).
    rewrite (unwrap_frame is_doctype _ _ _ _ ltac:(done) ltac:(done) Hun).
    apply Hplain.
  - assert (attached_count h' < attached_count st.1); [|lia].
    eapply attached_count_decrease; [done|done| |done].
    rewrite (wf_parents _ _ Hwf _ _ Hp). by eexists.
  - exists st'. split; [done|]. simpl in Htext. rewrite Htext.
    eapply (unwrap_text root st.1 div p h'); try done.
    + by rewrite Htag.
    + by apply bounded_root.
Qed.

(** X19. [remove_redundant_wrappers] never changes the text of the
    document: on a well-formed tree whose elements are neither comments nor
    doctypes, [get_text] of the root is the same after the pass as
    before. *)
Theorem remove_redundant_wrappers_keeps_text
    (root : ref) (fuel : nat) (st : state) :
  wf root st.1 → elements_plain st.1 → length st.1 < fuel →
  ∃ st' t, remove_redundant_wrappers fuel root st = Ok st'
    ∧ get_text fuel st.1 root = Ok t
    ∧ get_text fuel st'.1 root = Ok t.
Proof.
  intros Hwf Hplain Hfuel.
  destruct (wrappers_loop_text fuel fuel root st Hwf Hplain)
    as (st' & Hrun & Htext); [pose proof (attached_count_le st.1); lia|lia|].
  destruct (get_text_total fuel st.1 root (length st.1)) as [t Ht];
    [by apply bounded_root|lia|].
  exists st', t. split_and!; [done|done|congruence].
Qed.

Lemma parse_html_elements_plain evs root h :
  parse_html evs = Ok (root, h) → elements_plain h.
Proof.
  unfold parse_html. intros Hparse.
  destruct (builder_inv_feed evs _ _ builder_inv_init)
    as (b & Hb & _ & _ & _ & Hkinds & _).
  rewrite Hb in Hparse. injection Hparse as _ <-.
  intros n. apply Hkinds.
Qed.

(** [<div><div><p>x</p> </div></div>y]: the outer [div] goes, the text
    stays ["x y"]. *)
Lemma remove_redundant_wrappers_keeps_text_witness :
  let evs := [StartTag (lit "div") []; StartTag (lit "div") [];
              StartTag (lit "p") []; Data (lit "x"); EndTag (lit "p");
              Data (lit " "); EndTag (lit "div"); EndTag (lit "div");
              Data (lit "y")] in
  ∃ h, parse_html evs = Ok (0, h)
    ∧ ∃ st' t, remove_redundant_wrappers 8 0 (h, no_stats) = Ok st'
        ∧ get_text 8 h 0 = Ok t
        ∧ get_text 8 st'.1 0 = Ok t.
Proof.
  eexists.
  match goal with |- ?A ∧ _ => assert A as Hparse by (vm_compute; reflexivity) end.
  split; [exact Hparse|].
  apply (remove_redundant_wrappers_keeps_text 0 8 (_, no_stats)).
  - exact (parse_html_wf _ _ _ Hparse).
  - exact (parse_html_elements_plain _ _ _ Hparse).
  - clear. vm_compute. lia.
Defined.

(** ** What whitespace normalization leaves *)

(** The two replacements of [clean_whitespace] on a text. *)
Definition clean_cr_tab (t : option (list N)) : option (list N) :=
  let t1 :=
    if truthy t && bool_decide (chr_cr ∈ or_empty t)
    then Some (remove_char chr_cr (or_empty t)) else t in
  if truthy t1 && bool_decide (chr_tab ∈ or_empty t1)
  then Some (replace_char chr_tab chr_space (or_empty t1)) else t1.

Lemma text_set_text n t h m :
  text (deref (set_text n t h) m)
  = if decide (m = n ∧ n < length h) then t else text (deref h m).
Proof. unfold set_text. rewrite deref_alter. by case_decide. Qed.

Lemma truthy_text_in_range h c :
  truthy (text (deref h c)) = true → c < length h.
Proof.
  intros Ht. destruct (decide (c < length h)); [done|].
  by rewrite deref_out_of_range in Ht by lia.
Qed.

Lemma text_set_text_if (b : bool) c (t : option (list N)) h m :
  (b = true → c < length h) →
  text (deref (if b then set_text c t h else h) m)
  = if decide (m = c) then (if b then t else text (deref h c))
    else text (deref h m).
Proof.
  intros Hb. destruct b.
  - rewrite text_set_text. specialize (Hb eq_refl).
    repeat case_decide; naive_solver.
  - case_decide; by subst.
Qed.

Lemma text_replace_cr_and_tab c h m :
  text (deref (replace_cr_and_tab c h) m)
  = if decide (m = c) then clean_cr_tab (text (deref h c))
    else text (deref h m).
Proof.
  unfold replace_cr_and_tab. cbn zeta.
  set (b1 := truthy (text (deref h c))
             && bool_decide (chr_cr ∈ or_empty (text (deref h c)))).
  set (h1 := if b1 then set_text c _ h else h).
  assert (∀ m, text (deref h1 m)
               = if decide (m = c)
                 then (if b1 then Some (remove_char chr_cr
                                          (or_empty (text (deref h c))))
                       else text (deref h c))
                 else text (deref h m)) as H1.
  { intros m'. apply text_set_text_if.
    intros [Ht _]%andb_true_iff. by apply truthy_text_in_range. }
  rewrite text_set_text_if.
  - rewrite !H1. rewrite !(decide_True (P := c = c)) by done.
    unfold clean_cr_tab. cbn zeta. fold b1.
    destruct (decide (m = c)); reflexivity.
  - intros [Ht _]%andb_true_iff. apply truthy_text_in_range in Ht.
    unfold h1 in *. destruct b1; rewrite ?length_set_text in *; done.
Qed.

Lemma clean_cr_tab_spec (t : option (list N)) :
  chr_cr ∉ or_empty (clean_cr_tab t) ∧ chr_tab ∉ or_empty (clean_cr_tab t).
Proof.
  unfold clean_cr_tab. cbn zeta.
  set (t1 := if truthy t && bool_decide (chr_cr ∈ or_empty t)
             then Some (remove_char chr_cr (or_empty t)) else t).
  assert (chr_cr ∉ or_empty t1) as Hcr.
  { unfold t1. destruct (truthy t) eqn:Ht; simpl.
    - case_bool_decide as Hin; [|done]. simpl. unfold remove_char.
      rewrite list_elem_of_filter. naive_solver.
    - destruct t as [[|]|]; try done; apply not_elem_of_nil. }
  destruct (truthy t1) eqn:Ht1; simpl.
  - case_bool_decide as Hin; [|done]. simpl. unfold replace_char.
    split; intros (x & Hx & Hin')%list_elem_of_fmap;
      case_decide; subst; try done.
  - split; [done|]. destruct t1 as [[|]|]; try done; apply not_elem_of_nil.
Qed.

(** [open_below h a x]: [x] is [a] or below it, and neither [a] nor any
    node on the way down to [x], [x] included, is an element that
    preserves whitespace. *)
Inductive open_below (h : heap) (a : ref) : ref → Prop :=
  | open_here :
      tag_in (tag (deref h a)) PRESERVE_WHITESPACE_TAGS = false →
      open_below h a a
  | open_step d x :
      tag_in (tag (deref h a)) PRESERVE_WHITESPACE_TAGS = false →
      d ∈ children (deref h a) → open_below h d x → open_below h a x.

(** Below [a], outside whitespace-preserving elements, no node without a
    tag is blank or holds a carriage return or a tab. *)
Definition tidy (h : heap) (a : ref) : Prop :=
  ∀ x c, open_below h a x → c ∈ children (deref h x) →
         tag (deref h c) = None →
         strip (or_empty (text (deref h c))) ≠ []
         ∧ chr_cr ∉ or_empty (text (deref h c))
         ∧ chr_tab ∉ or_empty (text (deref h c)).

Definition tidy_child (h : heap) (d : ref) : Prop :=
  (tag (deref h d) = None →
     strip (or_empty (text (deref h d))) ≠ []
     ∧ chr_cr ∉ or_empty (text (deref h d))
     ∧ chr_tab ∉ or_empty (text (deref h d)))
  ∧ tidy h d.

Lemma tidy_intro h a :
  (∀ d, d ∈ children (deref h a) → tidy_child h d) → tidy h a.
Proof.
  intros Hd x c Hx. inversion Hx as [Ha|d x' Ha Hda Hdx]; subst.
  - intros Hc. by apply Hd.
  - by apply (Hd d Hda).
Qed.

Lemma open_below_within h a x : open_below h a x → within h a x.
Proof.
  induction 1 as [a Ha|a d x Ha Hd Hx IH]; [constructor|].
  eapply within_trans; [|done]. econstructor; [constructor|done].
Qed.

Lemma open_below_shrinks h h' a x :
  shrinks h h' → (∀ m, tag (deref h' m) = tag (deref h m)) →
  open_below h' a x → open_below h a x.
Proof.
  intros Hs Ht. induction 1 as [a Ha|a d x Ha Hd Hx IH].
  - constructor. by rewrite <-Ht.
  - eapply open_step; [by rewrite <-Ht|by apply Hs|done].
Qed.

(** The nodes whose text matters below [d]: [d] and the children of the
    nodes at or below [d]. *)
Definition zone (h : heap) (d m : ref) : Prop :=
  m = d ∨ ∃ x, within h d x ∧ m ∈ children (deref h x).

Lemma tidy_child_preserved h h' d :
  shrinks h h' → (∀ m, tag (deref h' m) = tag (deref h m)) →
  (∀ m, zone h d m → text (deref h' m) = text (deref h m)) →
  tidy_child h d → tidy_child h' d.
Proof.
  intros Hs Ht Htext [Hd Htidy]. split.
  - rewrite Ht, Htext by (by left). done.
  - intros x c Hx Hc Hcn.
    pose proof (open_below_shrinks _ _ _ _ Hs Ht Hx) as Hx'.
    rewrite Htext.
    + apply (Htidy x c Hx'); [by apply Hs|by rewrite <-Ht].
    + right. exists x. split; [by apply open_below_within|by apply Hs].
Qed.

Lemma within_inv h a c :
  within h a c → a = c ∨ ∃ y, within h a y ∧ c ∈ children (deref h y).
Proof. destruct 1; [by left|right; eauto]. Qed.

(** Two nodes above a third are one above the other. *)
Lemma within_linear h a b x :
  parents_ok h → within h a x → within h b x →
  within h a b ∨ within h b a.
Proof.
  intros Hpar Ha. revert b. induction Ha as [|x' x Ha IH Hx]; intros b Hb.
  - by right.
  - apply within_inv in Hb as [->|(y & Hby & Hxy)].
    + left. by econstructor.
    + assert (y = x') as ->.
      { apply Hpar in Hx, Hxy. congruence. }
      by apply IH.
Qed.

Lemma siblings_disjoint j h node d c x :
  parents_ok h → bounded j h node →
  d ∈ children (deref h node) → c ∈ children (deref h node) →
  within h d x → within h c x → d = c.
Proof.
  intros Hpar Hb Hd Hc Hdx Hcx.
  assert (∀ a b, a ∈ children (deref h node) → b ∈ children (deref h node) →
            within h a b → a = b) as Hup.
  { intros a b Ha Hb' Hab.
    apply within_inv in Hab as [?|(y & Hay & Hby)]; [done|].
    assert (y = node) as ->.
    { apply Hpar in Hby, Hb'. congruence. }
    by destruct (bounded_acyclic _ _ _ _ Hb Ha). }
  destruct (within_linear h d c x Hpar Hdx Hcx) as [?|?].
  - by apply Hup.
  - symmetry. by apply Hup.
Qed.

Lemma zone_off j h node c d m :
  parents_ok h → bounded j h node →
  c ∈ children (deref h node) → d ∈ children (deref h node) → c ≠ d →
  zone h d m →
  m ≠ c ∧ ∀ x, within h c x → m ∉ children (deref h x).
Proof.
  intros Hpar Hb Hc Hd Hne [->|(x & Hdx & Hmx)].
  - split; [done|]. intros x Hcx Hdx.
    assert (x = node) as ->.
    { apply Hpar in Hdx, Hd. congruence. }
    by destruct (bounded_acyclic _ _ _ _ Hb Hc).
  - split.
    + intros ->. assert (x = node) as ->.
      { apply Hpar in Hmx, Hc. congruence. }
      by destruct (bounded_acyclic _ _ _ _ Hb Hd).
    + intros x' Hcx' Hmx'. assert (x' = x) as ->.
      { apply Hpar in Hmx, Hmx'. congruence. }
      apply Hne. symmetry. by eapply (siblings_disjoint j h node d c x).
Qed.

Lemma within_same_children h g a x :
  (∀ m, children (deref g m) = children (deref h m)) →
  within g a x ↔ within h a x.
Proof.
  intros Hc. split; apply within_shrinks; intros m c; rewrite Hc; done.
Qed.

(** The loop of [clean_whitespace(node)] with [rest] still to visit: the
    structure as in [cw_inv], tags untouched, texts touched only at
    children of nodes at or below [node], and every child of [node] already
    visited and kept is tidy. *)
Definition cw_text_inv (h : heap) (node : ref) (rest : list ref) (hc : heap)
    : Prop :=
  cw_inv h node rest hc
  ∧ (∀ m, tag (deref hc m) = tag (deref h m))
  ∧ (∀ m, (∀ x, within h node x → m ∉ children (deref h x)) →
          text (deref hc m) = text (deref h m))
  ∧ (∀ d, d ∈ children (deref hc node) → d ∉ rest → tidy_child hc d).

(** What a call [clean_whitespace(c)] made by the loop has to deliver for
    the loop to go on. *)
Definition cw_call_ok (fuel : nat) (j : nat) : Prop :=
  ∀ c g h2,
    parents_ok g → (∀ p, NoDup (children (deref g p))) →
    bounded j g c →
    clean_whitespace fuel c false g = Ok h2 →
    (∀ m, tag (deref h2 m) = tag (deref g m))
    ∧ (∀ m, (∀ x, within g c x → m ∉ children (deref g x)) →
            text (deref h2 m) = text (deref g m))
    ∧ tidy h2 c.

(** A heap [g] that differs from [hc] at most in the text of [c]. *)
Definition retexted (c : ref) (hc g : heap) : Prop :=
  length g = length hc
  ∧ (∀ m, children (deref g m) = children (deref hc m))
  ∧ (∀ m, parent (deref g m) = parent (deref hc m))
  ∧ (∀ m, tag (deref g m) = tag (deref hc m))
  ∧ (∀ m, m ≠ c → text (deref g m) = text (deref hc m)).

Lemma retexted_refl c hc : retexted c hc hc.
Proof. by split_and!. Qed.

Lemma retexted_replace c hc : retexted c hc (replace_cr_and_tab c hc).
Proof.
  split_and!.
  - apply length_replace_cr_and_tab.
  - intros. by apply replace_cr_and_tab_frame.
  - intros. by apply replace_cr_and_tab_frame.
  - intros. by apply replace_cr_and_tab_frame.
  - intros m Hm. rewrite text_replace_cr_and_tab. by rewrite decide_False.
Qed.

Lemma cw_text_inv_retexted h node c rest hc g j :
  parents_ok h → bounded (S j) h node →
  cw_text_inv h node (c :: rest) hc → retexted c hc g →
  cw_inv h node (c :: rest) g
  ∧ parents_ok g ∧ bounded (S j) g node
  ∧ c ∈ children (deref g node)
  ∧ c ∈ children (deref h node)
  ∧ (∀ m, (∀ x, within h node x → m ∉ children (deref h x)) →
          text (deref g m) = text (deref h m))
  ∧ (∀ a x, within g a x ↔ within hc a x).
Proof.
  intros Hpar Hb (Hcw & Htag & Htext & Hgood) (Hgl & Hgc & Hgp & Hgt & Hgx).
  assert (cw_inv h node (c :: rest) g) as Hcwg by (by eapply cw_inv_frame).
  pose proof Hcwg as (_ & _ & _ & Hsh & _ & _ & Hrest).
  assert (c ∈ children (deref g node)) as Hc by (apply Hrest; left).
  split_and!; try done.
  - by eapply cw_inv_parents_ok.
  - by eapply bounded_shrinks.
  - by apply Hsh.
  - intros m Hm. rewrite Hgx, Htext; [done|done|].
    intros ->. apply (Hm node); [constructor|by apply Hsh].
  - intros a x. by apply within_same_children.
Qed.

Lemma cw_step_rec fuel h node c rest hc g hc2 j :
  cw_call_ok fuel j → j ≤ fuel →
  parents_ok h → bounded (S j) h node →
  cw_text_inv h node (c :: rest) hc → retexted c hc g →
  (tag (deref g c) = None →
     strip (or_empty (text (deref g c))) ≠ []
     ∧ chr_cr ∉ or_empty (text (deref g c))
     ∧ chr_tab ∉ or_empty (text (deref g c))) →
  clean_whitespace fuel c false g = Ok hc2 →
  cw_text_inv h node rest hc2.
Proof.
  intros IH Hj Hpar Hb Hinv Hg Hclean Hcall.
  destruct (cw_text_inv_retexted _ _ _ _ _ _ _ Hpar Hb Hinv Hg)
    as (Hcwg & Hparg & Hbg & Hcg & Hch & Htextg & Hwg).
  destruct Hinv as (Hcw & Htag & Htext & Hgood).
  destruct Hg as (Hgl & Hgc & Hgp & Hgt & Hgx).
  pose proof Hcwg as (_ & _ & Hndg & Hshg & _ & Hndr & _).
  apply NoDup_cons in Hndr as [Hcr _].
  assert (bounded j g c) as Hbgc by (by apply Hbg).
  destruct (clean_whitespace_total fuel c false g j Hparg Hndg Hbgc Hj)
    as (h2 & Hrun2 & Hlen2 & Hp2 & Hnd2 & Hsh2 & Hfoot2).
  rewrite Hcall in Hrun2. injection Hrun2 as <-.
  destruct (IH c g hc2 Hparg Hndg Hbgc Hcall) as (Htag2 & Htext2 & Htidy2).
  assert (¬ within g c node) as Hcyc by (by apply (bounded_acyclic (S j))).
  assert (∀ x, within g c x → c ∉ children (deref g x)) as Hself.
  { intros x Hx Hcx. assert (x = node) as ->; [|done].
    apply Hparg in Hcx, Hcg. congruence. }
  assert (∀ m, tag (deref hc2 m) = tag (deref hc m)) as Htag2'.
  { intros m. by rewrite Htag2, Hgt. }
  split_and!.
  - by eapply cw_inv_rec.
  - intros m. by rewrite Htag2', Htag.
  - intros m Hm. rewrite Htext2; [by apply Htextg|].
    intros x Hx Hmx. apply (Hm x).
    + eapply within_trans; [|by eapply within_shrinks].
      econstructor; [constructor|done].
    + by apply Hshg.
  - intros d Hd Hdr. rewrite Hfoot2, Hgc in Hd by done.
    destruct (decide (d = c)) as [->|Hdc].
    + split; [|done]. rewrite Htag2, Htext2 by done. done.
    + apply (tidy_child_preserved hc).
      * intros m x Hx. apply Hsh2 in Hx. by rewrite Hgc in Hx.
      * done.
      * intros m Hz.
        pose proof (cw_inv_parents_ok _ _ _ _ Hpar Hcw) as Hparc.
        assert (bounded (S j) hc node) as Hbc
          by (eapply bounded_shrinks; [apply Hcw|done]).
        assert (c ∈ children (deref hc node)) as Hchc by (by rewrite <-Hgc).
        destruct (zone_off (S j) hc node c d m Hparc Hbc Hchc Hd
                    (not_eq_sym Hdc) Hz) as [Hmc Hoff].
        rewrite Htext2; [by apply Hgx|].
        intros x Hx. rewrite Hgc. apply Hoff. by apply Hwg.
      * apply Hgood; [done|]. rewrite not_elem_of_cons. by split.
Qed.

Lemma cw_step_remove h node c rest hc g hc2 j :
  parents_ok h → bounded (S j) h node →
  cw_text_inv h node (c :: rest) hc → retexted c hc g →
  remove_from_parent c g = Ok hc2 →
  cw_text_inv h node rest hc2.
Proof.
  intros Hpar Hb Hinv Hg Hrem.
  destruct (cw_text_inv_retexted _ _ _ _ _ _ _ Hpar Hb Hinv Hg)
    as (Hcwg & Hparg & Hbg & Hcg & Hch & Htextg & Hwg).
  destruct Hinv as (Hcw & Htag & Htext & Hgood).
  destruct Hg as (Hgl & Hgc & Hgp & Hgt & Hgx).
  destruct (cw_inv_remove h node c rest g Hpar Hcwg) as (h2 & Hrem2 & Hcw2).
  rewrite Hrem in Hrem2. injection Hrem2 as <-.
  pose proof Hcwg as (_ & _ & Hndg & _ & _ & Hndr & _).
  apply NoDup_cons in Hndr as [Hcr _].
  unfold remove_from_parent, list_remove in Hrem.
  rewrite (Hparg _ _ Hcg) in Hrem.
  destruct (index_of_elem _ _ Hcg) as [i Hi]. rewrite Hi in Hrem.
  simpl in Hrem. injection Hrem as <-.
  rewrite (delete_index_of _ _ _ Hi) in *.
  assert (node < length g) as Hnode
    by (apply children_in_range; by destruct Hcg).
  split_and!.
  - done.
  - intros m. unfold set_children. frame. by rewrite Hgt, Htag.
  - intros m Hm. unfold set_children. frame. by apply Htextg.
  - intros d. rewrite children_set_children, decide_True by done.
    rewrite elem_of_remove_first by done. rewrite Hgc.
    intros [Hd Hdc] Hdr.
    apply (tidy_child_preserved hc).
    + intros m x. rewrite children_set_children.
      destruct (decide (m = node ∧ node < length g)) as [[-> _]|_].
      * rewrite elem_of_remove_first; [by intros [? _]|].
        rewrite <-Hgc. apply Hndg.
      * by rewrite Hgc.
    + intros m. unfold set_children. frame. by rewrite Hgt.
    + intros m Hz.
      pose proof (cw_inv_parents_ok _ _ _ _ Hpar Hcw) as Hparc.
      assert (bounded (S j) hc node) as Hbc
        by (eapply bounded_shrinks; [apply Hcw|done]).
      assert (c ∈ children (deref hc node)) as Hchc by (by rewrite <-Hgc).
      destruct (zone_off (S j) hc node c d m Hparc Hbc Hchc Hd
                  (not_eq_sym Hdc) Hz) as [Hmc _].
      unfold set_children. frame. by apply Hgx.
    + apply Hgood; [done|]. rewrite not_elem_of_cons. by split.
Qed.

Lemma cw_tidy fuel j : j ≤ fuel → cw_call_ok fuel j.
Proof.
  revert j. induction fuel as [|fuel IH]; intros j Hj node h h' Hpar Hnd Hb Hrun;
    [done|].
  destruct j as [|j]; [done|].
  cbn [clean_whitespace] in Hrun. cbn [orb] in Hrun.
  destruct (if truthy (tag (deref h node))
            then tag_in (tag (deref h node)) PRESERVE_WHITESPACE_TAGS
            else false) eqn:Hpres.
  { assert (h' = h) as ->.
    { rewrite foldM_const in Hrun; [by injection Hrun|].
      intros c Hc. destruct (tag (deref h c)); [|done].
      apply (clean_whitespace_preserved fuel c h j); [by apply Hb|lia]. }
    split_and!; [done|done|].
    assert (tag_in (tag (deref h node)) PRESERVE_WHITESPACE_TAGS = true) as Ht
      by (by destruct (truthy _)).
    intros x c Hx. inversion Hx; congruence. }
  assert (∀ rest hc, cw_text_inv h node rest hc →
            foldM (λ child h,
              match tag (deref h child) with
              | None =>
                  let h := replace_cr_and_tab child h in
                  if bool_decide (strip (or_empty (text (deref h child))) = [])
                  then remove_from_parent child h
                  else clean_whitespace fuel child false h
              | Some _ => clean_whitespace fuel child false h
              end) rest hc = Ok h' →
            cw_text_inv h node [] h') as Hloop.
  { clear Hrun. induction rest as [|c rest IHrest]; intros hc Hinv Hfold.
    { by injection Hfold as <-. }
    cbn [foldM] in Hfold. apply bind_Ok in Hfold as (hc2 & Hbody & Hfold).
    apply (IHrest hc2); [|done]. clear IHrest Hfold.
    assert (cw_call_ok fuel j) as IHj by (apply IH; lia).
    assert (j ≤ fuel) as Hj' by lia.
    destruct (tag (deref hc c)) eqn:Htc.
    - apply (cw_step_rec fuel h node c rest hc hc hc2 j IHj Hj' Hpar Hb Hinv
               (retexted_refl _ _)); [by rewrite Htc|exact Hbody].
    - cbn zeta in Hbody.
      destruct (bool_decide (strip (or_empty (text (deref
                  (replace_cr_and_tab c hc) c))) = [])) eqn:Hblank.
      + exact (cw_step_remove h node c rest hc _ hc2 j Hpar Hb Hinv
                 (retexted_replace _ _) Hbody).
      + apply (cw_step_rec fuel h node c rest hc _ hc2 j IHj Hj' Hpar Hb Hinv
                 (retexted_replace _ _)); [|exact Hbody].
        intros _. apply bool_decide_eq_false in Hblank. split; [done|].
        rewrite text_replace_cr_and_tab, decide_True by done.
        apply clean_cr_tab_spec. }
  destruct (Hloop (children (deref h node)) h) as (_ & Htag & Htext & Hgood).
  - unfold cw_text_inv, cw_inv. split_and!; try done. apply shrinks_refl.
  - done.
  - split_and!; [done|done|].
    apply tidy_intro. intros d Hd. apply Hgood; [done|apply not_elem_of_nil].
Qed.

(** X20. What [clean_whitespace] leaves behind: run on a node of a
    well-formed tree, with [preserve] unset, it returns, changes no tag, and
    afterwards no node without a tag (text, comment or doctype) that it can
    reach without entering a [pre], [code], [textarea], [script] or [style]
    element is blank or holds a carriage return or a tab. *)
Theorem clean_whitespace_leaves_no_blank_text
    (root : ref) (fuel : nat) (h : heap) (node : ref) :
  wf root h → within h root node → length h ≤ fuel →
  ∃ h', clean_whitespace fuel node false h = Ok h'
    ∧ (∀ m, tag (deref h' m) = tag (deref h m))
    ∧ ∀ x c, open_below h' node x → c ∈ children (deref h' x) →
             tag (deref h' c) = None →
             strip (or_empty (text (deref h' c))) ≠ []
             ∧ chr_cr ∉ or_empty (text (deref h' c))
             ∧ chr_tab ∉ or_empty (text (deref h' c)).
Proof.
  intros Hwf Hnode Hfuel.
  pose proof (bounded_reachable _ _ _ Hwf Hnode) as Hb.
  destruct (clean_whitespace_total fuel node false h (length h))
    as (h' & Hrun & _); [apply Hwf|apply Hwf|done|done|].
  exists h'. split; [done|].
  destruct (cw_tidy fuel (length h) Hfuel node h h') as (Htag & _ & Htidy);
    [apply Hwf|apply Hwf|done|done|].
  split; [done|]. exact Htidy.
Qed.

(** [<p> a	b <!-- --><b> </b></p><pre> </pre>]: the blank text and the
    blank comment go, the tab becomes a space, the [pre] keeps its blank. *)
Lemma clean_whitespace_leaves_no_blank_text_witness :
  let evs := [StartTag (lit "p") []; Data [32; 97; 9; 98; 32]%N;
              Comment (lit " "); StartTag (lit "b") []; Data (lit " ");
              EndTag (lit "b"); EndTag (lit "p");
              StartTag (lit "pre") []; Data (lit " ")] in
  ∃ h, parse_html evs = Ok (0, h)
    ∧ ∃ h', clean_whitespace 8 0 false h = Ok h'
        ∧ (∀ m, tag (deref h' m) = tag (deref h m))
        ∧ ∀ x c, open_below h' 0 x → c ∈ children (deref h' x) →
                 tag (deref h' c) = None →
                 strip (or_empty (text (deref h' c))) ≠ []
                 ∧ chr_cr ∉ or_empty (text (deref h' c))
                 ∧ chr_tab ∉ or_empty (text (deref h' c)).
Proof.
  eexists.
  match goal with |- ?A ∧ _ => assert A as Hparse by (vm_compute; reflexivity) end.
  split; [exact Hparse|].
  apply (clean_whitespace_leaves_no_blank_text 0 8 _ 0
           (parse_html_wf _ _ _ Hparse) (within_refl _ 0)).
  clear. vm_compute. lia.
Defined.

(** ** Unwrapping in place *)

(** X21. [unwrap] puts the children of the node in its place, in order:
    the children of the parent before and after the node stay where they
    are, the children of the node come between them and now name the
    parent as theirs, the node ends with no children and no parent, and no
    other children list or parent changes. *)
Theorem unwrap_splices_children (root : ref) (h : heap) (div p : ref) :
  wf root h → within h root p → div ∈ children (deref h p) →
  ∃ h' before after,
    unwrap div h = Ok h'
    ∧ children (deref h p) = before ++ div :: after
    ∧ children (deref h' p) = before ++ children (deref h div) ++ after
    ∧ children (deref h' div) = []
    ∧ parent (deref h' div) = None
    ∧ (∀ c, c ∈ children (deref h div) → parent (deref h' c) = Some p)
    ∧ (∀ m, m ≠ p → m ≠ div →
         children (deref h' m) = children (deref h m))
    ∧ (∀ m, m ≠ div → m ∉ children (deref h div) →
         parent (deref h' m) = parent (deref h m))
    ∧ length h' = length h.
Proof.
  intros Hwf Hp Hdiv.
  assert (p ≠ div) as Hne.
  { intros ->. eapply within_acyclic; [done..|constructor]. }
  destruct (unwrap_Ok root h div p Hwf Hdiv Hne)
    as (h' & i & Hun & Hi & Hlen & Hch & Hpar).
  exists h', (take i (children (deref h p))),
    (drop (S i) (children (deref h p))).
  split_and!; [done|by apply index_of_split|..|done].
  - rewrite Hch, decide_False, decide_True by done.
    by rewrite take_delete_same, drop_delete_same.
  - by rewrite Hch, decide_True.
  - by rewrite Hpar, decide_True.
  - intros c Hc. rewrite Hpar, decide_False, decide_True; [done|done|].
    intros ->. pose proof (wf_parents _ _ Hwf _ _ Hc) as H1.
    pose proof (wf_parents _ _ Hwf _ _ Hdiv) as H2.
    rewrite H1 in H2. injection H2 as ->. done.
  - intros m Hmp Hmd. by rewrite Hch, !decide_False.
  - intros m Hmd Hmc. by rewrite Hpar, !decide_False.
Qed.

(** [<section>a<div>b<i>c</i></div>d</section>]: the section ends with the
    children a, b, [i], d. *)
Lemma unwrap_splices_children_witness :
  let evs := [StartTag (lit "section") []; Data (lit "a");
              StartTag (lit "div") []; Data (lit "b");
              StartTag (lit "i") []; Data (lit "c"); EndTag (lit "i");
              EndTag (lit "div"); Data (lit "d")] in
  ∃ h, parse_html evs = Ok (0, h)
    ∧ children (deref h 1) = [2; 3; 7]
    ∧ ∃ h' before after,
        unwrap 3 h = Ok h'
        ∧ children (deref h 1) = before ++ 3 :: after
        ∧ children (deref h' 1) = before ++ children (deref h 3) ++ after
        ∧ children (deref h' 3) = []
        ∧ parent (deref h' 3) = None
        ∧ (∀ c, c ∈ children (deref h 3) → parent (deref h' c) = Some 1)
        ∧ (∀ m, m ≠ 1 → m ≠ 3 →
             children (deref h' m) = children (deref h m))
        ∧ (∀ m, m ≠ 3 → m ∉ children (deref h 3) →
             parent (deref h' m) = parent (deref h m))
        ∧ length h' = length h.
Proof.
  eexists.
  match goal with |- ?A ∧ _ => assert A as Hparse by (vm_compute; reflexivity) end.
  split; [exact Hparse|].
  split; [clear; vm_compute; reflexivity|].
  apply (unwrap_splices_children 0 _ 3 1 (parse_html_wf _ _ _ Hparse)).
  - clear. apply (within_child _ 0 0 1); [constructor|]. vm_compute. left.
  - clear. vm_compute. right. left.
Defined.

(** ** Walking up the parents *)

Lemma find_ancestor_from_chain fuel h c l names :
  pchain h c l → length l ≤ fuel →
  find_ancestor_from fuel h (Some c) names
  = Ok (List.find (λ a, tag_in (tag (deref h a)) names) l).
Proof.
  intros Hchain. revert fuel.
  induction Hchain as [n Hn|n p l Hp Hl IH]; intros fuel Hlen; simpl in Hlen;
    (destruct fuel as [|fuel]; [lia|]); simpl.
  - destruct (tag_in _ _); [done|]. rewrite Hn. by destruct fuel.
  - destruct (tag_in _ _); [done|]. rewrite Hp. apply IH. lia.
Qed.

Lemma is_descendant_from_chain fuel h c l anc :
  pchain h c l → length l ≤ fuel →
  is_descendant_from fuel h (Some c) anc = Ok (bool_decide (anc ∈ l)).
Proof.
  intros Hchain. revert fuel.
  induction Hchain as [n Hn|n p l Hp Hl IH]; intros fuel Hlen; simpl in Hlen;
    (destruct fuel as [|fuel]; [lia|]); cbn [is_descendant_from].
  - destruct (decide (n = anc)) as [->|Hne].
    + by rewrite bool_decide_eq_true_2 by left.
    + rewrite Hn. rewrite bool_decide_eq_false_2.
      * by destruct fuel.
      * rewrite list_elem_of_singleton. naive_solver.
  - destruct (decide (n = anc)) as [->|Hne].
    + by rewrite bool_decide_eq_true_2 by left.
    + rewrite Hp, IH by lia. f_equal. apply bool_decide_ext.
      rewrite elem_of_cons. naive_solver.
Qed.

Lemma is_descendant_chain fuel h node l anc :
  pchain h node (node :: l) → length l ≤ fuel →
  is_descendant fuel h node anc = Ok (bool_decide (anc ∈ l)).
Proof.
  intros Hchain Hlen. unfold is_descendant.
  inversion Hchain as [? Hn|? p ? Hp Hl]; subst.
  - rewrite Hn.
    destruct fuel; cbn [is_descendant_from]; f_equal; symmetry;
      apply bool_decide_eq_false_2, not_elem_of_nil.
  - rewrite Hp. by apply is_descendant_from_chain.
Qed.

(** X22. [find_ancestor] and [is_descendant] read the chain of parents:
    when [l] is the parent of the node, its parent, and so on up to a node
    without parent, [find_ancestor] returns the first node of [l] whose tag
    is one of the names ([None] when there is none), and [is_descendant]
    says whether the other node is in [l]; a node is no descendant of
    itself. *)
Theorem find_ancestor_finds_nearest
    (fuel : nat) (h : heap) (node : ref) (l : list ref)
    (names : list (list N)) :
  pchain h node (node :: l) → length l ≤ fuel →
  find_ancestor fuel h node names
  = Ok (List.find (λ a, tag_in (tag (deref h a)) names) l)
  ∧ (∀ anc, is_descendant fuel h node anc = Ok (bool_decide (anc ∈ l)))
  ∧ node ∉ l.
Proof.
  intros Hchain Hlen. split_and!.
  - unfold find_ancestor.
    inversion Hchain as [? Hn|? p ? Hp Hl]; subst.
    + rewrite Hn. by destruct fuel.
    + rewrite Hp. by apply find_ancestor_from_chain.
  - intros anc. by apply is_descendant_chain.
  - apply pchain_NoDup in Hchain. by apply NoDup_cons in Hchain as [? _].
Qed.

(** [<div><footer><p><b>x</b></p></footer></div>]: from the [b], the chain
    is [p], [footer], [div], root. *)
Lemma find_ancestor_finds_nearest_witness :
  let evs := [StartTag (lit "div") []; StartTag (lit "footer") [];
              StartTag (lit "p") []; StartTag (lit "b") []; Data (lit "x")] in
  ∃ h, parse_html evs = Ok (0, h)
    ∧ find_ancestor 4 h 4 [lit "footer"]
      = Ok (List.find (λ a, tag_in (tag (deref h a)) [lit "footer"])
              [3; 2; 1; 0])
    ∧ (∀ anc, is_descendant 4 h 4 anc = Ok (bool_decide (anc ∈ [3; 2; 1; 0])))
    ∧ 4 ∉ [3; 2; 1; 0].
Proof.
  eexists.
  match goal with |- ?A ∧ _ => assert A as Hparse by (vm_compute; reflexivity) end.
  split; [exact Hparse|]. clear Hparse.
  apply (find_ancestor_finds_nearest 4 _ 4 [3; 2; 1; 0] [lit "footer"]).
  - repeat (eapply pchain_step; [vm_compute; reflexivity|]).
    apply pchain_top. vm_compute. reflexivity.
  - simpl. lia.
Defined.

Lemma pchain_within root h x l a :
  wf root h → within h root x → pchain h x l → a ∈ l → within h a x.
Proof.
  intros Hwf Hx. revert l.
  induction Hx as [|x' x Hx' IH Hx]; intros l Hchain Ha.
  - pose proof (pchain_det _ _ _ _ Hchain (pchain_root _ _ Hwf)) as ->.
    apply list_elem_of_singleton in Ha as ->. constructor.
  - pose proof (wf_parents _ _ Hwf _ _ Hx) as Hpar.
    inversion Hchain as [? Hn|? p l' Hp Hl]; subst; [congruence|].
    assert (p = x') as -> by congruence.
    apply elem_of_cons in Ha as [->|Ha]; [constructor|].
    econstructor; [by eapply IH|done].
Qed.

Lemma within_pchain_elem h a x l :
  parents_ok h → within h a x → pchain h x l → a ∈ l.
Proof.
  intros Hpar Hx. revert l.
  induction Hx as [|x' x Hx' IH Hx]; intros l Hchain.
  - inversion Hchain; left.
  - pose proof (Hpar _ _ Hx) as Hp'.
    inversion Hchain as [? Hn|? p l' Hp Hl]; subst; [congruence|].
    assert (p = x') as -> by congruence. right. by apply IH.
Qed.

(** X23. In a well-formed tree the parents and the children tell the same
    story: [is_descendant(node, other)], which walks up the parents of a
    node of the tree, is true exactly when [node] is reached from [other]
    through lists of children and is not [other] itself. *)
Theorem is_descendant_agrees_with_children
    (root : ref) (fuel : nat) (h : heap) (node anc : ref) :
  wf root h → within h root node → length h ≤ fuel →
  ∃ b, is_descendant fuel h node anc = Ok b
       ∧ (b = true ↔ anc ≠ node ∧ within h anc node).
Proof.
  intros Hwf Hnode Hfuel.
  destruct (reachable_pchain root h node Hwf Hnode) as (l & Hchain & Hlen).
  assert (∃ l', l = node :: l') as [l' ->] by (inversion Hchain; eauto).
  exists (bool_decide (anc ∈ l')). split.
  - apply is_descendant_chain; [done|]. simpl in Hlen. lia.
  - rewrite bool_decide_eq_true. split.
    + intros Hin. split.
      * intros ->. apply pchain_NoDup in Hchain.
        by apply NoDup_cons in Hchain as [? _].
      * eapply pchain_within; [done..|]. by right.
    + intros [Hne Hw].
      pose proof (within_pchain_elem _ _ _ _ (wf_parents _ _ Hwf) Hw Hchain)
        as Hin.
      apply elem_of_cons in Hin as [?|?]; done.
Qed.

Lemma is_descendant_agrees_with_children_witness :
  let evs := [StartTag (lit "div") []; StartTag (lit "p") []; Data (lit "x");
              EndTag (lit "p"); StartTag (lit "p") []] in
  ∃ h, parse_html evs = Ok (0, h)
    ∧ ∃ b, is_descendant 5 h 3 1 = Ok b
           ∧ (b = true ↔ 1 ≠ 3 ∧ within h 1 3).
Proof.
  eexists.
  match goal with |- ?A ∧ _ => assert A as Hparse by (vm_compute; reflexivity) end.
  split; [exact Hparse|].
  apply (is_descendant_agrees_with_children 0 5 _ 3 1
           (parse_html_wf _ _ _ Hparse)).
  - clear. apply (within_child _ 0 2 3); [|vm_compute; left].
    apply (within_child _ 0 1 2); [|vm_compute; left].
    apply (within_child _ 0 0 1); [constructor|vm_compute; left].
  - clear. vm_compute. lia.
Defined.

(** ** Wrapping the body in [main] *)

Lemma reparent_loop main body rest done g :
  body ≠ main → body < length g → main < length g →
  children (deref g body) = rest → children (deref g main) = done →
  NoDup rest → (∀ c, c ∈ rest → c < length g) →
  children (deref (foldl (λ h child, Node_append main child
                                       (Node_remove body child h)) g rest)
              body) = []
  ∧ children (deref (foldl (λ h child, Node_append main child
                                         (Node_remove body child h)) g rest)
                main) = done ++ rest
  ∧ (∀ m, m ≠ body → m ≠ main →
       children (deref (foldl (λ h child, Node_append main child
                                            (Node_remove body child h)) g rest)
                   m) = children (deref g m))
  ∧ (∀ m, parent (deref (foldl (λ h child, Node_append main child
                                             (Node_remove body child h)) g rest)
                     m)
          = if decide (m ∈ rest) then Some main else parent (deref g m)).
Proof.
  intros Hne. revert done g.
  induction rest as [|c rest IH]; intros done g Hbody Hmain Hcb Hcm Hnd Hrange;
    cbn [foldl].
  { rewrite app_nil_r. by split_and!. }
  apply NoDup_cons in Hnd as [Hc Hnd].
  assert (c < length g) as Hclt by (apply Hrange; left).
  set (g1 := Node_append main c (Node_remove body c g)).
  assert (length g1 = length g) as Hlen1
    by (unfold g1; by rewrite length_Node_append, length_Node_remove).
  assert (∀ m, children (deref g1 m)
               = if decide (m = main) then done ++ [c]
                 else if decide (m = body) then rest
                 else children (deref g m)) as Hc1.
  { intros m. unfold g1.
    rewrite children_Node_append, length_Node_remove, !children_Node_remove.
    rewrite Hcb, remove_first_cons, (decide_True (P := c = c)) by done.
    rewrite (decide_False (P := main = body ∧ _)) by naive_solver.
    rewrite Hcm.
    destruct (decide (m = main)) as [->|Hmm].
    - by rewrite decide_True.
    - rewrite decide_False by naive_solver.
      destruct (decide (m = body)) as [->|Hmb].
      + by rewrite decide_True.
      + by rewrite decide_False by naive_solver. }
  assert (∀ m, parent (deref g1 m)
               = if decide (m = c) then Some main else parent (deref g m))
    as Hp1.
  { intros m. unfold g1.
    rewrite parent_Node_append, length_Node_remove, parent_Node_remove.
    destruct (decide (m = c)) as [->|Hmc].
    - by rewrite decide_True.
    - by rewrite !decide_False by naive_solver. }
  destruct (IH (done ++ [c]) g1) as (H1 & H2 & H3 & H4).
  - lia.
  - lia.
  - rewrite Hc1. rewrite decide_False by done. by rewrite decide_True.
  - rewrite Hc1. by rewrite decide_True.
  - done.
  - intros x Hx. rewrite Hlen1. apply Hrange. by right.
  - split_and!.
    + done.
    + by rewrite H2, <-app_assoc.
    + intros m Hmb Hmm. rewrite H3, Hc1 by done. by rewrite !decide_False.
    + intros m. rewrite H4, Hp1.
      destruct (decide (m = c)) as [->|Hmc].
      * rewrite decide_False by done. rewrite decide_True; [done|left].
      * destruct (decide (m ∈ rest)) as [Hin|Hin].
        -- rewrite decide_True; [done|by right].
        -- rewrite decide_False; [done|].
           rewrite not_elem_of_cons. by split.
Qed.

(** X25. The wrapping of the children of [body] in a new [main] that
    [move_footer_elements] does keeps them in order: the new [main] has
    the children [body] had, in the same order, each naming [main] as its
    parent; [body] has [main] as its only child; no other children list
    and no other parent changes. *)
Theorem wrap_body_in_main_keeps_order (root : ref) (body : ref) (h : heap) :
  wf root h → body < length h →
  ∃ main h',
    wrap_body_in_main body h = (main, h')
    ∧ main = length h
    ∧ tag (deref h' main) = Some (lit "main")
    ∧ children (deref h' main) = children (deref h body)
    ∧ children (deref h' body) = [main]
    ∧ parent (deref h' main) = Some body
    ∧ (∀ c, c ∈ children (deref h body) → parent (deref h' c) = Some main)
    ∧ (∀ m, m ≠ body → m ≠ main →
         children (deref h' m) = children (deref h m))
    ∧ (∀ m, m ≠ main → m ∉ children (deref h body) →
         parent (deref h' m) = parent (deref h m)).
Proof.
  intros Hwf Hbody.
  exists (wrap_body_in_main body h).1, (wrap_body_in_main body h).2.
  split; [by destruct (wrap_body_in_main body h)|].
  split; [done|].
  split; [apply wrap_body_in_main_main|].
  unfold wrap_body_in_main. simpl.
  set (main := length h).
  set (nd := Node_init (Some (lit "main")) [] None false false).
  assert (∀ m, children (deref (h ++ [nd]) m) = children (deref h m)) as Hc0.
  { intros m. rewrite deref_app_one. case_decide; [|done]. subst m.
    by rewrite deref_out_of_range. }
  assert (∀ m, parent (deref (h ++ [nd]) m) = parent (deref h m)) as Hp0.
  { intros m. rewrite deref_app_one. case_decide; [|done]. subst m.
    by rewrite deref_out_of_range. }
  rewrite Hc0.
  destruct (reparent_loop main body (children (deref h body)) [] (h ++ [nd]))
    as (H1 & H2 & H3 & H4).
  - unfold main. lia.
  - rewrite length_app. simpl. lia.
  - rewrite length_app. simpl. unfold main. lia.
  - apply Hc0.
  - rewrite Hc0. unfold main. by rewrite deref_out_of_range.
  - apply Hwf.
  - intros c Hc. rewrite length_app. simpl.
    pose proof (wf_range _ _ Hwf _ _ Hc). lia.
  - assert (body ≠ main) as Hbm by (unfold main; lia).
    assert (main ∉ children (deref h body)) as Hmc.
    { intros Hin. pose proof (wf_range _ _ Hwf _ _ Hin). unfold main in *. lia. }
    rewrite !children_Node_append, !parent_Node_append,
      !length_foldl_reparent, length_app. simpl.
    split_and!.
    + rewrite decide_False by naive_solver. done.
    + rewrite decide_True by (split; [done|lia]). by rewrite H1.
    + rewrite decide_True; [done|]. split; [done|]. unfold main. lia.
    + intros c Hc. rewrite parent_Node_append, length_foldl_reparent.
      rewrite decide_False by (intros [-> _]; done).
      rewrite H4. by rewrite decide_True.
    + intros m Hmb Hmm. rewrite children_Node_append.
      rewrite decide_False by naive_solver. by rewrite H3, Hc0.
    + intros m Hmm Hmc'. rewrite parent_Node_append.
      rewrite decide_False by naive_solver.
      rewrite H4. by rewrite decide_False, Hp0.
Qed.

(** [<body><p>a</p>b<!--c--></body>] *)
Lemma wrap_body_in_main_keeps_order_witness :
  let evs := [StartTag (lit "body") []; StartTag (lit "p") [];
              Data (lit "a"); EndTag (lit "p"); Data (lit "b");
              Comment (lit "c")] in
  ∃ h, parse_html evs = Ok (0, h)
    ∧ children (deref h 1) = [2; 4; 5]
    ∧ ∃ main h',
        wrap_body_in_main 1 h = (main, h')
        ∧ main = length h
        ∧ tag (deref h' main) = Some (lit "main")
        ∧ children (deref h' main) = children (deref h 1)
        ∧ children (deref h' 1) = [main]
        ∧ parent (deref h' main) = Some 1
        ∧ (∀ c, c ∈ children (deref h 1) → parent (deref h' c) = Some main)
        ∧ (∀ m, m ≠ 1 → m ≠ main →
             children (deref h' m) = children (deref h m))
        ∧ (∀ m, m ≠ main → m ∉ children (deref h 1) →
             parent (deref h' m) = parent (deref h m)).
Proof.
  eexists.
  match goal with |- ?A ∧ _ => assert A as Hparse by (vm_compute; reflexivity) end.
  split; [exact Hparse|].
  split; [clear; vm_compute; reflexivity|].
  apply (wrap_body_in_main_keeps_order 0 1 _ (parse_html_wf _ _ _ Hparse)).
  clear. vm_compute. lia.
Defined.

(** ** Documents without a copyright line *)

Lemma is_prefix_by_app {A} (eqb : A → A → bool) (p s b : list A) :
  is_prefix_by eqb p s = true → is_prefix_by eqb p (s ++ b) = true.
Proof.
  revert s. induction p as [|a p IH]; intros [|c s]; simpl; try done.
  intros [-> Hp]%andb_true_iff. simpl. by apply IH.
Qed.

Lemma search_cons (c : N) (s : list N) :
  FOOTER_PATTERN_search (c :: s)
  = ((c =? chr_copyright)%N
     || is_prefix_by ci_eqb (lit "creative commons") (c :: s)
     || FOOTER_PATTERN_search s).
Proof. done. Qed.

Lemma search_app_r (s b : list N) :
  FOOTER_PATTERN_search s = true → FOOTER_PATTERN_search (s ++ b) = true.
Proof.
  induction s as [|c s IH]; [done|].
  change ((c :: s) ++ b) with (c :: (s ++ b)). rewrite !search_cons.
  intros [[Hc|Hp]%orb_true_iff|Hs]%orb_true_iff.
  - by rewrite Hc.
  - apply (is_prefix_by_app _ _ _ b) in Hp.
    change ((c :: s) ++ b) with (c :: (s ++ b)) in Hp.
    rewrite Hp. by rewrite orb_true_r.
  - rewrite IH by done. by rewrite orb_true_r.
Qed.

Lemma search_app_l (a s : list N) :
  FOOTER_PATTERN_search s = true → FOOTER_PATTERN_search (a ++ s) = true.
Proof.
  intros Hs. induction a as [|c a IH]; [done|].
  change ((c :: a) ++ s) with (c :: (a ++ s)). rewrite search_cons, IH.
  by rewrite orb_true_r.
Qed.

Lemma flatten_lookup {A} (ls : list (list A)) (i : nat) (l : list A) :
  ls !! i = Some l →
  flatten ls = flatten (take i ls) ++ l ++ flatten (drop (S i) ls).
Proof.
  intros Hi. rewrite <-(take_drop_middle ls i l Hi) at 1.
  unfold flatten. by rewrite List.concat_app.
Qed.

Lemma get_text_child_infix fuel h a c t :
  tag (deref h a) ≠ None →
  is_comment (deref h a) = false → is_doctype (deref h a) = false →
  c ∈ children (deref h a) →
  get_text (S fuel) h a = Ok t →
  ∃ tc pre post, get_text fuel h c = Ok tc ∧ t = pre ++ tc ++ post.
Proof.
  intros Ht Hcom Hdoc Hc. rewrite get_text_element by done.
  intros (ts & Hts & ->)%fmap_Ok. apply traverse_Ok in Hts.
  apply list_elem_of_lookup in Hc as [i Hi].
  destruct (Forall2_lookup_l _ _ _ _ _ Hts Hi) as (tc & Htc & Hget).
  exists tc, (flatten (take i ts)), (flatten (drop (S i) ts)).
  split; [done|]. by apply flatten_lookup.
Qed.

Lemma truthy_not_None (t : option (list N)) : truthy t = true → t ≠ None.
Proof. by destruct t. Qed.

Lemma element_below_text fuel j h a x t :
  elements_plain h → element_below h a x →
  tag (deref h a) ≠ None → bounded j h a → j ≤ fuel →
  get_text fuel h a = Ok t →
  ∃ tx pre post, get_text fuel h x = Ok tx ∧ t = pre ++ tx ++ post.
Proof.
  intros Hplain Hx. revert t.
  assert (∀ a c t, c ∈ children (deref h a) → tag (deref h a) ≠ None →
            bounded j h a → j ≤ fuel → get_text fuel h a = Ok t →
            ∃ tc pre post, get_text fuel h c = Ok tc ∧ t = pre ++ tc ++ post)
    as Hchild.
  { clear a x Hx. intros a c t Hc Ht Hb Hj Hget.
    destruct fuel as [|fuel]; [done|]. destruct j as [|j]; [done|].
    destruct (Hplain a Ht) as [Hcom Hdoc].
    destruct (get_text_child_infix _ _ _ _ _ Ht Hcom Hdoc Hc Hget)
      as (tc & pre & post & Htc & ->).
    exists tc, pre, post. split; [|done]. rewrite <-Htc.
    apply (get_text_fuel j); [by apply Hb|lia..]. }
  induction Hx as [a c Hc Hct|a c x Hc Hct Hx IH]; intros t Ht Hb Hj Hget.
  - by apply (Hchild a).
  - destruct (Hchild a c t Hc Ht Hb Hj Hget) as (tc & pre & post & Htc & ->).
    destruct (IH tc) as (tx & pre' & post' & Htx & ->).
    + by apply truthy_not_None.
    + destruct j as [|j]; [done|]. eapply bounded_mono; [by apply Hb|lia].
    + done.
    + done.
    + exists tx, (pre ++ pre'), (post' ++ post). split; [done|].
      by rewrite <-!app_assoc.
Qed.

Lemma filterM_all_false {A} (keep : A → res bool) (l : list A) :
  (∀ x, x ∈ l → keep x = Ok false) → filterM keep l = Ok [].
Proof.
  induction l as [|x l IH]; intros Hk; simpl; [done|].
  rewrite (Hk x) by left. simpl. rewrite IH; [done|].
  intros y Hy. apply Hk. by right.
Qed.

(** X26. A document without a copyright line is left alone by
    [move_footer_elements]: when the text of the root holds neither the
    copyright sign nor the words "creative commons" (in any case), the
    pass returns the tree and the counters exactly as they were; no [main]
    and no [footer] is made. *)
Theorem move_footer_elements_leaves_plain_documents
    (root : ref) (fuel : nat) (st : state) (t : list N) :
  wf root st.1 → elements_plain st.1 → tag (deref st.1 root) ≠ None →
  length st.1 ≤ fuel →
  get_text fuel st.1 root = Ok t → FOOTER_PATTERN_search t = false →
  move_footer_elements fuel root st = Ok st.
Proof.
  intros Hwf Hplain Htag Hfuel Ht Hsearch. unfold move_footer_elements.
  destruct (iter_tags_total fuel st.1 [] root (length st.1))
    as [all Hall]; [by apply bounded_root|done|].
  rewrite Hall. simpl.
  rewrite filterM_all_false; [done|].
  intros x Hx. apply (iter_tags_spec _ _ _ _ _ Hall) in Hx as [Hx _].
  destruct (element_below_text fuel (length st.1) st.1 root x t)
    as (tx & pre & post & Htx & ->); try done; [by apply bounded_root|].
  unfold footer_candidate.
  destruct (tag_in _ _); [done|]. destruct (negb _); [done|].
  rewrite Htx. simpl.
  destruct (FOOTER_PATTERN_search tx) eqn:Hs; [|done].
  rewrite search_app_l in Hsearch; [done|]. by apply search_app_r.
Qed.

(** [<body><p>Contact us</p></body>] *)
Lemma move_footer_elements_leaves_plain_documents_witness :
  let evs := [StartTag (lit "body") []; StartTag (lit "p") [];
              Data (lit "Contact us")] in
  ∃ h, parse_html evs = Ok (0, h)
       ∧ move_footer_elements 5 0 (h, no_stats) = Ok (h, no_stats).
Proof.
  eexists.
  match goal with |- ?A ∧ _ => assert A as Hparse by (vm_compute; reflexivity) end.
  split; [exact Hparse|].
  apply (move_footer_elements_leaves_plain_documents 0 5 (_, no_stats)
           (lit "Contact us") (parse_html_wf _ _ _ Hparse)
           (parse_html_elements_plain _ _ _ Hparse)).
  - clear. vm_compute. discriminate.
  - clear. vm_compute. lia.
  - clear. vm_compute. reflexivity.
  - clear. vm_compute. reflexivity.
Defined.

(** ** The characters that are not whitespace *)

(** The text without its whitespace. *)
Definition ink (t : list N) : list N := filter (λ c, isspace c = false) t.

Lemma ink_app (a b : list N) : ink (a ++ b) = ink a ++ ink b.
Proof. apply filter_app. Qed.

Lemma ink_flatten_cons (t : list N) (ts : list (list N)) :
  ink (flatten (t :: ts)) = ink t ++ ink (flatten ts).
Proof. unfold flatten. simpl. apply ink_app. Qed.

Lemma ink_spaces (t : list N) :
  Forall (λ c, isspace c = true) t → ink t = [].
Proof.
  intros Ht. apply filter_none. intros c Hc.
  rewrite Forall_forall in Ht. rewrite (Ht c Hc). done.
Qed.

Lemma lstrip_nil (s : list N) :
  lstrip s = [] → Forall (λ c, isspace c = true) s.
Proof.
  induction s as [|c s IH]; simpl; [constructor|].
  destruct (isspace c) eqn:Hc; [|done]. intros Hs. constructor; auto.
Qed.

Lemma lstrip_head (s : list N) :
  lstrip s = [] ∨ ∃ c s', lstrip s = c :: s' ∧ isspace c = false.
Proof.
  induction s as [|c s IH]; simpl; [by left|].
  destruct (isspace c) eqn:Hc; [done|]. right. by exists c, s.
Qed.

Lemma lstrip_spaces (s : list N) :
  Forall (λ c, isspace c = true) s → lstrip s = [].
Proof.
  induction 1 as [|c s Hc Hs IH]; simpl; [done|]. by rewrite Hc.
Qed.

(** A text is blank exactly when it has no ink. *)
Lemma strip_nil_ink (t : list N) : strip t = [] ↔ ink t = [].
Proof.
  assert (ink t = [] ↔ Forall (λ c, isspace c = true) t) as Hink.
  { split; [|apply ink_spaces]. unfold ink. intros Hf.
    apply Forall_forall. intros c Hc.
    destruct (isspace c) eqn:Hs; [done|].
    assert (c ∈ filter (λ c, isspace c = false) t) as Hin
      by (by apply list_elem_of_filter).
    rewrite Hf in Hin. by apply elem_of_nil in Hin. }
  rewrite Hink. unfold strip, rstrip. split.
  - intros Hs.
    destruct (lstrip_head (rev t)) as [Hr|(c & s' & Hr & Hc)].
    + apply lstrip_nil in Hr. apply List.Forall_rev in Hr.
      by rewrite rev_involutive in Hr.
    + rewrite Hr in Hs. apply lstrip_nil in Hs. apply List.Forall_rev in Hs.
      rewrite rev_involutive in Hs. apply Forall_cons in Hs as [Hs _].
      congruence.
  - intros Ht. apply List.Forall_rev in Ht.
    by rewrite (lstrip_spaces _ Ht).
Qed.

Lemma ink_remove_cr (t : list N) : ink (remove_char chr_cr t) = ink t.
Proof.
  unfold ink, remove_char. induction t as [|c t IH]; [done|].
  rewrite !filter_cons. destruct (decide (c ≠ chr_cr)) as [Hc|Hc].
  - rewrite filter_cons. by rewrite IH.
  - apply dec_stable in Hc. subst c. rewrite IH.
    by rewrite decide_False by done.
Qed.

Lemma ink_replace_tab (t : list N) :
  ink (replace_char chr_tab chr_space t) = ink t.
Proof.
  unfold ink, replace_char. induction t as [|c t IH]; [done|].
  cbn [map]. rewrite !filter_cons, IH.
  destruct (decide (c = chr_tab)) as [->|Hc]; [|done].
  by rewrite !decide_False by done.
Qed.

Lemma ink_clean_cr_tab (t : option (list N)) :
  ink (or_empty (clean_cr_tab t)) = ink (or_empty t).
Proof.
  unfold clean_cr_tab.
  assert (∀ (b : bool) (u : option (list N)),
            ink (or_empty (if b then Some (remove_char chr_cr (or_empty u))
                           else u)) = ink (or_empty u)) as Hcr.
  { intros [] u; [apply ink_remove_cr|done]. }
  assert (∀ (b : bool) (u : option (list N)),
            ink (or_empty (if b
                           then Some (replace_char chr_tab chr_space (or_empty u))
                           else u)) = ink (or_empty u)) as Htab.
  { intros [] u; [apply ink_replace_tab|done]. }
  cbv zeta. by rewrite Htab, Hcr.
Qed.

(** [same_ink h h']: every node with a bounded subtree has the same text
    in [h'] as in [h], up to whitespace. *)
Definition same_ink (h h' : heap) : Prop :=
  ∀ j fuel y, bounded j h y → j ≤ fuel →
    ∃ t t', get_text fuel h y = Ok t ∧ get_text fuel h' y = Ok t'
            ∧ ink t' = ink t.

Lemma same_ink_trans h1 h2 h3 :
  shrinks h1 h2 → same_ink h1 h2 → same_ink h2 h3 → same_ink h1 h3.
Proof.
  intros Hsh H12 H23 j fuel y Hb Hj.
  destruct (H12 j fuel y Hb Hj) as (t1 & t2 & Ht1 & Ht2 & Hi12).
  destruct (H23 j fuel y (bounded_shrinks _ _ _ _ Hsh Hb) Hj)
    as (t2' & t3 & Ht2' & Ht3 & Hi23).
  rewrite Ht2 in Ht2'. injection Ht2' as <-.
  exists t1, t3. split_and!; [done|done|congruence].
Qed.

(** Dropping children whose text is blank, and rewriting texts up to
    whitespace, keeps the ink of every text. *)
Lemma same_ink_prune h h' (D : list ref) :
  (∀ m, tag (deref h' m) = tag (deref h m)
        ∧ is_comment (deref h' m) = is_comment (deref h m)
        ∧ is_doctype (deref h' m) = is_doctype (deref h m)) →
  (∀ m, ink (or_empty (text (deref h' m)))
        = ink (or_empty (text (deref h m)))) →
  (∀ m, children (deref h' m)
        = filter (λ c, c ∉ D) (children (deref h m))) →
  (∀ d j fuel, d ∈ D → bounded j h d → j ≤ fuel →
     ∃ t, get_text fuel h d = Ok t ∧ ink t = []) →
  same_ink h h'.
Proof.
  intros Hsame Htext Hch Hblank j fuel. revert j.
  induction fuel as [|fuel IH]; intros j y Hb Hj.
  { apply bounded_pos in Hb. lia. }
  destruct j as [|j]; [done|]. cbn [get_text].
  destruct (Hsame y) as (-> & -> & ->).
  destruct (tag (deref h y)); [|by eexists _, _].
  destruct (_ || _); [by eexists _, _|].
  rewrite Hch.
  assert (∀ c, c ∈ children (deref h y) → bounded j h c) as Hcs
    by (intros c Hc; by apply Hb).
  revert Hcs. generalize (children (deref h y)). intros cs Hcs.
  assert (∃ ts ts', traverse (get_text fuel h) cs = Ok ts
            ∧ traverse (get_text fuel h') (filter (λ c, c ∉ D) cs) = Ok ts'
            ∧ ink (flatten ts') = ink (flatten ts))
    as (ts & ts' & -> & -> & Hink); [|by eexists _, _].
  induction cs as [|c cs IHcs].
  { by exists [], []. }
  destruct IHcs as (ts & ts' & Hts & Hts' & Hink).
  { intros x Hx. apply Hcs. by right. }
  assert (bounded j h c) as Hbc by (apply Hcs; left).
  rewrite filter_cons. cbn [traverse]. rewrite Hts.
  destruct (decide (c ∉ D)) as [Hc|Hc].
  - destruct (IH j c Hbc ltac:(lia)) as (t & t' & -> & Ht' & Hi).
    cbn [traverse]. rewrite Ht', Hts'. simpl.
    exists (t :: ts), (t' :: ts'). split_and!; [done|done|].
    rewrite !ink_flatten_cons. congruence.
  - apply dec_stable in Hc.
    destruct (Hblank c j fuel Hc Hbc ltac:(lia)) as (t & -> & Hi).
    simpl. exists (t :: ts), ts'. split_and!; [done|done|].
    rewrite ink_flatten_cons, Hi. done.
Qed.

Lemma filter_all {A} (P : A → Prop) `{!∀ x, Decision (P x)} (l : list A) :
  (∀ x, x ∈ l → P x) → filter P l = l.
Proof.
  induction l as [|x l IH]; intros Hl; [done|].
  rewrite filter_cons, decide_True by (apply Hl; left).
  f_equal. apply IH. intros y Hy. apply Hl. by right.
Qed.

Lemma remove_first_filter (x : ref) (l : list ref) :
  NoDup l → remove_first x l = filter (λ c, c ∉ [x]) l.
Proof.
  induction l as [|y l IH]; intros Hnd; [done|].
  apply NoDup_cons in Hnd as [Hy Hnd]. rewrite remove_first_cons, filter_cons.
  destruct (decide (y = x)) as [->|Hne].
  - rewrite decide_False by (intros Hn; apply Hn; left).
    symmetry. apply filter_all. intros z Hz ->%list_elem_of_singleton. done.
  - rewrite decide_True by (by intros ->%list_elem_of_singleton).
    by rewrite IH.
Qed.

Lemma children_remove_node x h m :
  parents_ok h → (∀ p, NoDup (children (deref h p))) →
  children (deref (remove_node x h) m)
  = filter (λ c, c ∉ [x]) (children (deref h m)).
Proof.
  intros Hpar Hnd. unfold remove_node.
  destruct (parent (deref h x)) as [p|] eqn:Hp.
  - rewrite children_Node_remove.
    destruct (decide (m = p ∧ p < length h)) as [[-> _]|Hm].
    + by apply remove_first_filter.
    + symmetry. apply filter_all. intros z Hz ->%list_elem_of_singleton.
      apply Hm. pose proof (Hpar _ _ Hz) as Hp'. rewrite Hp in Hp'.
      injection Hp' as ->. split; [done|].
      apply children_in_range. by destruct Hz.
  - symmetry. apply filter_all. intros z Hz ->%list_elem_of_singleton.
    apply Hpar in Hz. congruence.
Qed.

Lemma get_text_any_fuel j fuel j' fuel' h d t :
  bounded j h d → j ≤ fuel → bounded j' h d → j' ≤ fuel' →
  get_text fuel h d = Ok t → get_text fuel' h d = Ok t.
Proof.
  intros Hb Hj Hb' Hj' Ht. rewrite <-Ht.
  destruct (decide (j ≤ fuel')).
  - by apply (get_text_fuel j).
  - apply (get_text_fuel j'); [done|done|lia].
Qed.

(** Removing a node whose text is blank keeps the ink. *)
Lemma same_ink_remove_node root fuel h x t :
  wf root h → bounded (length h) h x → length h ≤ fuel →
  get_text fuel h x = Ok t → strip t = [] →
  same_ink h (remove_node x h).
Proof.
  intros Hwf Hb Hfuel Ht Hblank.
  apply (same_ink_prune _ _ [x]).
  - intros m. unfold remove_node. destruct (parent _); [|done].
    rewrite tag_Node_remove, (Node_remove_frame is_comment),
      (Node_remove_frame is_doctype) by done. done.
  - intros m. unfold remove_node. destruct (parent _); [|done].
    by rewrite (Node_remove_frame text).
  - intros m. apply children_remove_node; apply Hwf.
  - intros d j fuel' ->%list_elem_of_singleton Hbd Hj.
    exists t. split; [|by apply strip_nil_ink].
    by eapply (get_text_any_fuel (length h) fuel j fuel').
Qed.

(** ** The passes that remove empty elements *)

Lemma tag_remove_node x h m :
  tag (deref (remove_node x h) m) = tag (deref h m).
Proof.
  unfold remove_node. destruct (parent _); [|done]. apply tag_Node_remove.
Qed.

Lemma element_below_shrinks h h' a x :
  shrinks h h' → (∀ m, tag (deref h' m) = tag (deref h m)) →
  element_below h' a x → element_below h a x.
Proof.
  intros Hsh Htag. induction 1 as [a c Hc Ht|a c x Hc Ht Hx IH].
  - apply element_child; [by apply Hsh|by rewrite <-Htag].
  - eapply element_deeper; [by apply Hsh|by rewrite <-Htag|done].
Qed.

(** A loop over nodes of the tree whose body either leaves the state as it
    is, or removes the node after finding its text blank.  [Q] is what the
    body has found of a node it keeps. *)
Lemma prune_loop root fuel (Q : heap → ref → Prop)
    (body : ref → state → res state) (l : list ref) (st : state) :
  (∀ x t, wf root t.1 → bounded (length t.1) t.1 x → length t.1 ≤ fuel →
     ∃ t', body x t = Ok t'
       ∧ ((t' = t ∧ Q t.1 x)
          ∨ ∃ txt c, get_text fuel t.1 x = Ok txt ∧ strip txt = []
                     ∧ t' = (remove_node x t.1, c))) →
  (∀ h h' x, shrinks h h' → same_ink h h' → bounded (length h) h x →
     length h ≤ fuel → Q h x → Q h' x) →
  wf root st.1 → length st.1 ≤ fuel → (∀ x, x ∈ l → within st.1 root x) →
  ∃ st', foldM body l st = Ok st'
    ∧ wf root st'.1 ∧ shrinks st.1 st'.1 ∧ length st'.1 = length st.1
    ∧ same_ink st.1 st'.1
    ∧ (∀ m, tag (deref st'.1 m) = tag (deref st.1 m))
    ∧ ∀ x, x ∈ l → (∀ p, x ∉ children (deref st'.1 p)) ∨ Q st'.1 x.
Proof.
  intros Hbody HQ Hwf Hfuel Hl.
  destruct (foldM_total
    (λ rest (t : state),
       wf root t.1 ∧ shrinks st.1 t.1 ∧ length t.1 = length st.1
       ∧ same_ink st.1 t.1
       ∧ (∀ m, tag (deref t.1 m) = tag (deref st.1 m))
       ∧ (∀ x, x ∈ rest → x ∈ l)
       ∧ ∀ x, x ∈ l →
              x ∈ rest ∨ (∀ p, x ∉ children (deref t.1 p)) ∨ Q t.1 x)
    body l st) as (st' & Hrun & Hwf' & Hsh' & Hlen' & Hink' & Htag' & _ & Hdone).
  - split_and!; [done|apply shrinks_refl|done| |done|done|by left].
    intros j f y Hb Hj.
    destruct (get_text_total f st.1 y j Hb Hj) as [t Ht]. by exists t, t.
  - intros x rest t (Hwft & Hsh & Hlen & Hink & Htag & Hrest & Hdone).
    assert (∀ y, y ∈ l → bounded (length t.1) t.1 y) as Hbl.
    { intros y Hy. rewrite Hlen. eapply bounded_shrinks; [done|].
      eapply bounded_reachable; [done|]. by apply Hl. }
    assert (x ∈ l) as Hx by (apply Hrest; left).
    destruct (Hbody x t Hwft (Hbl x Hx) ltac:(lia))
      as (t' & Ht' & [[-> HQx]|(txt & c & Htxt & Hblank & ->)]).
    + exists t. split; [done|]. split_and!; [done..| |].
      * intros y Hy. apply Hrest. by right.
      * intros y Hy. destruct (Hdone y Hy) as [Hin|Hd]; [|by right].
        apply elem_of_cons in Hin as [->|Hin]; [|by left].
        right. by right.
    + eexists. split; [done|]. cbn [fst].
      assert (same_ink t.1 (remove_node x t.1)) as Hstep.
      { apply (same_ink_remove_node root fuel t.1 x txt);
          [done|by apply Hbl|lia|done|done]. }
      pose proof (shrinks_remove_node root x t.1 Hwft) as Hshx.
      split_and!.
      * by apply wf_remove_node.
      * by eapply shrinks_trans.
      * by rewrite length_remove_node.
      * by eapply same_ink_trans.
      * intros m. by rewrite tag_remove_node.
      * intros y Hy. apply Hrest. by right.
      * intros y Hy. destruct (Hdone y Hy) as [Hin|[Hd|Hq]].
        -- apply elem_of_cons in Hin as [->|Hin]; [|by left].
           right. left. intros p.
           rewrite (children_remove_node x t.1 p) by apply Hwft.
           intros [Hn _]%list_elem_of_filter. apply Hn. left.
        -- right. left. intros p Hp. by apply (Hd p), Hshx.
        -- right. right.
           apply (HQ t.1); [done|done|by apply Hbl|lia|done].
  - exists st'. split_and!; try done.
    intros x Hx. destruct (Hdone x Hx) as [Hin|Hd]; [|done].
    by apply elem_of_nil in Hin.
Qed.

Lemma remove_empty_headings_prune root fuel st :
  wf root st.1 → length st.1 ≤ fuel →
  ∃ st' headings,
    iter_tags fuel st.1 [lit "h1"; lit "h2"] root = Ok headings
    ∧ remove_empty_headings fuel root st = Ok st'
    ∧ wf root st'.1 ∧ shrinks st.1 st'.1 ∧ length st'.1 = length st.1
    ∧ same_ink st.1 st'.1
    ∧ (∀ m, tag (deref st'.1 m) = tag (deref st.1 m))
    ∧ ∀ x, x ∈ headings →
           (∀ p, x ∉ children (deref st'.1 p))
           ∨ ∃ t, get_text fuel st'.1 x = Ok t ∧ strip t ≠ [].
Proof.
  intros Hwf Hfuel. unfold remove_empty_headings.
  destruct (iter_tags_total fuel st.1 [lit "h1"; lit "h2"] root (length st.1))
    as [headings Hh]; [by apply bounded_root|done|].
  rewrite Hh. cbn [mbind res_mbind res_bind].
  match goal with |- ∃ st' hs, _ ∧ foldM ?body _ _ = _ ∧ _ =>
    destruct (prune_loop root fuel
      (λ h x, ∃ t, get_text fuel h x = Ok t ∧ strip t ≠ [])
      body headings st) as (st' & Hrun & Hrest) end; [| |done|done| |].
  - intros x t Hwft Hb Hlen.
    destruct (get_text_total fuel t.1 x (length t.1) Hb Hlen) as [txt Htxt].
    rewrite Htxt. cbn [mbind res_mbind res_bind].
    destruct (bool_decide (strip txt = [])) eqn:Hd.
    + apply bool_decide_eq_true in Hd. eexists. split; [done|]. right.
      by eexists _, _.
    + apply bool_decide_eq_false in Hd. eexists. split; [done|]. left.
      split; [done|]. by exists txt.
  - intros h h' x Hsh Hink Hb Hlen (t & Ht & Hne).
    destruct (Hink _ fuel x Hb Hlen) as (t0 & t' & Ht0 & Ht' & Hi).
    rewrite Ht in Ht0. injection Ht0 as <-. exists t'. split; [done|].
    rewrite strip_nil_ink in Hne |- *. congruence.
  - intros x Hx. by eapply iter_tags_within.
  - by exists st', headings.
Qed.

Lemma remove_empty_italics_prune root fuel st :
  wf root st.1 → length st.1 ≤ fuel →
  ∃ st', remove_empty_italics fuel root st = Ok st'
    ∧ wf root st'.1 ∧ shrinks st.1 st'.1 ∧ length st'.1 = length st.1
    ∧ same_ink st.1 st'.1
    ∧ (∀ m, tag (deref st'.1 m) = tag (deref st.1 m)).
Proof.
  intros Hwf Hfuel. unfold remove_empty_italics.
  destruct (iter_tags_total fuel st.1 [lit "i"] root (length st.1))
    as [italics Hh]; [by apply bounded_root|done|].
  rewrite Hh. cbn [mbind res_mbind res_bind].
  match goal with |- ∃ st', foldM ?body _ _ = _ ∧ _ =>
    destruct (prune_loop root fuel (λ _ _, True) body italics st)
      as (st' & Hrun & Hwf' & Hsh & Hlen & Hink & Htag & _) end;
    [|done|done|done| |].
  - intros x t Hwft Hb Hlen.
    destruct (attrs _); [|eexists; split; [done|]; by left].
    destruct (get_text_total fuel t.1 x (length t.1) Hb Hlen) as [txt Htxt].
    rewrite Htxt. cbn [mbind res_mbind res_bind].
    destruct (strip txt) eqn:Hs; cbn [truthy];
      [|eexists; split; [done|]; by left].
    destruct (existsb _ _); [eexists; split; [done|]; by left|].
    eexists. split; [done|]. right. by eexists _, _.
  - intros x Hx. by eapply iter_tags_within.
  - by exists st'.
Qed.

(** X27. What [remove_empty_headings] leaves behind: run at the root of a
    well-formed tree it returns, and afterwards every [h1] and [h2] element
    of the tree has text that is not blank. *)
Theorem remove_empty_headings_leaves_no_blank_heading
    (root : ref) (fuel : nat) (st : state) :
  wf root st.1 → length st.1 ≤ fuel →
  ∃ st' headings,
    remove_empty_headings fuel root st = Ok st'
    ∧ iter_tags fuel st'.1 [lit "h1"; lit "h2"] root = Ok headings
    ∧ ∀ x, x ∈ headings →
           ∃ t, get_text fuel st'.1 x = Ok t ∧ strip t ≠ [].
Proof.
  intros Hwf Hfuel.
  destruct (remove_empty_headings_prune root fuel st Hwf Hfuel)
    as (st' & before & Hbefore & Hrun & Hwf' & Hsh & Hlen & _ & Htag & Hdone).
  destruct (iter_tags_total fuel st'.1 [lit "h1"; lit "h2"] root
              (length st'.1)) as [headings Hh];
    [by apply bounded_root|lia|].
  exists st', headings. split_and!; [done|done|].
  intros x Hx.
  destruct (iter_tags_elem _ _ _ _ _ _ Hh Hx) as (_ & _ & p & Hp).
  apply (iter_tags_spec _ _ _ _ _ Hh) in Hx as [Hbelow Hname].
  rewrite Htag in Hname.
  assert (x ∈ before) as Hin.
  { apply (iter_tags_spec _ _ _ _ _ Hbefore). split; [|done].
    by eapply element_below_shrinks. }
  destruct (Hdone x Hin) as [Hd|Hq]; [|done]. by destruct (Hd p).
Qed.

(** [<h1> </h1><h2>a</h2><h1><i></i></h1>]: the first and the third heading
    go, the second stays. *)
Lemma remove_empty_headings_leaves_no_blank_heading_witness :
  let evs := [StartTag (lit "h1") []; Data (lit " "); EndTag (lit "h1");
              StartTag (lit "h2") []; Data (lit "a"); EndTag (lit "h2");
              StartTag (lit "h1") []; StartTag (lit "i") [];
              EndTag (lit "i"); EndTag (lit "h1")] in
  ∃ h, parse_html evs = Ok (0, h)
    ∧ ∃ st' headings,
        remove_empty_headings 7 0 (h, no_stats) = Ok st'
        ∧ iter_tags 7 st'.1 [lit "h1"; lit "h2"] 0 = Ok headings
        ∧ ∀ x, x ∈ headings →
               ∃ t, get_text 7 st'.1 x = Ok t ∧ strip t ≠ [].
Proof.
  eexists.
  match goal with |- ?A ∧ _ => assert A as Hparse by (vm_compute; reflexivity) end.
  split; [exact Hparse|].
  apply (remove_empty_headings_leaves_no_blank_heading 0 7 (_, no_stats)
           (parse_html_wf _ _ _ Hparse)).
  clear. vm_compute. lia.
Defined.

(** X28. [remove_empty_headings] and [remove_empty_italics] remove
    whitespace only: run at the root of a well-formed tree, each returns and
    the text of the document is afterwards what it was, up to whitespace. *)
Theorem removal_passes_keep_ink (root : ref) (fuel : nat) (st : state) :
  wf root st.1 → length st.1 ≤ fuel →
  ∃ t, get_text fuel st.1 root = Ok t
    ∧ (∃ st' t', remove_empty_headings fuel root st = Ok st'
         ∧ get_text fuel st'.1 root = Ok t' ∧ ink t' = ink t)
    ∧ (∃ st' t', remove_empty_italics fuel root st = Ok st'
         ∧ get_text fuel st'.1 root = Ok t' ∧ ink t' = ink t).
Proof.
  intros Hwf Hfuel.
  pose proof (bounded_root _ _ Hwf) as Hb.
  destruct (get_text_total fuel st.1 root _ Hb Hfuel) as [t Ht].
  exists t. split; [done|]. split.
  - destruct (remove_empty_headings_prune root fuel st Hwf Hfuel)
      as (st' & _ & _ & Hrun & _ & _ & _ & Hink & _).
    destruct (Hink _ fuel root Hb Hfuel) as (t0 & t' & Ht0 & Ht' & Hi).
    rewrite Ht in Ht0. injection Ht0 as <-. by exists st', t'.
  - destruct (remove_empty_italics_prune root fuel st Hwf Hfuel)
      as (st' & Hrun & _ & _ & _ & Hink & _).
    destruct (Hink _ fuel root Hb Hfuel) as (t0 & t' & Ht0 & Ht' & Hi).
    rewrite Ht in Ht0. injection Ht0 as <-. by exists st', t'.
Qed.

(** [<h1> </h1>a<i> </i><p>b</p>]: the heading and the italic go, the text
    [ab] stays. *)
Lemma removal_passes_keep_ink_witness :
  let evs := [StartTag (lit "h1") []; Data (lit " "); EndTag (lit "h1");
              Data (lit "a"); StartTag (lit "i") []; Data (lit " ");
              EndTag (lit "i"); StartTag (lit "p") []; Data (lit "b");
              EndTag (lit "p")] in
  ∃ h, parse_html evs = Ok (0, h)
    ∧ ∃ t, get_text 9 h 0 = Ok t
        ∧ (∃ st' t', remove_empty_headings 9 0 (h, no_stats) = Ok st'
             ∧ get_text 9 st'.1 0 = Ok t' ∧ ink t' = ink t)
        ∧ (∃ st' t', remove_empty_italics 9 0 (h, no_stats) = Ok st'
             ∧ get_text 9 st'.1 0 = Ok t' ∧ ink t' = ink t).
Proof.
  eexists.
  match goal with |- ?A ∧ _ => assert A as Hparse by (vm_compute; reflexivity) end.
  split; [exact Hparse|].
  apply (removal_passes_keep_ink 0 9 (_, no_stats)
           (parse_html_wf _ _ _ Hparse)).
  clear. vm_compute. lia.
Defined.

(** ** Whitespace cleaning changes whitespace only *)

Lemma same_ink_refl h : same_ink h h.
Proof.
  intros j f y Hb Hj.
  destruct (get_text_total f h y j Hb Hj) as [t Ht]. by exists t, t.
Qed.

Lemma same_ink_replace c h : same_ink h (replace_cr_and_tab c h).
Proof.
  apply (same_ink_prune _ _ []).
  - intros m. split_and!; by apply replace_cr_and_tab_frame.
  - intros m. rewrite text_replace_cr_and_tab.
    destruct (decide (m = c)) as [->|]; [apply ink_clean_cr_tab|done].
  - intros m. rewrite (replace_cr_and_tab_frame children) by done.
    symmetry. apply filter_all. intros x _. apply not_elem_of_nil.
  - intros d j fuel Hd. by apply elem_of_nil in Hd.
Qed.

(** Taking a blank text node out of its parent's list. *)
Lemma same_ink_remove_from_parent c p h h2 :
  parents_ok h → (∀ q, NoDup (children (deref h q))) →
  c ∈ children (deref h p) →
  tag (deref h c) = None → strip (or_empty (text (deref h c))) = [] →
  remove_from_parent c h = Ok h2 → same_ink h h2.
Proof.
  intros Hpar Hnd Hc Htag Hblank Hrem.
  unfold remove_from_parent, list_remove in Hrem. rewrite (Hpar _ _ Hc) in Hrem.
  destruct (index_of_elem _ _ Hc) as [i Hi]. rewrite Hi in Hrem.
  simpl in Hrem. injection Hrem as <-.
  rewrite (delete_index_of _ _ _ Hi).
  apply (same_ink_prune _ _ [c]).
  - intros m. unfold set_children.
    rewrite !(deref_alter_frame tag), !(deref_alter_frame is_comment),
      !(deref_alter_frame is_doctype); done.
  - intros m. unfold set_children. by rewrite (deref_alter_frame text).
  - intros m. rewrite children_set_children.
    destruct (decide (m = p ∧ p < length h)) as [[-> _]|Hm].
    + by apply remove_first_filter.
    + symmetry. apply filter_all. intros z Hz ->%list_elem_of_singleton.
      apply Hm. pose proof (Hpar _ _ Hz) as Hp. rewrite (Hpar _ _ Hc) in Hp.
      injection Hp as ->. split; [done|].
      apply children_in_range. by destruct Hz.
  - intros d j fuel ->%list_elem_of_singleton Hb Hj.
    pose proof (bounded_pos _ _ _ Hb). destruct fuel as [|fuel]; [lia|].
    cbn [get_text]. rewrite Htag. eexists. split; [done|].
    by apply strip_nil_ink.
Qed.

Lemma clean_whitespace_same_ink fuel node preserve h h' j :
  parents_ok h → (∀ p, NoDup (children (deref h p))) →
  bounded j h node → j ≤ fuel →
  clean_whitespace fuel node preserve h = Ok h' → same_ink h h'.
Proof.
  revert node preserve h h' j.
  induction fuel as [|fuel IH]; intros node preserve h h' j Hpar Hnd Hb Hj;
    [done|].
  destruct j as [|j]; [done|]. cbn [clean_whitespace].
  set (pres := preserve || _).
  match goal with |- foldM ?body _ _ = _ → _ =>
    destruct (foldM_total
      (λ rest hc, cw_inv h node rest hc ∧ same_ink h hc)
      body (children (deref h node)) h)
      as (h2 & Hrun & _ & Hink) end.
  - split; [|apply same_ink_refl]. split_and!; try done. apply shrinks_refl.
  - intros c rest hc [Hinv Hink].
    assert (∀ h1, cw_inv h node (c :: rest) h1 → same_ink h h1 →
              ∃ t', clean_whitespace fuel c pres h1 = Ok t'
                    ∧ cw_inv h node rest t' ∧ same_ink h t') as Hrec.
    { intros h1 Hinv1 Hink1.
      pose proof (cw_inv_parents_ok _ _ _ _ Hpar Hinv1) as Hpar1.
      pose proof Hinv1 as (Hlen1 & Hp1 & Hnd1 & Hsh1 & _ & _ & Hrest1).
      assert (bounded j h1 c) as Hbc.
      { eapply bounded_shrinks; [done|]. apply Hb, Hsh1, Hrest1. left. }
      destruct (clean_whitespace_total fuel c pres h1 j Hpar1 Hnd1 Hbc)
        as (t' & Ht' & Hlen' & Hp' & Hnd' & Hsh' & Hfoot'); [lia|].
      exists t'. split; [done|]. split; [by eapply cw_inv_rec|].
      eapply same_ink_trans; [done|done|].
      apply (IH c pres h1 t' j); [done|done|done|lia|done]. }
    destruct (tag (deref hc c)) eqn:Htag; [by apply Hrec|].
    destruct pres.
    { exists hc. split; [done|]. split; [by eapply cw_inv_skip|done]. }
    assert (cw_inv h node (c :: rest) (replace_cr_and_tab c hc)) as Hinv1.
    { eapply cw_inv_frame; [..|done].
      - apply length_replace_cr_and_tab.
      - intros. by apply replace_cr_and_tab_frame.
      - intros. by apply replace_cr_and_tab_frame. }
    assert (same_ink h (replace_cr_and_tab c hc)) as Hink1.
    { eapply same_ink_trans; [apply Hinv|done|apply same_ink_replace]. }
    case_bool_decide as Hblank; [|by apply Hrec].
    destruct (cw_inv_remove h node c rest _ Hpar Hinv1) as (h3 & Hrem & Hinv3).
    exists h3. split; [done|]. split; [done|].
    eapply same_ink_trans; [apply Hinv1|done|].
    pose proof Hinv1 as (_ & _ & Hnd1 & _ & _ & _ & Hrest1).
    eapply (same_ink_remove_from_parent c node);
      [by eapply cw_inv_parents_ok|done|apply Hrest1; left| |done|done].
    by rewrite (replace_cr_and_tab_frame tag).
  - intros Hrun'. rewrite Hrun in Hrun'. by injection Hrun' as <-.
Qed.

(** X29. [clean_whitespace] changes whitespace only: run on a node of a
    well-formed tree, with [preserve] set or not, it returns, and the text of
    every node of the tree is afterwards what it was, up to whitespace. *)
Theorem clean_whitespace_keeps_ink
    (root : ref) (fuel : nat) (h : heap) (node : ref) (preserve : bool) :
  wf root h → within h root node → length h ≤ fuel →
  ∃ h', clean_whitespace fuel node preserve h = Ok h'
    ∧ ∀ y, within h root y →
           ∃ t t', get_text fuel h y = Ok t ∧ get_text fuel h' y = Ok t'
                   ∧ ink t' = ink t.
Proof.
  intros Hwf Hnode Hfuel.
  pose proof (bounded_reachable _ _ _ Hwf Hnode) as Hb.
  destruct (clean_whitespace_total fuel node preserve h (length h))
    as (h' & Hrun & _); [apply Hwf|apply Hwf|done|done|].
  exists h'. split; [done|]. intros y Hy.
  assert (same_ink h h') as Hink.
  { apply (clean_whitespace_same_ink fuel node preserve h h' (length h));
      [apply Hwf|apply Hwf|done|done|done]. }
  apply (Hink (length h)); [by eapply bounded_reachable|done].
Qed.

(** [<p> a	b <b> </b></p>c]: the blank text inside [b] goes and the tab
    becomes a space; the letters stay. *)
Lemma clean_whitespace_keeps_ink_witness :
  let evs := [StartTag (lit "p") []; Data [32; 97; 9; 98; 32]%N;
              StartTag (lit "b") []; Data (lit " "); EndTag (lit "b");
              EndTag (lit "p"); Data (lit "c")] in
  ∃ h, parse_html evs = Ok (0, h)
    ∧ ∃ h', clean_whitespace 6 0 false h = Ok h'
        ∧ ∀ y, within h 0 y →
               ∃ t t', get_text 6 h y = Ok t ∧ get_text 6 h' y = Ok t'
                       ∧ ink t' = ink t.
Proof.
  eexists.
  match goal with |- ?A ∧ _ => assert A as Hparse by (vm_compute; reflexivity) end.
  split; [exact Hparse|].
  apply (clean_whitespace_keeps_ink 0 6 _ 0 false
           (parse_html_wf _ _ _ Hparse) (within_refl _ 0)).
  clear. vm_compute. lia.
Defined.

(** ** What the pipeline leaves behind *)

(** X30. Whitespace cleaning is the last pass of [process_file], so its
    result holds of the tree that is rendered: after the passes, run on a
    well-formed tree, no node without a tag that can be reached from the root
    without entering a [pre], [code], [textarea], [script] or [style] element
    is blank or holds a carriage return or a tab, whatever the earlier passes
    unwrapped, removed or moved. *)
Theorem normalize_leaves_no_blank_text
    (root : ref) (fuel : nat) (st : state) :
  wf root st.1 → length st.1 + 2 ≤ fuel →
  ∃ st', normalize fuel root st = Ok st'
    ∧ ∀ x c, open_below st'.1 root x → c ∈ children (deref st'.1 x) →
             tag (deref st'.1 c) = None →
             strip (or_empty (text (deref st'.1 c))) ≠ []
             ∧ chr_cr ∉ or_empty (text (deref st'.1 c))
             ∧ chr_tab ∉ or_empty (text (deref st'.1 c)).
Proof.
  intros Hwf Hfuel. unfold normalize.
  destruct (remove_redundant_wrappers_total fuel root st Hwf)
    as (s1 & -> & Hwf1 & Hl1); [lia|]. simpl.
  destruct (remove_empty_headings_total fuel root s1 Hwf1)
    as (s2 & -> & Hwf2 & Hl2); [lia|]. simpl.
  destruct (remove_empty_italics_total fuel root s2 Hwf2)
    as (s3 & -> & Hwf3 & Hl3); [lia|]. simpl.
  destruct (add_alt_text_total fuel root s3 Hwf3)
    as (s4 & -> & Hwf4 & Hl4); [lia|]. simpl.
  destruct (normalize_headings_total fuel root s4 Hwf4)
    as (s5 & -> & Hwf5 & Hl5); [lia|]. simpl.
  destruct (move_footer_elements_total fuel root s5 Hwf5)
    as (s6 & -> & Hwf6 & Hl6); [lia|]. simpl.
  unfold ensure_matching_sections.
  pose proof (bounded_root _ _ Hwf6) as Hb.
  destruct (clean_whitespace_total fuel root false s6.1 (length s6.1))
    as (h7 & Hrun & _); [apply Hwf6|apply Hwf6|done|lia|].
  rewrite Hrun. simpl. eexists. split; [done|]. simpl.
  destruct (cw_tidy fuel (length s6.1) ltac:(lia) root s6.1 h7)
    as (_ & _ & Htidy); [apply Hwf6|apply Hwf6|done|done|].
  exact Htidy.
Qed.

(** [<div><h1> </h1><p> a	b </p> <i></i></div>] *)
Lemma normalize_leaves_no_blank_text_witness :
  let evs := [StartTag (lit "div") []; StartTag (lit "h1") [];
              Data (lit " "); EndTag (lit "h1"); StartTag (lit "p") [];
              Data [32; 97; 9; 98; 32]%N; EndTag (lit "p"); Data (lit " ");
              StartTag (lit "i") []; EndTag (lit "i"); EndTag (lit "div")] in
  ∃ h, parse_html evs = Ok (0, h)
    ∧ ∃ st', normalize 10 0 (h, no_stats) = Ok st'
        ∧ ∀ x c, open_below st'.1 0 x → c ∈ children (deref st'.1 x) →
                 tag (deref st'.1 c) = None →
                 strip (or_empty (text (deref st'.1 c))) ≠ []
                 ∧ chr_cr ∉ or_empty (text (deref st'.1 c))
                 ∧ chr_tab ∉ or_empty (text (deref st'.1 c)).
Proof.
  eexists.
  match goal with |- ?A ∧ _ => assert A as Hparse by (vm_compute; reflexivity) end.
  split; [exact Hparse|].
  apply (normalize_leaves_no_blank_text 0 10 (_, no_stats)
           (parse_html_wf _ _ _ Hparse)).
  clear. vm_compute. lia.
Defined.

(** ** Where the candidates end up *)














(** ** Which wrappers go *)

(** A child that [meaningful_children] passes over: a comment, a doctype,
    or a node without a tag whose text is blank. *)
Definition skipped_child (h : heap) (c : ref) : Prop :=
  is_comment (deref h c) = true
  ∨ is_doctype (deref h c) = true
  ∨ (tag (deref h c) = None ∧ strip (or_empty (text (deref h c))) = []).

(** [child] is the one child of [div] that is not passed over. *)
Definition sole_meaningful_child (h : heap) (div child : ref) : Prop :=
  ∃ before after,
    children (deref h div) = before ++ child :: after
    ∧ Forall (skipped_child h) before
    ∧ Forall (skipped_child h) after
    ∧ ¬ skipped_child h child.

(** A [div] the pass unwraps, told from the tree alone: it has no
    attributes and one child that is not passed over, and that child is a
    [section] or [main] while no child of the [div] without a tag (text,
    comment or doctype) has text that is not blank, or is another [div]
    without attributes. *)
Definition unwrappable (h : heap) (div : ref) : Prop :=
  attrs (deref h div) = []
  ∧ ∃ child,
      sole_meaningful_child h div child
      ∧ (((tag (deref h child) = Some (lit "section")
           ∨ tag (deref h child) = Some (lit "main"))
          ∧ ∀ c, c ∈ children (deref h div) → tag (deref h c) = None →
                 strip (or_empty (text (deref h c))) = [])
         ∨ (tag (deref h child) = Some (lit "div")
            ∧ attrs (deref h child) = [])).

Lemma filter_nil_Forall {A} (P : A → Prop) `{!∀ x, Decision (P x)}
    (l : list A) :
  filter P l = [] → Forall (λ x, ¬ P x) l.
Proof.
  induction l as [|x l IH]; [constructor|].
  rewrite filter_cons. destruct (decide (P x)); [done|].
  intros Hl. constructor; auto.
Qed.

Lemma filter_singleton {A} (P : A → Prop) `{!∀ x, Decision (P x)}
    (l : list A) (x : A) :
  filter P l = [x]
  ↔ ∃ before after, l = before ++ x :: after
      ∧ Forall (λ y, ¬ P y) before ∧ Forall (λ y, ¬ P y) after ∧ P x.
Proof.
  split.
  - induction l as [|y l IH]; [done|].
    rewrite filter_cons. destruct (decide (P y)) as [Hy|Hy].
    + intros [= -> Hl]. exists [], l.
      split_and!; [done|constructor|exact (filter_nil_Forall _ _ Hl)|done].
    + intros Hl. destruct (IH Hl) as (before & after & -> & Hb & Ha & Hx).
      exists (y :: before), after. split_and!; [done| |done|done].
      by constructor.
  - intros (before & after & -> & Hb & Ha & Hx).
    rewrite filter_app, filter_cons, decide_True by done.
    rewrite !filter_none; [done|..].
    + intros y Hy. by apply (proj1 (Forall_forall _ _) Ha).
    + intros y Hy. by apply (proj1 (Forall_forall _ _) Hb).
Qed.

Lemma not_meaningful_skipped (h : heap) (c : ref) :
  ¬ (¬ (is_comment (deref h c) || is_doctype (deref h c))
     ∧ ¬ (tag (deref h c) = None
          ∧ strip (or_empty (text (deref h c))) = []))
  ↔ skipped_child h c.
Proof.
  unfold skipped_child.
  destruct (is_comment (deref h c)), (is_doctype (deref h c)); simpl;
    try (split; [intros _; auto|intros _ [Hn _]; by apply Hn]).
  split.
  - intros Hn. right. right.
    destruct (decide (tag (deref h c) = None
                      ∧ strip (or_empty (text (deref h c))) = []));
      [done|]. destruct Hn. split; [by intros []|done].
  - intros [?|[?|Hb]] [_ Hn]; done.
Qed.

Lemma meaningful_children_singleton (h : heap) (div child : ref) :
  meaningful_children h div = [child] ↔ sole_meaningful_child h div child.
Proof.
  unfold meaningful_children, sole_meaningful_child.
  rewrite filter_singleton. split.
  - intros (before & after & Heq & Hb & Ha & Hx).
    exists before, after. split_and!; [done| | |].
    + eapply Forall_impl; [exact Hb|]. intros c. apply not_meaningful_skipped.
    + eapply Forall_impl; [exact Ha|]. intros c. apply not_meaningful_skipped.
    + intros Hs. by apply not_meaningful_skipped in Hs.
  - intros (before & after & Heq & Hb & Ha & Hx).
    exists before, after. split; [done|]. split; [|split].
    + eapply Forall_impl; [exact Hb|]. intros c. apply not_meaningful_skipped.
    + eapply Forall_impl; [exact Ha|]. intros c. apply not_meaningful_skipped.
    + destruct (decide (¬ (is_comment (deref h child)
                           || is_doctype (deref h child))
                        ∧ ¬ (tag (deref h child) = None
                             ∧ strip (or_empty (text (deref h child))) = [])))
        as [|Hn]; [done|].
      by apply not_meaningful_skipped in Hn.
Qed.

Lemma no_own_text (h : heap) (cs : list ref) :
  existsb (λ c, bool_decide (tag (deref h c) = None)
                && truthy (Some (strip (or_empty (text (deref h c)))))) cs
  = false
  ↔ ∀ c, c ∈ cs → tag (deref h c) = None →
         strip (or_empty (text (deref h c))) = [].
Proof.
  induction cs as [|c cs IH]; simpl.
  - split; [|done]. intros _ c Hc. by apply elem_of_nil in Hc.
  - rewrite orb_false_iff, IH. split.
    + intros [Hc Hcs] x [->|Hx]%elem_of_cons Ht; [|by apply Hcs].
      rewrite bool_decide_eq_true_2 in Hc by done. simpl in Hc.
      by destruct (strip _).
    + intros Hall. split.
      * case_bool_decide as Ht; [|done]. simpl.
        rewrite (Hall c) by (done || left). done.
      * intros x Hx. apply Hall. by right.
Qed.

Lemma tag_in_section_main (t : option (list N)) :
  tag_in t [lit "section"; lit "main"] = true
  ↔ t = Some (lit "section") ∨ t = Some (lit "main").
Proof.
  destruct t as [x|]; simpl; [|naive_solver]. unfold str_in.
  rewrite bool_decide_eq_true, !elem_of_cons, elem_of_nil. naive_solver.
Qed.

(** The test of the loop, read off the tree. *)
Lemma redundant_wrapper_unwrappable (h : heap) (div : ref) :
  redundant_wrapper h div = true ↔ unwrappable h div.
Proof.
  unfold redundant_wrapper, unwrappable.
  destruct (attrs (deref h div)) as [|a ats]; [|naive_solver].
  split.
  - destruct (meaningful_children h div) as [|child [|c2 cs]] eqn:Hm;
      [done| |done].
    apply meaningful_children_singleton in Hm.
    intros Hor. split; [done|]. exists child. split; [done|].
    apply orb_true_iff in Hor as [Ha|Hb].
    + apply andb_true_iff in Ha as [Ht Hn]. left.
      split; [by apply tag_in_section_main|].
      apply no_own_text. by apply negb_true_iff.
    + apply andb_true_iff in Hb as [Ht Ha]. right.
      apply bool_decide_eq_true in Ht, Ha. by split.
  - intros (_ & child & Hsole & Hcase).
    apply meaningful_children_singleton in Hsole. rewrite Hsole.
    apply orb_true_iff. destruct Hcase as [[Ht Hn]|[Ht Ha]].
    + left. apply andb_true_iff. split; [by apply tag_in_section_main|].
      apply negb_true_iff. by apply no_own_text.
    + right. apply andb_true_iff.
      by split; apply bool_decide_eq_true_2.
Qed.

(** C9, at [<div><!--note--><section>s</section></div>].  The [div] has
    no attributes; its children are a comment and a [section]; the
    [section] is its one meaningful child, and the [div] has no text of its
    own.  By the claim no such [div] remains; the pass leaves it, with
    nothing unwrapped, because the test for text of the [div]'s own takes
    every child without a tag, and a comment is one. *)
Theorem remove_redundant_wrappers_keeps_commented_wrapper :
  let evs := [StartTag (lit "div") []; Comment (lit "note");
              StartTag (lit "section") []; Data (lit "s");
              EndTag (lit "section"); EndTag (lit "div")] in
  ∃ h, parse_html evs = Ok (0, h)
    ∧ tag (deref h 1) = Some (lit "div")
    ∧ attrs (deref h 1) = []
    ∧ children (deref h 1) = [2; 3]
    ∧ is_comment (deref h 2) = true
    ∧ tag (deref h 3) = Some (lit "section")
    ∧ meaningful_children h 1 = [3]
    ∧ remove_redundant_wrappers 6 0 (h, no_stats) = Ok (h, no_stats).
Proof.
  eexists. split; [vm_compute; reflexivity|].
  split_and!; vm_compute; reflexivity.
Qed.

(** X31. [remove_redundant_wrappers] is a fixpoint pass: on a well-formed
    tree it returns, a second run on its result returns the same tree and
    the same counters, and no [div] element of the tree is one the pass
    unwraps: none has no attributes and, apart from comments, doctypes and
    blank text, a single child that is a [section] or [main] beside no
    non-blank text, comment or doctype, or another [div] without
    attributes. *)
Theorem remove_redundant_wrappers_fixpoint
    (root : ref) (fuel : nat) (st : state) :
  wf root st.1 → length st.1 < fuel →
  ∃ st', remove_redundant_wrappers fuel root st = Ok st'
    ∧ remove_redundant_wrappers fuel root st' = Ok st'
    ∧ ∀ div, element_below st'.1 root div →
             tag (deref st'.1 div) = Some (lit "div") →
             ¬ unwrappable st'.1 div.
Proof.
  intros Hwf Hfuel.
  destruct (remove_redundant_wrappers_total fuel root st Hwf Hfuel)
    as (st' & Hrun & _).
  exists st'. split; [done|].
  unfold remove_redundant_wrappers in *.
  destruct (remove_redundant_wrappers_loop_exit _ _ _ _ _ Hrun)
    as (divs & Hdivs & Hnone).
  split.
  - destruct fuel as [|fuel]; [lia|].
    cbn [remove_redundant_wrappers_loop]. rewrite Hdivs. simpl.
    by rewrite Hnone.
  - intros div Hbelow Htag Hun.
    assert (div ∈ divs) as Hin.
    { apply (iter_tags_spec _ _ _ _ _ Hdivs). split; [done|].
      right. rewrite Htag. by vm_compute. }
    apply redundant_wrapper_unwrappable in Hun.
    pose proof (find_none _ _ Hnone _ (proj1 (list_elem_of_In _ _) Hin)) as Hf.
    simpl in Hf. congruence.
Qed.

(** [<div><div> <div><p>Hi</p></div> </div></div>]: two wrappers go, blank
    text beside the inner ones notwithstanding; the second run changes
    nothing. *)
Lemma remove_redundant_wrappers_fixpoint_witness :
  let evs := [StartTag (lit "div") []; StartTag (lit "div") [];
              Data (lit " "); StartTag (lit "div") [];
              StartTag (lit "p") []; Data (lit "Hi"); EndTag (lit "p");
              EndTag (lit "div"); Data (lit " ")] in
  ∃ h, parse_html evs = Ok (0, h)
    ∧ (∃ st', remove_redundant_wrappers 9 0 (h, no_stats) = Ok st'
         ∧ remove_redundant_wrappers 9 0 st' = Ok st'
         ∧ ∀ div, element_below st'.1 0 div →
                  tag (deref st'.1 div) = Some (lit "div") →
                  ¬ unwrappable st'.1 div)
    ∧ ∃ st', remove_redundant_wrappers 9 0 (h, no_stats) = Ok st'
        ∧ div_unwrapped st'.2 = 2.
Proof.
  eexists.
  match goal with |- ?A ∧ _ => assert A as Hparse by (vm_compute; reflexivity) end.
  split; [exact Hparse|]. split.
  - apply (remove_redundant_wrappers_fixpoint 0 9 (_, no_stats)
             (parse_html_wf _ _ _ Hparse)).
    clear. vm_compute. lia.
  - clear. eexists. split; [vm_compute; reflexivity|reflexivity].
Defined.
